(** * era-engine: input, action state, network session and physics codec

    A shallow embedding of the control/synchronisation core of the ERA
    engine bundle ([Controls], [Entity], [Network]) together with the
    properties its specification states about it, followed by the
    bindings and the dispatch of actions, the pointer lock, the events
    core, the settings check and the utilities, with properties read off
    their code.

    JavaScript numbers are modelled by canonical rationals ([Qc]): every
    finite double is a rational, and negation, absolute value, comparison,
    [===] and truthiness are exact on doubles.  Where the code computes a
    number that need not be a double (reading a numeral, storing into a
    [Float32Array], multiplying), the result is rounded to the nearest
    number of the binary format, ties to even ([Float]).  [-0] is
    identified with [0]; [NaN] and the infinities are values of their
    own. *)

From Stdlib Require Import Ascii QArith Qcanon Qcabs Qround Qabs Qpower Lqa.
From stdpp Require Import gmap strings list fin_maps pretty.

Set Warnings "-register-all".
Local Open Scope Z_scope.

(** * Binary floating point *)

Module Float.

(** A binary format: the number of bits of the significand, the exponent
    of the last bit of the subnormal numbers, and the exponent of the
    leading bit of the largest numbers. *)
Record format := {
  prec : Z;
  emin : Z;
  emax : Z;
}.

(** IEEE 754 binary64, the numbers of JavaScript, and binary32, the
    elements of a [Float32Array]. *)
Definition binary64 : format := {| prec := 53; emin := -1074; emax := 1023 |}.
Definition binary32 : format := {| prec := 24; emin := -149; emax := 127 |}.

Definition pow2 (e : Z) : Q := Qpower 2 e.

(** The integer nearest to [x], the even one of two that are equally
    near. *)
Definition rne (x : Q) : Z :=
  let f := Qfloor x in
  match Qcompare (x - inject_Z f) (1 # 2) with
  | Lt => f
  | Gt => f + 1
  | Eq => if Z.even f then f else f + 1
  end.

(** The exponent of the leading bit of a positive rational. *)
Definition ilog2 (x : Q) : Z :=
  let k := Z.log2 (Qnum x) - Z.log2 (Zpos (Qden x)) in
  if Qle_bool (pow2 k) x then k else k - 1.

(** The exponent of the last bit kept of a positive rational. *)
Definition exponent (F : format) (a : Q) : Z :=
  Z.max (ilog2 a - prec F + 1) (emin F).

(** A positive rational rounded to [prec] bits, or to the bits above
    [emin]. *)
Definition magnitude (F : format) (a : Q) : Q :=
  let e := exponent F a in
  (inject_Z (rne (a / pow2 e)) * pow2 e)%Q.

(** Rounding to nearest, ties to even, with an unbounded exponent. *)
Definition nearest (F : format) (x : Q) : Q :=
  if Qeq_bool x 0 then 0%Q
  else if Qle_bool 0 x then magnitude F x
  else (- magnitude F (- x))%Q.

(** A floating-point datum. *)
Inductive float :=
| Finite (x : Qc)
| NaN
| Infinity (negative : bool).

(** Rounding to the format: what rounds to [2 ^ (emax + 1)] or beyond
    overflows to an infinity. *)
Definition round (F : format) (x : Q) : float :=
  let v := nearest F x in
  if Qle_bool (pow2 (emax F + 1)) (Qabs v) then Infinity (negb (Qle_bool 0 x))
  else Finite (Q2Qc v).

(** Whether two data are the same; [NaN] is one datum. *)
Definition same_float (f g : float) : bool :=
  match f, g with
  | Finite x, Finite y => Qeq_bool (this x) (this y)
  | NaN, NaN => true
  | Infinity a, Infinity b => bool_decide (a = b)
  | _, _ => false
  end.

(** The rationals [m * 2 ^ e] of at most [prec] bits above [emin]. *)
Definition representable (F : format) (y : Q) : Prop :=
  ∃ m e : Z, (y == inject_Z m * pow2 e)%Q ∧ Z.abs m ≤ 2 ^ prec F ∧ emin F ≤ e.

(** The finite numbers of the format: those that round to themselves. *)
Definition in_format (F : format) (x : Qc) : bool :=
  match round F (this x) with
  | Finite y => Qeq_bool (this y) (this x)
  | _ => false
  end.

(** The Number value for a rational. *)
Definition to_double (x : Q) : float := round binary64 x.

(** [Math.fround], the conversion a [Float32Array] applies to what is
    stored in it. *)
Definition fround (f : float) : float :=
  match f with
  | Finite x => round binary32 (this x)
  | _ => f
  end.

Definition is_double (x : Qc) : bool := in_format binary64 x.

End Float.

(** * JavaScript values *)

Module Js.
Export Float.

Abbreviation number := Qc (only parsing).

(** Dynamically typed values, as far as the modelled code meets them. *)
Inductive value :=
| VUndef
| VNull
| VBool (b : bool)
| VNum (x : number)
| VNaN
| VInfinity (negative : bool)
| VStr (s : string)
| VArr (l : list value)
| VF32 (l : list float)
| VObj (fields : list (string * value)).

(** A floating-point datum as a value. *)
Definition of_float (f : float) : value :=
  match f with
  | Finite x => VNum x
  | NaN => VNaN
  | Infinity negative => VInfinity negative
  end.

(** Outcome of a piece of code that may throw.  A [Throw] says nothing
    about the state the code leaves behind. *)
Inductive result (A : Type) :=
| Ok (a : A)
| Throw (error : string).
Arguments Ok {A} a.
Arguments Throw {A} error.

#[global] Instance result_ret : MRet result := λ A a, Ok a.
#[global] Instance result_bind : MBind result := λ A B k r,
  match r with
  | Ok a => k a
  | Throw e => Throw e
  end.
#[global] Instance result_fmap : FMap result := λ A B f r,
  match r with
  | Ok a => Ok (f a)
  | Throw e => Throw e
  end.

(** [ToBoolean]. *)
Definition truthy (v : value) : bool :=
  match v with
  | VUndef | VNull => false
  | VBool b => b
  | VNum x => negb (bool_decide (x = 0%Qc))
  | VNaN => false
  | VInfinity _ => true
  | VStr s => negb (bool_decide (s = ""))
  | VArr _ | VF32 _ | VObj _ => true
  end.

(** Truthiness of [obj[key]] when the stored values are numbers and a
    missing key reads as [undefined]. *)
Definition truthy_num (o : option number) : bool :=
  match o with
  | Some x => negb (bool_decide (x = 0%Qc))
  | None => false
  end.

(** [obj[key] === value] for a number [value]. *)
Definition strict_eq_num (o : option number) (v : number) : bool :=
  match o with
  | Some x => bool_decide (x = v)
  | None => false
  end.

(** [obj[key] || 0]. *)
Definition or_zero (o : option number) : number :=
  match o with
  | Some x => if bool_decide (x = 0%Qc) then 0%Qc else x
  | None => 0%Qc
  end.

(** ** Strings of digits *)

Fixpoint take_chars (n : nat) (s : string) : string :=
  match n, s with
  | S n, String c s => String c (take_chars n s)
  | _, _ => ""
  end.

Fixpoint drop_chars (n : nat) (s : string) : string :=
  match n, s with
  | S n, String _ s => drop_chars n s
  | _, _ => s
  end.

Fixpoint zeros (n : nat) : string :=
  match n with
  | O => ""
  | S n => String "0"%char (zeros n)
  end.

Definition digit_value (c : ascii) : option N :=
  let n := N_of_ascii c in
  if ((48 <=? n) && (n <=? 57))%N then Some (n - 48)%N else None.

(** Reads a run of decimal digits, continuing the number [acc]. *)
Fixpoint read_digits (acc : N) (s : string) : option N :=
  match s with
  | "" => Some acc
  | String c s =>
      match digit_value c with
      | Some d => read_digits (acc * 10 + d) s
      | None => None
      end
  end.

(** Splits at the first ["."]: the part before it, and the part after it
    when there is one. *)
Fixpoint split_dot (s : string) : string * option string :=
  match s with
  | "" => ("", None)
  | String c s =>
      if Ascii.eqb c "."%char then ("", Some s)
      else let '(a, b) := split_dot s in (String c a, b)
  end.

Definition pow10 (k : nat) : Z := 10 ^ Z.of_nat k.

Definition Qc_of_ratio (n d : Z) : number := Q2Qc (Qmake n (Z.to_pos d)).

(** The number [n / d], for writing examples. *)
Definition q (n : Z) (d : positive) : number := Q2Qc (n # d).

(** The value of an unsigned decimal numeral [ddd], [ddd.], [ddd.ddd] or
    [.ddd]. *)
Definition read_unsigned (s : string) : option number :=
  let '(ip, fp) := split_dot s in
  let fp := default "" fp in
  if bool_decide (ip = "" ∧ fp = "") then None
  else
    i ← read_digits 0 ip;
    n ← read_digits i fp;
    Some (Qc_of_ratio (Z.of_N n) (pow10 (String.length fp))).

(** Strings are sequences of characters below U+0100.  Among those the
    white space and line terminators are TAB, LF, VT, FF, CR, SP and
    NBSP. *)
Definition is_blank (c : ascii) : bool :=
  let n := N_of_ascii c in
  ((9 <=? n) && (n <=? 13) || (n =? 32) || (n =? 160))%N.

Fixpoint trim_start (s : string) : string :=
  match s with
  | "" => ""
  | String c rest => if is_blank c then trim_start rest else s
  end.

Fixpoint trim_end (s : string) : string :=
  match s with
  | "" => ""
  | String c rest =>
      let rest := trim_end rest in
      if is_blank c && bool_decide (rest = "") then "" else String c rest
  end.

(** Splits at the first ["e"] or ["E"]. *)
Fixpoint split_exp (s : string) : string * option string :=
  match s with
  | "" => ("", None)
  | String c s =>
      if Ascii.eqb c "e"%char || Ascii.eqb c "E"%char then ("", Some s)
      else let '(a, b) := split_exp s in (String c a, b)
  end.

(** Splits off a sign: whether it is ["-"], and what follows it. *)
Definition split_sign (s : string) : bool * string :=
  match s with
  | String "-"%char rest => (true, rest)
  | String "+"%char rest => (false, rest)
  | _ => (false, s)
  end.

(** The digits of an exponent part, after its [e]: a signed run of at
    least one decimal digit. *)
Definition read_exponent (s : string) : option Z :=
  let '(negative, digits) := split_sign s in
  if bool_decide (digits = "") then None
  else
    n ← read_digits 0 digits;
    Some (if negative : bool then - Z.of_N n else Z.of_N n).

(** The mathematical value of a [StrUnsignedDecimalLiteral] other than
    [Infinity]: a decimal numeral with an optional exponent part. *)
Definition decimal_value (s : string) : option Q :=
  let '(m, ex) := split_exp s in
  e ← match ex with
      | None => Some 0
      | Some x => read_exponent x
      end;
  v ← read_unsigned m;
  Some (this v * Qpower 10 e)%Q.

(** A digit of the given radix, in either case. *)
Definition radix_digit (radix : N) (c : ascii) : option N :=
  let n := N_of_ascii c in
  d ← (if (48 <=? n) && (n <=? 57) then Some (n - 48)
       else if (97 <=? n) && (n <=? 102) then Some (n - 87)
       else if (65 <=? n) && (n <=? 70) then Some (n - 55)
       else None)%N;
  if (d <? radix)%N then Some d else None.

Fixpoint read_radix (radix acc : N) (s : string) : option N :=
  match s with
  | "" => Some acc
  | String c s =>
      match radix_digit radix c with
      | Some d => read_radix radix (acc * radix + d)%N s
      | None => None
      end
  end.

(** The value of a [NonDecimalIntegerLiteral]: [0x], [0o] or [0b] and
    at least one digit. *)
Definition radix_value (s : string) : option N :=
  match s with
  | String "0"%char (String c digits) =>
      radix ← (if Ascii.eqb c "x"%char || Ascii.eqb c "X"%char then Some 16
               else if Ascii.eqb c "o"%char || Ascii.eqb c "O"%char then Some 8
               else if Ascii.eqb c "b"%char || Ascii.eqb c "B"%char then Some 2
               else None)%N;
      if bool_decide (digits = "") then None else read_radix radix 0 digits
  | _ => None
  end.

(** [StringToNumber]: white space around the numeral is dropped, the
    empty string is [0], a signed decimal numeral or [Infinity], or an
    unsigned numeral of radix 16, 8 or 2, has the Number value for its
    mathematical value, and everything else is [NaN].  The mathematical
    value is rounded as it is, which is what the engines do; ECMA-262
    lets an implementation drop the digits after the 20th first. *)
Definition StringToNumber (s : string) : float :=
  let t := trim_end (trim_start s) in
  if bool_decide (t = "") then Finite 0%Qc
  else
    let '(negative, u) := split_sign t in
    if bool_decide (u = "Infinity") then Infinity negative
    else
      match decimal_value u with
      | Some mv => to_double (if negative : bool then - mv else mv)%Q
      | None =>
          match radix_value t with
          | Some n => to_double (inject_Z (Z.of_N n))
          | None => NaN
          end
      end.

Definition TypeError : string := "TypeError".

(** Whether the conversion of [v] to a string ends in a [TypeError]:
    the values of the model hold no functions, so an object with a
    [toString] property of its own has neither a [toString] nor a
    [valueOf] that gives a primitive, and an array prints its elements
    other than [undefined] and [null]. *)
Fixpoint unprintable (v : value) : bool :=
  match v with
  | VObj fields => bool_decide ("toString" ∈ fields.*1)
  | VArr l => existsb unprintable l
  | _ => false
  end.

(** [ToNumber].  An array or a typed array converts through its string
    form, the string forms of its elements joined by commas: that of no
    element is the empty string, that of one element is the string form
    of the element, where [undefined] and [null] print as the empty
    string and a number prints as a numeral that reads back as the
    number.  An object without a [toString] of its own prints as
    ["[object Object]"]. *)
Fixpoint ToNumber (v : value) : result float :=
  match v with
  | VUndef => Ok NaN
  | VNull => Ok (Finite 0%Qc)
  | VBool b => Ok (Finite (if b then 1%Qc else 0%Qc))
  | VNum x => Ok (Finite x)
  | VNaN => Ok NaN
  | VInfinity negative => Ok (Infinity negative)
  | VStr s => Ok (StringToNumber s)
  | VF32 l =>
      Ok (match l with
          | [] => Finite 0%Qc
          | [x] => x
          | _ => NaN
          end)
  | VObj _ => if unprintable v then Throw TypeError else Ok NaN
  | VArr l =>
      if existsb unprintable l then Throw TypeError
      else
        match l with
        | [] => Ok (Finite 0%Qc)
        | [w] =>
            match w with
            | VUndef | VNull => Ok (Finite 0%Qc)
            | VBool _ | VObj _ => Ok NaN
            | _ => ToNumber w
            end
        | _ => Ok NaN
        end
  end.

(** ** Indexed access *)

(** The value of an object's own property, [undefined] when missing. *)
Fixpoint lookup_field (name : string) (fields : list (string * value)) : value :=
  match fields with
  | [] => VUndef
  | (k, v) :: fields => if bool_decide (k = name) then v else lookup_field name fields
  end.

(** [a[i]] for reading: [undefined] past the end, a [TypeError] on
    [undefined] and [null]. *)
Definition get_index (a : value) (i : nat) : result value :=
  match a with
  | VUndef | VNull => Throw TypeError
  | VArr l => Ok (default VUndef (l !! i))
  | VF32 l => Ok (default VUndef (of_float <$> l !! i))
  | VStr s => Ok (match drop_chars i s with
                  | String c _ => VStr (String c "")
                  | "" => VUndef
                  end)
  | VObj fields => Ok (lookup_field (pretty i) fields)
  | VBool _ | VNum _ | VNaN | VInfinity _ => Ok VUndef
  end.

(** [l[i] = v] on an array, which grows when [i] is past the end. *)
Definition array_set (l : list value) (i : nat) (v : value) : list value :=
  if bool_decide (i < length l)%nat then <[i := v]> l
  else l ++ replicate (i - length l) VUndef ++ [v].

(** [const [a, b, c, d] = v]: arrays, typed arrays and strings can be
    iterated. *)
Definition destructure4 (v : value) : result (value * value * value * value) :=
  match v with
  | VArr _ | VF32 _ | VStr _ =>
      a ← get_index v 0; b ← get_index v 1;
      c ← get_index v 2; d ← get_index v 3;
      Ok (a, b, c, d)
  | _ => Throw TypeError
  end.

(** [v.name] for reading. *)
Definition get_member (v : value) (name : string) : result value :=
  match v with
  | VUndef | VNull => Throw TypeError
  | VObj fields => Ok (lookup_field name fields)
  | _ => Ok VUndef
  end.

Section ToFixed.
(** [Number::toString], which [toFixed] falls back to from [10^21] on;
    its digits depend on the binary representation of the number and
    are left open. *)
Variable Number_toString : number → string.

(** [Number.prototype.toFixed(fractionDigits)] for a finite number,
    following ECMA-262: the sign is split off, [n] is the integer
    closest to [x * 10^f] (the larger one on a tie), and its digits are
    padded with zeros to more than [f] places and cut [f] from the
    right. *)
Definition toFixed (x : number) (f : nat) : string :=
  let s := if bool_decide (x < 0)%Qc then "-" else "" in
  let x := Qcabs x in
  let m :=
    if bool_decide (Qc_of_Z (10 ^ 21) ≤ x)%Qc then Number_toString x
    else
      let n := Z.to_N (Qfloor (this x * inject_Z (pow10 f) + (1 # 2))) in
      let m := pretty n in
      if bool_decide (f = O) then m
      else
        let k := String.length m in
        let m := if bool_decide (k ≤ f)%nat then zeros (f + 1 - k) +:+ m else m in
        let k := String.length m in
        take_chars (k - f) m +:+ "." +:+ drop_chars (k - f) m
  in s +:+ m.

(** [toFixed] on a number that need not be finite: [NaN] and the
    infinities print as [Number::toString] prints them. *)
Definition float_toFixed (x : float) (f : nat) : string :=
  match x with
  | Finite x => toFixed x f
  | NaN => "NaN"
  | Infinity negative => if negative then "-Infinity" else "Infinity"
  end.

(** [v.toFixed(f)] on an arbitrary value: only numbers have the method. *)
Definition call_toFixed (v : value) (f : nat) : result value :=
  match v with
  | VNum x => Ok (VStr (float_toFixed (Finite x) f))
  | VNaN => Ok (VStr (float_toFixed NaN f))
  | VInfinity negative => Ok (VStr (float_toFixed (Infinity negative) f))
  | _ => Throw TypeError
  end.

(** What [x => x.toFixed(f)] leaves in an element of a [Float32Array]:
    the string is converted to a number, and the number to binary32. *)
Definition stored_toFixed (x : float) (f : nat) : float :=
  fround (StringToNumber (float_toFixed x f)).

(** [v.map(x => x.toFixed(f))]: arrays and typed arrays have [map].  That
    of an array gives the array of the strings; that of a
    [Float32Array] gives a [Float32Array], which converts each string
    as it is stored. *)
Definition map_toFixed (v : value) (f : nat) : result value :=
  match v with
  | VArr l => VArr <$> mapM (λ x, call_toFixed x f) l
  | VF32 l => Ok (VF32 ((λ x, stored_toFixed x f) <$> l))
  | _ => Throw TypeError
  end.


End ToFixed.





(** Stands in for [Number::toString] in closed examples: the decimal
    digits of an integer, without the exponent form that
    [Number::toString] uses from [10^21] on, where every number is an
    integer. *)
Definition no_exponent_form (x : number) : string :=
  pretty (Z.to_N (Qfloor (this x))).

End Js.

(** * Entity: action state and physics codec *)

Module Entity.
Import Js.

(** The fields of a p2 body the codec touches. *)
Record Body := {
  angularVelocity : value;
  angle : value;
  position : value;
  interpolatedPosition : value;
  velocity : value;
}.

(** What [parentGame.sendInput(entity)] gets to see of the entity. *)
Record InputMessage := {
  msg_actions : gmap Z number;
  msg_mouse : number * number;
}.

(** An [Entity], with the game's outgoing input messages
    ([parentGame.sendInput] is the entity's only effect on the game). *)
Record t := {
  actions : gmap Z number;
  mouseMovement : number * number;
  physicsBody : option Body;
  sent : list InputMessage;
}.

(** [new Entity(parentGame)]: [this.actions = {}], no mouse movement, no
    physics body. *)
Definition create : t :=
  {| actions := ∅; mouseMovement := (0%Qc, 0%Qc); physicsBody := None; sent := [] |}.

Definition with_body (b : Body) (e : t) : t :=
  {| actions := actions e; mouseMovement := mouseMovement e;
     physicsBody := Some b; sent := sent e |}.

Definition sendInput (e : t) : t :=
  {| actions := actions e;
     mouseMovement := mouseMovement e;
     physicsBody := physicsBody e;
     sent := sent e ++ [ {| msg_actions := actions e;
                             msg_mouse := mouseMovement e |} ] |}.

(** [clearInput()] *)
Definition clearInput (e : t) : t :=
  sendInput {| actions := ∅; mouseMovement := (0%Qc, 0%Qc);
               physicsBody := physicsBody e; sent := sent e |}.

(** [setAction(action, value)] *)
Definition setAction (action : Z) (value : number) (e : t) : t :=
  if truthy_num (actions e !! action) && strict_eq_num (actions e !! action) value
  then e
  else
    sendInput
      {| actions := if bool_decide (value ≠ 0%Qc)
                    then <[action := value]> (actions e)
                    else delete action (actions e);
         mouseMovement := mouseMovement e;
         physicsBody := physicsBody e;
         sent := sent e |}.

(** [getForce(binding)], with [binding.binding_id] as the argument *)
Definition getForce (binding_id : Z) (e : t) : number :=
  or_zero (actions e !! binding_id).

(** The two operations the action-state claims range over. *)
Inductive op :=
| SetAction (action : Z) (value : number)
| ClearInput.

Definition step (e : t) (o : op) : t :=
  match o with
  | SetAction a v => setAction a v e
  | ClearInput => clearInput e
  end.

Definition run (ops : list op) (e : t) : t := foldl step e ops.

(** No stored pressure is zero. *)
Definition no_zero_entry (e : t) : Prop :=
  map_Forall (λ _ v, v ≠ 0%Qc) (actions e).

(** ** Physics codec *)

Definition precision : nat := 4.

(** [p2.vec2.copy(out, a)] of the p2 physics library:
    [out[0] = a[0]; out[1] = a[1]; return out].  The vectors of p2 are
    [Float32Array]s, which convert what is stored in them to a number and
    the number to binary32, and ignore an index past their end; where
    there is no [Float32Array] they are plain arrays, which keep what is
    stored in them as it is. *)
Definition vec2_copy (out a : value) : result value :=
  a0 ← get_index a 0;
  a1 ← get_index a 1;
  match out with
  | VArr l => Ok (VArr (array_set (array_set l 0 a0) 1 a1))
  | VF32 l =>
      x0 ← ToNumber a0;
      x1 ← ToNumber a1;
      Ok (VF32 (<[1%nat := fround x1]> (<[0%nat := fround x0]> l)))
  | _ => Throw TypeError
  end.

Section Codec.
Variable Number_toString : number → string.

(** [serializePhysics()] *)
Definition serializePhysics (e : t) : result value :=
  match physicsBody e with
  | None => Ok VNull
  | Some body =>
      av ← call_toFixed Number_toString (angularVelocity body) precision;
      pos ← map_toFixed Number_toString (interpolatedPosition body) precision;
      vel ← map_toFixed Number_toString (velocity body) precision;
      ang ← call_toFixed Number_toString (angle body) precision;
      Ok (VArr [VArr [av]; pos; vel; VArr [ang]])
  end.
End Codec.

(** A p2 body: its angular velocity and angle are numbers, its vectors
    are [Float32Array]s of two numbers. *)
Definition numeric_body (av : number) (pos ipos vel : number * number)
    (ang : number) : Body :=
  {| angularVelocity := VNum av;
     angle := VNum ang;
     position := VF32 [Finite pos.1; Finite pos.2];
     interpolatedPosition := VF32 [Finite ipos.1; Finite ipos.2];
     velocity := VF32 [Finite vel.1; Finite vel.2] |}.

(** [consumeUpdate(physics)] *)
Definition consumeUpdate (physics : value) (e : t) : result t :=
  if negb (truthy physics) then Ok e
  else
    '(angVelo, pos, velo, rot) ← destructure4 physics;
    match physicsBody e with
    | None => Throw TypeError
    | Some body =>
        p ← vec2_copy (position body) pos;
        v ← vec2_copy (velocity body) velo;
        Ok (with_body {| angularVelocity := angVelo;
                         angle := rot;
                         position := p;
                         interpolatedPosition := interpolatedPosition body;
                         velocity := v |} e)
    end.

(** [target.consumeUpdate(source.serializePhysics())] *)
Definition round_trip (Number_toString : number → string) (source target : t)
    : result t :=
  snapshot ← serializePhysics Number_toString source;
  consumeUpdate snapshot target.

End Entity.

(** * Controls: controller polling and entity registration *)

Module Controls.
Import Js.

(** [navigator.getGamepads()[0]]: axis values and button values. *)
Record Gamepad := {
  axes : list number;
  buttons : list number;
}.

(** What [registerEntity] looks at in its argument. *)
Record EntityObject := {
  uuid : string;
  obj_actions : option (gmap Z number);
}.

Record t := {
  previousInput : gmap string number;
  registeredEntities : gmap string EntityObject;
  controlsEnabled : bool;
  hasController : bool;
  movementDeadzone : number;
  console : list string;
}.

(** A [Controls] object with the fields its constructor assigns, and
    the [movement_deadzone] setting read by [loadSettings].  The
    constructor itself is not modelled: the class extends [Plugin], and
    its constructor reaches [this] without a call of [super()]. *)
Definition create (movement_deadzone : number) : t :=
  {| previousInput := ∅; registeredEntities := ∅; controlsEnabled := true;
     hasController := false; movementDeadzone := movement_deadzone;
     console := [] |}.

(** [startPollingController()], without the tick it schedules *)
Definition startPollingController (c : t) : t :=
  {| previousInput := previousInput c; registeredEntities := registeredEntities c;
     controlsEnabled := controlsEnabled c; hasController := true;
     movementDeadzone := movementDeadzone c; console := console c |}.

Definition axis_key (i : nat) : string := "axes" +:+ pretty i.
Definition button_key (i : nat) : string := "button" +:+ pretty i.

(** [Math.abs(val) > this.movementDeadzone] *)
Definition exceeds_deadzone (c : t) (val : number) : bool :=
  bool_decide (movementDeadzone c < Qcabs val)%Qc.

(** [for (i = 0; i < vals.length; i++) input[key(i)] = f(vals[i])],
    started at index [i]. *)
Fixpoint assign_all (key : nat → string) (f : number → number) (i : nat)
    (vals : list number) (input : gmap string number) : gmap string number :=
  match vals with
  | [] => input
  | val :: vals => assign_all key f (S i) vals (<[key i := f val]> input)
  end.

(** The frame computed by the two loops over axes and buttons. *)
Definition raw_frame (c : t) (controller : Gamepad) : gmap string number :=
  let isOutOfDeadzone := existsb (exceeds_deadzone c) (axes controller) in
  let input :=
    assign_all axis_key (λ val, if isOutOfDeadzone then (- val)%Qc else 0%Qc)
      0 (axes controller) ∅ in
  assign_all button_key (λ val, if exceeds_deadzone c val then val else 0%Qc)
    0 (buttons controller) input.

(** [this.previousInput[key] && this.previousInput[key] !== 0] *)
Definition previousHadValue (c : t) (key : string) : bool :=
  truthy_num (previousInput c !! key)
  && negb (strict_eq_num (previousInput c !! key) 0%Qc).

(** The third loop deletes the keys for which
    [input[key] === 0 && !previousHadValue]; the others stay. *)
Definition stays (c : t) (entry : string * number) : Prop :=
  ¬ (entry.2 = 0%Qc ∧ previousHadValue c entry.1 = false).

#[global] Instance stays_dec c entry : Decision (stays c entry).
Proof. unfold stays. apply _. Defined.

(** [getRawControllerInput()]: the state with [previousInput] replaced,
    and the returned input. *)
Definition getRawControllerInput (controller : Gamepad) (c : t)
    : t * gmap string number :=
  let input :=
    if hasController c then filter (stays c) (raw_frame c controller) else ∅ in
  ({| previousInput := input; registeredEntities := registeredEntities c;
      controlsEnabled := controlsEnabled c; hasController := hasController c;
      movementDeadzone := movementDeadzone c; console := console c |},
   input).

(** [registerEntity(entity)], where [None] is a missing ([undefined] or
    [null]) argument: the state when the call ends, and how it ends. *)
Definition registerEntity (entity : option EntityObject) (c : t)
    : t * result unit :=
  let invalid :=
    match entity with
    | None => true
    | Some e => negb (bool_decide (is_Some (obj_actions e)))
    end in
  let console' :=
    if invalid then console c ++ ["Must pass in an entity"] else console c in
  match entity with
  | None =>
      ({| previousInput := previousInput c;
          registeredEntities := registeredEntities c;
          controlsEnabled := controlsEnabled c; hasController := hasController c;
          movementDeadzone := movementDeadzone c; console := console' |},
       Throw TypeError)
  | Some e =>
      ({| previousInput := previousInput c;
          registeredEntities := <[uuid e := e]> (registeredEntities c);
          controlsEnabled := controlsEnabled c; hasController := hasController c;
          movementDeadzone := movementDeadzone c; console := console' |},
       Ok ())
  end.

End Controls.

(** * Network: correlated socket calls and plain HTTP calls *)

Module Network.
Import Js.

(** The listeners the session installs for itself: [handleConnect] on
    [connect], and what [handleConnect] installs, the report of a socket
    error on [error] and, for a required connection, the [once] listener
    on [disconnect] that reports and reloads the page. *)
Inductive handler :=
| HandleConnect (required : bool)
| ReportError
| ReportDisconnect.

#[global] Instance handler_eq_dec : EqDecision handler.
Proof. solve_decision. Defined.

(** The socket as the session uses it: under each event name the
    promises waiting on it (the [once] listeners of the calls, each of
    which resolves one promise with the event's data) and the session's
    own listeners, and the messages emitted so far.  The order between a
    promise listener and a listener of the session on the same event is
    not kept. *)
Record Socket := {
  listeners : gmap string (list nat);
  handlers : gmap string (list handler);
  emitted : list (string * value);
}.

Record t := {
  path : string;
  token : option string;
  cleared : bool;
  pendingResponses : gset string;
  socket : option Socket;
  (** promises handed out by the session: the settled ones with their
      value, and the next fresh identifier *)
  resolved : gmap nat value;
  nextPromise : nat;
}.

(** The promise an [async] method returns: rejected on the spot with an
    [Error] of the given message, or pending under an identifier. *)
Inductive promise :=
| Rejected (message : string)
| Pending (id : nat).

(** [new Network(host, port)] *)
Definition create (host port : string) : t :=
  {| path := host +:+ ":" +:+ port; token := None; cleared := false;
     pendingResponses := ∅; socket := None; resolved := ∅; nextPromise := 0 |}.

Definition set_socket (sock : Socket) (n : t) : t :=
  {| path := path n; token := token n; cleared := cleared n;
     pendingResponses := pendingResponses n; socket := Some sock;
     resolved := resolved n; nextPromise := nextPromise n |}.

(** [socket.removeAllListeners(event)] *)
Definition removeAllListeners (event : string) (sock : Socket) : Socket :=
  {| listeners := delete event (listeners sock);
     handlers := delete event (handlers sock);
     emitted := emitted sock |}.

(** [socket.once(event, data => resolve(data))] for the promise [p] *)
Definition once (event : string) (p : nat) (sock : Socket) : Socket :=
  {| listeners := <[event := default [] (listeners sock !! event) ++ [p]]> (listeners sock);
     handlers := handlers sock;
     emitted := emitted sock |}.

(** [socket.emit(event, data)] *)
Definition emit (event : string) (data : value) (sock : Socket) : Socket :=
  {| listeners := listeners sock; handlers := handlers sock;
     emitted := emitted sock ++ [(event, data)] |}.

(** [!responseEndpoint] holds for a missing argument and for the empty
    string; the response endpoint then defaults to the emitted one. *)
Definition response_endpoint (endpoint : string) (responseEndpoint : option string) : string :=
  match responseEndpoint with
  | Some r => if bool_decide (r = "") then endpoint else r
  | None => endpoint
  end.

(** [emitAndAwaitResponse(endpoint, sentData, responseEndpoint)] *)
Definition emitAndAwaitResponse (endpoint : string) (sentData : value)
    (responseEndpoint : option string) (n : t) : t * promise :=
  match socket n with
  | None => (n, Rejected "No socket installed.")
  | Some sock =>
      let responseEndpoint := response_endpoint endpoint responseEndpoint in
      if bool_decide (endpoint ∈ pendingResponses n)
         || bool_decide (responseEndpoint ∈ pendingResponses n)
      then (n, Rejected "Listener already installed.")
      else
        let pending := {[responseEndpoint]} ∪ ({[endpoint]} ∪ pendingResponses n) in
        let sock := removeAllListeners endpoint sock in
        let sock := removeAllListeners responseEndpoint sock in
        let p := nextPromise n in
        let sock := once responseEndpoint p sock in
        let sock := emit endpoint sentData sock in
        ({| path := path n; token := token n; cleared := cleared n;
            pendingResponses := pending; socket := Some sock;
            resolved := resolved n; nextPromise := S p |},
         Pending p)
  end.

(** [waitForMessage(endpoint)] *)
Definition waitForMessage (endpoint : string) (n : t) : t * promise :=
  match socket n with
  | None => (n, Rejected "No socket installed.")
  | Some sock =>
      if bool_decide (endpoint ∈ pendingResponses n)
      then (n, Rejected "Listener already installed.")
      else
        let pending := {[endpoint]} ∪ pendingResponses n in
        let sock := removeAllListeners endpoint sock in
        let p := nextPromise n in
        let sock := once endpoint p sock in
        ({| path := path n; token := token n; cleared := cleared n;
            pendingResponses := pending; socket := Some sock;
            resolved := resolved n; nextPromise := S p |},
         Pending p)
  end.

(** [createSocketConnection(query, required)], as far as the session
    state goes: an installed socket is kept, otherwise a new one is
    installed, with [handleConnect(required)] listening on [connect].
    The connection parameters and the promise returned are not
    modelled. *)
Definition openSocket (required : bool) (n : t) : t :=
  match socket n with
  | Some _ => n
  | None =>
      set_socket {| listeners := ∅;
                    handlers := {[ "connect" := [HandleConnect required] ]};
                    emitted := [] |} n
  end.

(** [createSocketConnection(query)]: [required] defaults to [false]. *)
Definition createSocketConnection (n : t) : t := openSocket false n.

(** [disconnect()]: the socket object stays installed. *)
Definition disconnect (n : t) : t :=
  {| path := path n; token := token n; cleared := true;
     pendingResponses := pendingResponses n; socket := socket n;
     resolved := resolved n; nextPromise := nextPromise n |}.

(** [resolve(data)] of the promise [p]: a settled promise stays as it is. *)
Definition resolve (data : value) (settled : gmap nat value) (p : nat) : gmap nat value :=
  match settled !! p with
  | Some _ => settled
  | None => <[p := data]> settled
  end.

(** [socket.on(event, ...)] for a listener of the session *)
Definition install (event : string) (h : handler) (hs : gmap string (list handler))
    : gmap string (list handler) :=
  <[event := default [] (hs !! event) ++ [h]]> hs.

(** What a listener of the session does to the listeners when it runs:
    [handleConnect(required)] installs the report on [error] and, if the
    connection is required, the [once] listener on [disconnect].  What
    the listeners do outside the session (the console, the error event,
    the reload of the page) is not modelled. *)
Definition run_handler (hs : gmap string (list handler)) (h : handler)
    : gmap string (list handler) :=
  match h with
  | HandleConnect required =>
      let hs := install "error" ReportError hs in
      if required then install "disconnect" ReportDisconnect hs else hs
  | ReportError | ReportDisconnect => hs
  end.

(** The listeners of the session after [event] has fired: those on the
    event have run, in the order they were installed, and the [once]
    listener among them is gone. *)
Definition fire (event : string) (hs : gmap string (list handler))
    : gmap string (list handler) :=
  let fired := default [] (hs !! event) in
  let kept := filter (λ h, h ≠ ReportDisconnect) fired in
  foldl run_handler
    (if decide (kept = []) then delete event hs else <[event := kept]> hs) fired.

(** A message [event] with [data] arrives on the socket: the listeners
    of the event run; the [once] listeners of the calls resolve their
    promises and are removed. *)
Definition receive (event : string) (data : value) (n : t) : t :=
  match socket n with
  | None => n
  | Some sock =>
      {| path := path n; token := token n; cleared := cleared n;
         pendingResponses := pendingResponses n;
         socket := Some {| listeners := delete event (listeners sock);
                           handlers := fire event (handlers sock);
                           emitted := emitted sock |};
         resolved := foldl (resolve data) (resolved n)
                       (default [] (listeners sock !! event));
         nextPromise := nextPromise n |}
  end.

(** What can happen to a session, one after the other. *)
Inductive op :=
| Connect
| Disconnect
| EmitAndAwaitResponse (endpoint : string) (sentData : value)
    (responseEndpoint : option string)
| WaitForMessage (endpoint : string)
| Receive (event : string) (data : value)
| ConnectRequired.

Definition step (n : t) (o : op) : t :=
  match o with
  | Connect => createSocketConnection n
  | Disconnect => disconnect n
  | EmitAndAwaitResponse e d r => (emitAndAwaitResponse e d r n).1
  | WaitForMessage e => (waitForMessage e n).1
  | Receive ev d => receive ev d n
  | ConnectRequired => openSocket true n
  end.

Definition run (ops : list op) (n : t) : t := foldl step n ops.

(** No message on [event] arrives during [ops]. *)
Definition no_message_on (event : string) (ops : list op) : bool :=
  forallb (λ o, match o with
                | Receive ev _ => negb (bool_decide (ev = event))
                | _ => true
                end) ops.

(** Promise identifiers in use lie below the next fresh one. *)
Definition wf (n : t) : Prop :=
  (∀ p, is_Some (resolved n !! p) → (p < nextPromise n)%nat)
  ∧ (∀ sock ev ps p, socket n = Some sock → listeners sock !! ev = Some ps →
       p ∈ ps → (p < nextPromise n)%nat).

(** The promise [p] is unsettled and is what the one promise listener
    on [ev] resolves; no other event resolves it. *)
Definition awaiting (ev : string) (p : nat) (n : t) : Prop :=
  ∃ sock, socket n = Some sock
    ∧ listeners sock !! ev = Some [p]
    ∧ ev ∈ pendingResponses n
    ∧ resolved n !! p = None
    ∧ (p < nextPromise n)%nat
    ∧ (∀ ev' ps, listeners sock !! ev' = Some ps → p ∈ ps → ev' = ev).

(** ** Plain HTTP calls *)

Record XMLHttpRequest := {
  status : Z;
  responseText : string;
}.

(** The request as it is sent. *)
Record Request := {
  method : string;
  url : string;
  headers : list (string * string);
  body : option string;
}.

(** [new Error(message)], by the argument it is built from. *)
Inductive error := Error (message : value).

(** The two events the calls listen for. *)
Inductive xhr_event := LoadEvent | ErrorEvent.

(** What becomes of the returned promise once an event has fired;
    [Unsettled] when the listener threw before settling it. *)
Inductive settlement :=
| Resolved (response : value)
| RejectedWith (e : error)
| Unsettled.

Section Http.
(** [JSON.parse], [None] when it throws, and [JSON.stringify]. *)
Variable JSON_parse : string → option value.
Variable JSON_stringify : value → string.

(** [createError(req)] *)
Definition createError (req : XMLHttpRequest) : error :=
  match JSON_parse (responseText req) with
  | Some parsed =>
      match get_member parsed "message" with
      | Ok message => Error message
      | Throw _ => Error (VStr (responseText req))
      end
  | None => Error (VStr (responseText req))
  end.

Definition request_headers (n : t) : list (string * string) :=
  ("Content-type", "application/json")
  :: match token n with
     | Some tok => if bool_decide (tok = "") then [] else [("Authorization", tok)]
     | None => []
     end.

(** [resolve(JSON.parse(req.responseText))] inside a listener *)
Definition resolve_parsed (req : XMLHttpRequest) : settlement :=
  match JSON_parse (responseText req) with
  | Some response => Resolved response
  | None => Unsettled
  end.

(** [createPostRequest(path, data)]: the request sent, and the
    settlement of the returned promise for the event that fires with
    the request in state [req]. *)
Definition createPostRequest (p : string) (data : value) (n : t)
    : Request * (xhr_event → XMLHttpRequest → settlement) :=
  ({| method := "POST"; url := "http://" +:+ path n +:+ p;
      headers := request_headers n; body := Some (JSON_stringify data) |},
   λ ev req,
     match ev with
     | LoadEvent =>
         if (status req =? 200) || (status req =? 304)
         then resolve_parsed req
         else RejectedWith (createError req)
     | ErrorEvent => RejectedWith (createError req)
     end).

(** [createGetRequest(path)] *)
Definition createGetRequest (p : string) (n : t)
    : Request * (xhr_event → XMLHttpRequest → settlement) :=
  ({| method := "GET"; url := "http://" +:+ path n +:+ p;
      headers := request_headers n; body := None |},
   λ ev req,
     match ev with
     | LoadEvent =>
         if status req =? 200
         then resolve_parsed req
         else RejectedWith (createError req)
     | ErrorEvent => RejectedWith (createError req)
     end).

(** [createDeleteRequest(path, data)] *)
Definition createDeleteRequest (p : string) (data : value) (n : t)
    : Request * (xhr_event → XMLHttpRequest → settlement) :=
  ({| method := "DELETE"; url := "http://" +:+ path n +:+ p;
      headers := request_headers n; body := Some (JSON_stringify data) |},
   λ ev req,
     match ev with
     | LoadEvent =>
         if status req =? 200
         then resolve_parsed req
         else RejectedWith (createError req)
     | ErrorEvent => RejectedWith (createError req)
     end).
End Http.

(** [s] between double quotes. *)
Definition quoted (s : string) : string :=
  String (ascii_of_N 34) (s +:+ String (ascii_of_N 34) "").

(** The JSON text of an object whose [message] is ["Not found"]. *)
Definition not_found_text : string :=
  "{" +:+ quoted "message" +:+ ":" +:+ quoted "Not found" +:+ "}".

(** A [JSON.parse] for closed examples: it knows three texts and throws on
    every other text. *)
Definition JSON_parse_sample (text : string) : option value :=
  if bool_decide (text = not_found_text)
  then Some (VObj [("message", VStr "Not found")])
  else if bool_decide (text = "{}") then Some (VObj [])
  else if bool_decide (text = "null") then Some VNull
  else None.

End Network.

(** * Entity: what the game has been sent *)

Module EntityView.
Import Js Entity.

(** The last message handed to [sendInput], if any, shows the entity's
    action container and mouse movement as they are now. *)
Definition in_sync (e : t) : Prop :=
  match last (sent e) with
  | Some m => msg_actions m = actions e ∧ msg_mouse m = mouseMovement e
  | None => True
  end.

End EntityView.

(** * Network: installed listeners *)

Module SessionView.
Import Js Network.

(** Every event with promise listeners has exactly one, and that one
    awaits the event. *)
Definition listeners_await (n : t) : Prop :=
  ∀ sock ev ps, socket n = Some sock → listeners sock !! ev = Some ps →
    ∃ p, ps = [p] ∧ awaiting ev p n.

(** The events the session listens to for itself. *)
Definition system_events : list string := ["connect"; "error"; "disconnect"].

Definition handlers_known (n : t) : Prop :=
  ∀ sock ev hs, socket n = Some sock → handlers sock !! ev = Some hs →
    ev ∈ system_events.

End SessionView.

(** * Insertion-ordered maps

    A JavaScript [Map], and an object used as a table, keep their entries
    in insertion order: a list of entries with at most one entry per key. *)

Module JsMap.
Section Ordered.
Context {K V : Type} `{EqDecision K}.

(** [map.get(key)] *)
Fixpoint get (key : K) (m : list (K * V)) : option V :=
  match m with
  | [] => None
  | (k, v) :: m => if decide (k = key) then Some v else get key m
  end.

(** [map.set(key, value)]: an entry that is there keeps its place, a new
    one goes to the end. *)
Fixpoint set (key : K) (value : V) (m : list (K * V)) : list (K * V) :=
  match m with
  | [] => [(key, value)]
  | (k, v) :: m =>
      if decide (k = key) then (key, value) :: m else (k, v) :: set key value m
  end.

(** [map.delete(key)] *)
Definition delete (key : K) (m : list (K * V)) : list (K * V) :=
  filter (λ entry, entry.1 ≠ key) m.

(** [map.has(key)] *)
Definition has (key : K) (m : list (K * V)) : bool :=
  bool_decide (is_Some (get key m)).

End Ordered.

(** The property names every plain object inherits from
    [Object.prototype]: reading one of them from an object that has no
    property of its own under the name gives the inherited member, a
    function or, for [__proto__], the prototype itself, not [undefined]. *)
Definition Object_prototype : list string :=
  [ "constructor"; "hasOwnProperty"; "isPrototypeOf"; "propertyIsEnumerable";
    "toLocaleString"; "toString"; "valueOf"; "__defineGetter__";
    "__defineSetter__"; "__lookupGetter__"; "__lookupSetter__"; "__proto__" ].

Definition inherited (name : string) : bool :=
  bool_decide (name ∈ Object_prototype).

(** The properties of a built-in function that cannot be assigned in
    strict code. *)
Definition Function_readonly : list string :=
  [ "name"; "length"; "caller"; "arguments" ].

End JsMap.

(** * Controls: bindings and the dispatch of actions *)

Module ControlsDispatch.
Import Js.

(** A binding: the identifier sent over the network, and the key that
    triggers it on each device.  Keys are property names: a key code such
    as [87] is the name ["87"]. *)
Record Binding := {
  binding_id : Z;
  keys : list (string * string);
}.

(** The constant [Bindings] *)
Definition Bindings : list (string * Binding) :=
  [ ("BACKWARD", {| binding_id := 0;
                    keys := [("keyboard", "83"); ("controller", "axes1")] |});
    ("FORWARD", {| binding_id := 5;
                   keys := [("keyboard", "87"); ("controller", "axes1")] |});
    ("LEFT", {| binding_id := 6;
                keys := [("keyboard", "65"); ("controller", "axes0")] |});
    ("RIGHT", {| binding_id := 7;
                 keys := [("keyboard", "68"); ("controller", "axes0")] |});
    ("SPRINT", {| binding_id := 8;
                  keys := [("keyboard", "16"); ("controller", "button5")] |}) ].

(** [actionList = boundActions[key] || []; actionList.push(id);
    boundActions[key] = actionList], with [id] read from the constant
    [Bindings] under the binding's name.  A key that the index does not
    have yet and that names a member of [Object.prototype] reads as that
    member, which has no [push]: a [TypeError].  The table passed in has
    the names of [Bindings], as [registerBindings] builds it; any other
    name ends in a [TypeError] here (a name inherited from
    [Object.prototype], for which the code would push [undefined], is not
    represented). *)
Definition bind_key (bindingName : string) (boundActions : gmap string (list Z))
    (key : string) : result (gmap string (list Z)) :=
  match boundActions !! key, JsMap.get bindingName Bindings with
  | Some actionList, Some b =>
      Ok (<[key := actionList ++ [binding_id b]]> boundActions)
  | None, Some b =>
      if JsMap.inherited key then Throw TypeError
      else Ok (<[key := [binding_id b]]> boundActions)
  | _, None => Throw TypeError
  end.

(** The inner loop of [generateBoundActions], over the keys of one
    binding. *)
Fixpoint bind_keys (bindingName : string) (ks : list string)
    (boundActions : gmap string (list Z)) : result (gmap string (list Z)) :=
  match ks with
  | [] => Ok boundActions
  | key :: ks =>
      boundActions ← bind_key bindingName boundActions key;
      bind_keys bindingName ks boundActions
  end.

(** The outer loop of [generateBoundActions], over the bindings. *)
Fixpoint bind_all (bindings : list (string * Binding))
    (boundActions : gmap string (list Z)) : result (gmap string (list Z)) :=
  match bindings with
  | [] => Ok boundActions
  | (bindingName, b) :: bindings =>
      boundActions ← bind_keys bindingName (keys b).*2 boundActions;
      bind_all bindings boundActions
  end.

(** [generateBoundActions(bindings)] *)
Definition generateBoundActions (bindings : list (string * Binding))
    : result (gmap string (list Z)) :=
  bind_all bindings ∅.

(** [this.bindings[customBindingName].keys[device] = customKey] for every
    device of one custom binding.  Assigning a string to [__proto__] does
    nothing.  A name the table does not have ends in a [TypeError], but
    for [constructor]: [this.bindings.constructor.keys] is the function
    [Object.keys], and the assignment lands on that function, leaving the
    table as it is. *)
Fixpoint override_keys (bindingName : string) (custom : list (string * string))
    (bindings : list (string * Binding)) : result (list (string * Binding)) :=
  match custom with
  | [] => Ok bindings
  | (device, customKey) :: custom =>
      match JsMap.get bindingName bindings with
      | Some b =>
          if decide (device = "__proto__") then
            override_keys bindingName custom bindings
          else
            override_keys bindingName custom
              (JsMap.set bindingName
                 {| binding_id := binding_id b;
                    keys := JsMap.set device customKey (keys b) |} bindings)
      | None =>
          if decide (bindingName = "constructor") then
            if decide (device ∈ JsMap.Function_readonly) then Throw TypeError
            else override_keys bindingName custom bindings
          else Throw TypeError
      end
  end.

Fixpoint override_all (customControls : list (string * list (string * string)))
    (bindings : list (string * Binding)) : result (list (string * Binding)) :=
  match customControls with
  | [] => Ok bindings
  | (bindingName, custom) :: customControls =>
      bindings ← override_keys bindingName custom bindings;
      override_all customControls bindings
  end.

(** The custom controls the settings hold: no device is called
    [__proto__], and no key is named after a member of
    [Object.prototype]. *)
Definition plain_controls (customControls : list (string * list (string * string)))
    : Prop :=
  Forall (λ entry,
            Forall (λ dk, dk.1 ≠ "__proto__" ∧ JsMap.inherited dk.2 = false) entry.2)
    customControls.

(** No key of the table is named after a member of [Object.prototype]. *)
Definition plain_keys (bindings : list (string * Binding)) : Prop :=
  Forall (λ entry, Forall (λ dk, JsMap.inherited dk.2 = false) (keys entry.2))
    bindings.

(** No binding of the table lists a device twice. *)
Definition devices_unique (bindings : list (string * Binding)) : Prop :=
  Forall (λ entry, NoDup (keys entry.2).*1) bindings.

(** The key a table has for a binding on a device. *)
Definition key_of (bindingName device : string) (bindings : list (string * Binding))
    : option string :=
  b ← JsMap.get bindingName bindings; JsMap.get device (keys b).

(** The key in force for a binding on a device under the custom
    controls: the key of [Bindings], replaced in turn by every custom key
    given for that binding and device. *)
Definition effective_key (bindingName device : string)
    (customControls : list (string * list (string * string))) : option string :=
  foldl (λ current entry,
           foldl (λ current dk,
                    if decide (entry.1 = bindingName ∧ dk.1 = device)
                    then Some dk.2 else current)
             current entry.2)
    (key_of bindingName device Bindings) customControls.

(** An entity that can be registered: its identifier, the device its
    input came from last, and its input state. *)
Record Player := {
  uuid : string;
  inputDevice : string;
  input : Entity.t;
}.

(** The controls with the entities they can reach.  Entities are objects
    with an identity: [heap] holds them by reference, and
    [registeredEntities] is the [Map] from [uuid] to reference. *)
Record t := {
  heap : gmap nat Player;
  registeredEntities : list (string * nat);
  controlsEnabled : bool;
  bindings : list (string * Binding);
  boundActions : gmap string (list Z);
  (** [engine.getMainPlayer()], when there is a [window.engine] *)
  engine : option (option nat);
  console : list string;
}.

Definition with_heap (h : gmap nat Player) (c : t) : t :=
  {| heap := h; registeredEntities := registeredEntities c;
     controlsEnabled := controlsEnabled c; bindings := bindings c;
     boundActions := boundActions c; engine := engine c; console := console c |}.

Definition with_registered (m : list (string * nat)) (c : t) : t :=
  {| heap := heap c; registeredEntities := m;
     controlsEnabled := controlsEnabled c; bindings := bindings c;
     boundActions := boundActions c; engine := engine c; console := console c |}.

Definition with_enabled (b : bool) (c : t) : t :=
  {| heap := heap c; registeredEntities := registeredEntities c;
     controlsEnabled := b; bindings := bindings c;
     boundActions := boundActions c; engine := engine c; console := console c |}.

Definition log_error (c : t) : t :=
  {| heap := heap c; registeredEntities := registeredEntities c;
     controlsEnabled := controlsEnabled c; bindings := bindings c;
     boundActions := boundActions c; engine := engine c;
     console := console c ++ ["Must pass in an entity"] |}.

(** [registerBindings()], with the [controls] setting as argument *)
Definition registerBindings (customControls : list (string * list (string * string)))
    (c : t) : result t :=
  bs ← override_all customControls Bindings;
  ba ← generateBoundActions bs;
  Ok {| heap := heap c; registeredEntities := registeredEntities c;
        controlsEnabled := controlsEnabled c; bindings := bs;
        boundActions := ba; engine := engine c; console := console c |}.

(** [getActionList(key)], for a key that the index has or that is not
    the name of a member of [Object.prototype] *)
Definition getActionList (key : string) (c : t) : list Z :=
  default [] (boundActions c !! key).

(** [entity.inputDevice = inputDevice; entity.setAction(action, value)] *)
Definition drive (action : Z) (value : number) (inputDevice : string)
    (entity : Player) : Player :=
  {| uuid := uuid entity; inputDevice := inputDevice;
     input := Entity.setAction action value (input entity) |}.

(** [this.registeredEntities.forEach(...)] for one action *)
Definition drive_all (value : number) (inputDevice : string)
    (registered : list (string * nat)) (h : gmap nat Player) (action : Z)
    : gmap nat Player :=
  foldl (λ h entry, alter (drive action value inputDevice) entry.2 h) h registered.

(** The loop of [setActions] over the action list *)
Definition dispatch (key : string) (value : number) (inputDevice : string)
    (c : t) : t :=
  with_heap
    (foldl (drive_all value inputDevice (registeredEntities c)) (heap c)
       (getActionList key c)) c.

(** [setActions(key, value, inputDevice)].  For a key that the index does
    not have and that names a member of [Object.prototype],
    [getActionList] returns that member, and [for (... of actionList)]
    ends in a [TypeError]. *)
Definition setActions (key : string) (value : number) (inputDevice : string)
    (c : t) : result t :=
  if negb (controlsEnabled c) then Ok c
  else if JsMap.inherited key && bool_decide (boundActions c !! key = None)
  then Throw TypeError
  else Ok (dispatch key value inputDevice c).

(** A listener that ends in an exception leaves the state as the
    exception found it. *)
Definition listener (r : result t) (c : t) : t :=
  match r with
  | Ok c' => c'
  | Throw _ => c
  end.

(** [registerEntity(entity)] for a reference; a reference to nothing is
    the missing argument.  Entities here are [Entity] instances, which
    have an action container. *)
Definition registerEntity (entity : nat) (c : t) : t * result unit :=
  match heap c !! entity with
  | None => (log_error c, Throw TypeError)
  | Some e => (with_registered (JsMap.set (uuid e) entity (registeredEntities c)) c, Ok ())
  end.

(** [entity.clearInput()] *)
Definition clear (entity : Player) : Player :=
  {| uuid := uuid entity; inputDevice := inputDevice entity;
     input := Entity.clearInput (input entity) |}.

(** [unregisterEntity(entity)] *)
Definition unregisterEntity (entity : nat) (c : t) : t * result unit :=
  match heap c !! entity with
  | None => (log_error c, Throw TypeError)
  | Some e =>
      (with_heap (<[entity := clear e]> (heap c))
         (with_registered (JsMap.delete (uuid e) (registeredEntities c)) c),
       Ok ())
  end.

(** [enable()] *)
Definition enable (c : t) : t := with_enabled true c.

(** [disable()] *)
Definition disable (c : t) : t :=
  match engine c with
  | None => c
  | Some mainPlayer =>
      let c := with_enabled false c in
      match mainPlayer with
      | Some player => with_heap (alter clear player (heap c)) c
      | None => c
      end
  end.

(** The input events the dispatcher reacts to, and the two switches. *)
Inductive event :=
| KeyDown (keyCode : nat)
| KeyUp (keyCode : nat)
| MouseDown (button : nat)
| MouseUp (button : nat)
| ControllerInput (key : string) (value : number)
| Enable
| Disable.

(** The listeners installed by the constructor, and [controllerTick]'s
    call for one key of the raw input. *)
Definition handle (c : t) (ev : event) : t :=
  match ev with
  | KeyDown keyCode => listener (setActions (pretty keyCode) 1%Qc "keyboard" c) c
  | KeyUp keyCode => listener (setActions (pretty keyCode) 0%Qc "keyboard" c) c
  | MouseDown button => listener (setActions (pretty button) 1%Qc "keyboard" c) c
  | MouseUp button => listener (setActions (pretty button) 0%Qc "keyboard" c) c
  | ControllerInput key value => listener (setActions key value "controller" c) c
  | Enable => enable c
  | Disable => disable c
  end.

(** The events that carry input. *)
Definition is_input (ev : event) : bool :=
  match ev with
  | Enable | Disable => false
  | _ => true
  end.

(** What a client does with the controls: register and unregister
    entities, and let events arrive. *)
Inductive call :=
| Register (entity : nat)
| Unregister (entity : nat)
| Input (ev : event).

Definition perform (c : t) (o : call) : t :=
  match o with
  | Register entity => (registerEntity entity c).1
  | Unregister entity => (unregisterEntity entity c).1
  | Input ev => handle c ev
  end.

(** How many registry entries refer to an entity. *)
Definition references (entity : nat) (registered : list (string * nat)) : nat :=
  length (filter (λ entry, entry.2 = entity) registered).

(** An entity after [setActions] has gone through the action list, the
    registry holding [n] entries that refer to it. *)
Definition driven (n : nat) (v : number) (d : string) (actionList : list Z)
    (e : Player) : Player :=
  foldl (λ e a, Nat.iter n (drive a v d) e) e actionList.

(** A player that has not given any input yet, and controls that know
    the default bindings. *)
Definition new_player (uuid : string) : Player :=
  {| uuid := uuid; inputDevice := "keyboard"; input := Entity.create |}.

Definition sample : t :=
  {| heap := {[ 0%nat := new_player "p0"; 1%nat := new_player "p1" ]};
     registeredEntities := [("p0", 0%nat)];
     controlsEnabled := true;
     bindings := Bindings;
     boundActions := {[ "87" := [5]; "83" := [0]; "axes1" := [0; 5] ]};
     engine := Some (Some 0%nat);
     console := [] |}.

(** Registry entries point at entities that carry the entry's key as
    their [uuid], one entry per key. *)
Definition registry_ok (c : t) : Prop :=
  NoDup (registeredEntities c).*1
  ∧ ∀ u r, (u, r) ∈ registeredEntities c →
      ∃ e, heap c !! r = Some e ∧ uuid e = u.

End ControlsDispatch.

(** * Controls: pointer lock *)

Module PointerLock.

(** The two calls made on the DOM. *)
Inductive dom_call :=
| RequestPointerLock   (* [engine.renderer.domElement.requestPointerLock()] *)
| ExitPointerLock.     (* [document.exitPointerLock()] *)

#[global] Instance dom_call_eq_dec : EqDecision dom_call.
Proof. solve_decision. Defined.

(** [pointerLockState] is [true], [false] or anything else ([None]: it
    starts out [undefined]); [renderer] says whether [window.engine] and
    its renderer exist. *)
Record t := {
  pointerLockState : option bool;
  renderer : bool;
  calls : list dom_call;
}.

Definition call (d : dom_call) (c : t) : t :=
  {| pointerLockState := pointerLockState c; renderer := renderer c;
     calls := calls c ++ [d] |}.

(** [requestPointerLock()] *)
Definition requestPointerLock (c : t) : t :=
  if decide (pointerLockState c = Some false) then c
  else if negb (renderer c) then c
  else call RequestPointerLock c.

(** [exitPointerLock()] *)
Definition exitPointerLock (c : t) : t :=
  if decide (pointerLockState c = Some true) then c
  else call ExitPointerLock c.

(** [forcePointerLockState(state)] *)
Definition forcePointerLockState (state : option bool) (c : t) : t :=
  let c := {| pointerLockState := state; renderer := renderer c; calls := calls c |} in
  match state with
  | Some true => requestPointerLock c
  | Some false => exitPointerLock c
  | None => c
  end.

(** [onMouseClick(e)], with [onCanvas] for
    [e.target == engine.renderer.domElement] *)
Definition onMouseClick (onCanvas : bool) (c : t) : t :=
  if renderer c && onCanvas then requestPointerLock c else c.

(** What happens to the pointer lock: calls of the methods, clicks, and
    the renderer coming and going. *)
Inductive op :=
| Force (state : option bool)
| Request
| Exit
| Click (onCanvas : bool)
| Renderer (present : bool).

Definition step (c : t) (o : op) : t :=
  match o with
  | Force state => forcePointerLockState state c
  | Request => requestPointerLock c
  | Exit => exitPointerLock c
  | Click onCanvas => onMouseClick onCanvas c
  | Renderer present =>
      {| pointerLockState := pointerLockState c; renderer := present;
         calls := calls c |}
  end.

Definition is_force (o : op) : bool :=
  match o with
  | Force _ => true
  | _ => false
  end.

(** The call a forced state lets through. *)
Definition allowed (state : bool) : dom_call :=
  if state then RequestPointerLock else ExitPointerLock.

End PointerLock.

(** * Events *)

Module Events.
Import Js.

(** A listener callback: the function, by identity, and its [context]
    property if it has one.  Contexts are objects, compared by identity.
    Callbacks are taken not to call back into the events core. *)
Record Callback := {
  callback_id : nat;
  context : option nat;
}.

(** [registeredListeners]: label to (listener UUID to callback);
    [registeredUUIDs]: listener UUID to label. *)
Record t := {
  registeredListeners : list (string * list (string * Callback));
  registeredUUIDs : list (string * string);
}.

(** [new Events()] *)
Definition create : t := {| registeredListeners := []; registeredUUIDs := [] |}.

(** [!callback.context || callback.context == context] *)
Definition in_context (ctx : option nat) (callback : Callback) : bool :=
  match context callback with
  | None => true
  | Some k => bool_decide (ctx = Some k)
  end.

(** [fireEvent(label, data, context)]: the value returned and the
    callbacks called, in order, each with the data. *)
Definition fireEvent (label : string) (data : value) (ctx : option nat) (ev : t)
    : value * list (nat * value) :=
  match JsMap.get label (registeredListeners ev) with
  | None => (VBool false, [])
  | Some callbacks =>
      (VUndef,
       (λ entry, (callback_id entry.2, data))
         <$> filter (λ entry, in_context ctx entry.2 = true) callbacks)
  end.

(** [addListener(label, callback)]; [listenerUUID] is what [createUUID()]
    returns in this call, and a callback is a function or [undefined].
    [None] is the result [false]. *)
Definition addListener (label : string) (callback : option Callback)
    (listenerUUID : string) (ev : t) : t * option string :=
  match callback with
  | Some cb =>
      if decide (label = "") then (ev, None)
      else
        let listeners := default [] (JsMap.get label (registeredListeners ev)) in
        ({| registeredListeners :=
              JsMap.set label (JsMap.set listenerUUID cb listeners)
                (registeredListeners ev);
            registeredUUIDs := JsMap.set listenerUUID label (registeredUUIDs ev) |},
         Some listenerUUID)
  | None => (ev, None)
  end.

(** [removeListener(uuid)] *)
Definition removeListener (uuid : string) (ev : t) : t * bool :=
  match JsMap.get uuid (registeredUUIDs ev) with
  | None => (ev, false)
  | Some label =>
      if decide (label = "") then (ev, false)
      else
        match JsMap.get label (registeredListeners ev) with
        | None => (ev, false)
        | Some listeners =>
            ({| registeredListeners :=
                  JsMap.set label (JsMap.delete uuid listeners)
                    (registeredListeners ev);
                registeredUUIDs := registeredUUIDs ev |},
             JsMap.has uuid listeners)
        end
  end.

Inductive op :=
| Add (label : string) (callback : option Callback) (listenerUUID : string)
| Remove (uuid : string).

Definition step (ev : t) (o : op) : t :=
  match o with
  | Add label callback listenerUUID => (addListener label callback listenerUUID ev).1
  | Remove uuid => (removeListener uuid ev).1
  end.

Definition run (ops : list op) : t := foldl step create ops.

(** The UUIDs that [createUUID] handed out. *)
Definition issued (ops : list op) : list string :=
  omap (λ o, match o with
             | Add label (Some _) listenerUUID =>
                 if decide (label = "") then None else Some listenerUUID
             | _ => None
             end) ops.

(** The labels that had a listener added. *)
Definition labelled (ops : list op) : list string :=
  omap (λ o, match o with
             | Add label (Some _) _ =>
                 if decide (label = "") then None else Some label
             | _ => None
             end) ops.

(** The listeners of a label that are live after a history of calls,
    read off the history: each listener added for the label and not
    removed since, in the order of the additions. *)
Definition live_step (label : string) (acc : list (string * Callback)) (o : op)
    : list (string * Callback) :=
  match o with
  | Add l (Some cb) listenerUUID =>
      if decide (l ≠ "" ∧ l = label) then acc ++ [(listenerUUID, cb)] else acc
  | Add _ None _ => acc
  | Remove uuid => filter (λ entry, entry.1 ≠ uuid) acc
  end.

Definition live (label : string) (ops : list op) : list (string * Callback) :=
  foldl (live_step label) [] ops.

(** What the two maps hold after a history of calls in which
    [createUUID] never returned the same UUID twice. *)
Record related (ops : list op) (ev : t) : Prop := {
  related_listeners : ∀ label,
    default [] (JsMap.get label (registeredListeners ev)) = live label ops;
  related_labels : ∀ label,
    is_Some (JsMap.get label (registeredListeners ev)) ↔ label ∈ labelled ops;
  related_issued : ∀ u label,
    JsMap.get u (registeredUUIDs ev) = Some label → u ∈ issued ops ∧ label ≠ "";
  related_uuids : ∀ label u cb,
    (u, cb) ∈ live label ops → JsMap.get u (registeredUUIDs ev) = Some label;
}.

End Events.

(** * Settings *)

Module Settings.
Import Js.

(** The constant [DEFAULT_SETTINGS] *)
Definition DEFAULT_SETTINGS : list (string * value) :=
  [ ("fps", VBool false);
    ("mouse_sensitivity", VNum (Q2Qc (50 # 1)));
    ("shaders", VBool true);
    ("volume", VNum (Q2Qc (50 # 1)));
    ("controls", VObj []);
    ("movement_deadzone", VNum (Q2Qc (15 # 100))) ].

Definition is_undefined (v : value) : bool :=
  match v with
  | VUndef => true
  | _ => false
  end.

(** [object[key] === undefined], for an object given by its own
    properties in enumeration order: a name the object does not have
    itself may be inherited from [Object.prototype]. *)
Definition undefined_in (key : string) (object : list (string * value)) : bool :=
  match JsMap.get key object with
  | Some v => is_undefined v
  | None => negb (JsMap.inherited key)
  end.

(** The settings object, the item [era_settings] of the local storage,
    and the number of settings events fired. *)
Record t := {
  settingsObject : list (string * value);
  localStorage : option string;
  fired : nat;
}.

(** The first loop of [verifySettings]: keys without a default go. *)
Definition drop_unknown (acc : list (string * value) * bool) (key : string)
    : list (string * value) * bool :=
  if undefined_in key DEFAULT_SETTINGS then (JsMap.delete key acc.1, true) else acc.

(** The second loop: missing settings get their default. *)
Definition fill_default (acc : list (string * value) * bool) (entry : string * value)
    : list (string * value) * bool :=
  if undefined_in entry.1 acc.1 then (JsMap.set entry.1 entry.2 acc.1, true) else acc.

(** The two loops, with the flag [changed] *)
Definition verified (object : list (string * value)) : list (string * value) * bool :=
  foldl fill_default (foldl drop_unknown (object, false) object.*1) DEFAULT_SETTINGS.

Section Storage.
Variable JSON_stringify : value → string.

(** [apply()] *)
Definition apply (s : t) : t :=
  {| settingsObject := settingsObject s;
     localStorage := Some (JSON_stringify (VObj (settingsObject s)));
     fired := S (fired s) |}.

(** [verifySettings()] *)
Definition verifySettings (s : t) : t :=
  let '(object, changed) := verified (settingsObject s) in
  let s := {| settingsObject := object; localStorage := localStorage s;
              fired := fired s |} in
  if changed then apply s else s.

End Storage.

End Settings.

(** * Utilities *)

Module Util.
Import Js.

(** ** [shuffleArray]

    [random n] is what the [n]-th call of [Math.random()] returns, a
    double from 0 up to but not including 1. *)

(** An array as [shuffleArray] uses it: its elements, [None] for
    [undefined] and for a hole, which read alike, and what has been
    stored under numeric keys that are no array index, the latest
    first. *)
Record Array (A : Type) := {
  items : list (option A);
  properties : list (float * option A);
}.
Arguments items {A} _.
Arguments properties {A} _.

(** An array that holds the elements of a list. *)
Definition of_list {A} (l : list A) : Array A :=
  {| items := Some <$> l; properties := [] |}.

(** A loop index as a property key. *)
Definition index_key (i : nat) : float := Finite (Q2Qc (inject_Z (Z.of_nat i))).

(** The array index a numeric key stands for: an integer from 0 to
    [2^32 - 2]. *)
Definition array_index (key : float) : option nat :=
  match key with
  | Finite p =>
      let n := Qfloor (this p) in
      if Qeq_bool (this p) (inject_Z n) && (0 <=? n) && (n <? 2 ^ 32 - 1)
      then Some (Z.to_nat n) else None
  | _ => None
  end.

Fixpoint lookup_key {A} (key : float) (properties : list (float * option A))
    : option A :=
  match properties with
  | [] => None
  | (k, v) :: properties =>
      if same_float k key then v else lookup_key key properties
  end.

(** [array[key]] for reading: [undefined] where nothing is stored. *)
Definition read {A} (key : float) (array : Array A) : option A :=
  match array_index key with
  | Some n => mjoin (items array !! n)
  | None => lookup_key key (properties array)
  end.

(** [array[key] = v]: an index past the end grows the array, leaving
    holes below it. *)
Definition assign {A} (key : float) (v : option A) (array : Array A) : Array A :=
  match array_index key with
  | Some n =>
      {| items :=
           if bool_decide (n < length (items array))%nat
           then <[n := v]> (items array)
           else items array ++ replicate (n - length (items array)) None ++ [v];
         properties := properties array |}
  | None =>
      {| items := items array;
         properties := (key, v) :: properties array |}
  end.

(** [[array[i], array[j]] = [array[j], array[i]]]: both elements are
    read, then [array[i]] and [array[j]] are assigned in this order. *)
Definition swap {A} (i j : float) (array : Array A) : Array A :=
  let y := read j array in
  let x := read i array in
  assign j x (assign i y array).

(** [Math.floor] *)
Definition floor (f : float) : float :=
  match f with
  | Finite p => Finite (Q2Qc (inject_Z (Qfloor (this p))))
  | _ => f
  end.

(** [Math.floor(Math.random() * (i + 1))]: the product is rounded to a
    double; [i + 1] is exact, [i] being an array index. *)
Definition random_index (r : number) (i : nat) : float :=
  floor (to_double (this r * inject_Z (Z.of_nat i + 1))).

(** The loop of [shuffleArray], from index [i] down to 1; [n] counts the
    calls of [Math.random()]. *)
Fixpoint shuffle_from {A} (random : nat → number) (i n : nat) (array : Array A)
    : Array A :=
  match i with
  | O => array
  | S i' =>
      shuffle_from random i' (S n)
        (swap (index_key i) (random_index (random n) i) array)
  end.

(** [shuffleArray(array)]: the array as the call leaves it *)
Definition shuffleArray {A} (random : nat → number) (array : Array A) : Array A :=
  shuffle_from random (length (items array) - 1) 0 array.

(** What [Math.random()] is to return: a double from 0 up to but not
    including 1. *)
Definition unit_draw (r : number) : bool :=
  is_double r && bool_decide (0 ≤ r)%Qc && bool_decide (r < 1)%Qc.

(** ** [extractMeshes] *)

(** An object of the scene graph: its [type], the name of its material
    (of a mesh), and its children. *)
Inductive Object3D :=
| Node (type : string) (material_name : string) (children : list Object3D).

Definition type (object : Object3D) : string :=
  match object with Node type _ _ => type end.

Definition material_name (object : Object3D) : string :=
  match object with Node _ name _ => name end.

Definition children (object : Object3D) : list Object3D :=
  match object with Node _ _ children => children end.

(** [name.indexOf(materialFilter)] *)
Definition indexOf (name materialFilter : string) : Z :=
  match String.index 0 materialFilter name with
  | Some n => Z.of_nat n
  | None => -1
  end.

(** The test on a mesh; an absent filter and the empty string are both
    falsy. *)
Definition selects (materialFilter : string) (filterOut : bool) (object : Object3D)
    : bool :=
  if decide (materialFilter = "") then true
  else (filterOut && bool_decide (indexOf (material_name object) materialFilter < 0))
       || (negb filterOut
           && bool_decide (indexOf (material_name object) materialFilter > -1)).

(** [extractMeshes(object, materialFilter, filterOut)] *)
Fixpoint extractMeshes (object : Object3D) (materialFilter : string)
    (filterOut : bool) : list Object3D :=
  match object with
  | Node type name children =>
      (if decide (type = "Mesh") then
         if selects materialFilter filterOut object then [object] else []
       else [])
      ++ (fix each (children : list Object3D) : list Object3D :=
            match children with
            | [] => []
            | child :: children =>
                extractMeshes child materialFilter filterOut ++ each children
            end) children
  end.

(** ** [createUUID] *)

(** [x | 0]: the number truncated and wrapped to 32 bits *)
Definition to_int32 (x : number) : Z :=
  let t := if bool_decide (0 ≤ x)%Qc then Qfloor x else Qceiling x in
  (t + 2 ^ 31) mod 2 ^ 32 - 2 ^ 31.

Definition hex_digit (d : Z) : ascii :=
  match d with
  | 0 => "0" | 1 => "1" | 2 => "2" | 3 => "3" | 4 => "4" | 5 => "5" | 6 => "6"
  | 7 => "7" | 8 => "8" | 9 => "9" | 10 => "a" | 11 => "b" | 12 => "c"
  | 13 => "d" | 14 => "e" | _ => "f"
  end%char.

Fixpoint hex_go (fuel : nat) (n : Z) (acc : string) : string :=
  match fuel with
  | O => acc
  | S fuel =>
      let acc := String (hex_digit (n mod 16)) acc in
      if n / 16 =? 0 then acc else hex_go fuel (n / 16) acc
  end.

(** [v.toString(16)] for a 32-bit integer *)
Definition toString16 (v : Z) : string :=
  if v <? 0 then String "-" (hex_go 8 (- v) "") else hex_go 8 v "".

(** The replacement function: [r = Math.random() * 16 | 0],
    [v = c == 'x' ? r : (r & 0x3 | 0x8)], [v.toString(16)] *)
Definition replacement (c : ascii) (random : number) : string :=
  let r := to_int32 (random * Q2Qc (16 # 1))%Qc in
  let v := if decide (c = "x"%char) then r else Z.lor (Z.land r 3) 8 in
  toString16 v.

(** [template.replace(/[xy]/g, ...)]; [n] counts the calls of
    [Math.random()]. *)
Fixpoint replace_xy (random : nat → number) (template : string) (n : nat) : string :=
  match template with
  | EmptyString => EmptyString
  | String c template =>
      if decide (c = "x"%char ∨ c = "y"%char)
      then replacement c (random n) +:+ replace_xy random template (S n)
      else String c (replace_xy random template n)
  end.

(** [createUUID()] *)
Definition createUUID (random : nat → number) : string :=
  replace_xy random "xxxxxxxx-xxxx-4xxx-yxxx-xxxxxxxxxxxx" 0.

Definition is_hex (c : ascii) : Prop :=
  c ∈ ["0"; "1"; "2"; "3"; "4"; "5"; "6"; "7"; "8"; "9";
       "a"; "b"; "c"; "d"; "e"; "f"]%char.

(** What [replace] may put in the place of a character of the template:
    a hexadecimal digit for [x], one of 8, 9, a, b for [y], and the
    character itself otherwise. *)
Definition replaces (t c : ascii) : Prop :=
  (t = "x"%char → is_hex c)
  ∧ (t = "y"%char → c ∈ ["8"; "9"; "a"; "b"]%char)
  ∧ (t ≠ "x"%char → t ≠ "y"%char → c = t).

(** A random source that always returns a half. *)
Definition half : nat → number := λ _, Q2Qc (1 # 2).

End Util.

(** * Facts *)

(** * Facts about rounding *)

Module FloatFacts.
Import Float.

Lemma pow2_pos e : (0 < pow2 e)%Q.
Proof. apply Qpower_0_lt. reflexivity. Qed.

Lemma pow2_add a b : (pow2 (a + b) == pow2 a * pow2 b)%Q.
Proof. apply Qpower_plus. discriminate. Qed.

Lemma pow2_le a b : a ≤ b → (pow2 a <= pow2 b)%Q.
Proof. intros H. apply Qpower_le_compat_l; [done|]. discriminate. Qed.

Lemma pow2_inject e : 0 ≤ e → (pow2 e == inject_Z (2 ^ e))%Q.
Proof. intros H. unfold pow2. by rewrite Zpower_Qpower. Qed.

Lemma pow2_succ e : (pow2 (e + 1) == 2 * pow2 e)%Q.
Proof. rewrite pow2_add. unfold pow2 at 2. cbn. lra. Qed.

(** [rne] picks an integer nearest to its argument. *)
Lemma rne_nearest x (j : Z) :
  (Qabs (inject_Z (rne x) - x) <= Qabs (inject_Z j - x))%Q.
Proof.
  pose proof (Qfloor_le x) as Hlo. pose proof (Qlt_floor x) as Hhi.
  rewrite inject_Z_plus in Hhi. change (inject_Z 1) with 1%Q in Hhi.
  set (f := Qfloor x) in *.
  assert (Hj : (inject_Z j <= inject_Z f)%Q ∨ (inject_Z f + 1 <= inject_Z j)%Q).
  { destruct (Z_le_gt_dec j f) as [H|H].
    - left. by rewrite <- Zle_Qle.
    - right. change 1%Q with (inject_Z 1).
      rewrite <- (inject_Z_plus f 1), <- Zle_Qle. lia. }
  unfold rne. fold f.
  destruct (Qcompare_spec (x - inject_Z f) (1 # 2)) as [Heq|Hlt|Hgt].
  - destruct (Z.even f);
      [|rewrite inject_Z_plus; change (inject_Z 1) with 1%Q];
      apply Qabs_case; intros; apply Qabs_case; intros; destruct Hj; lra.
  - apply Qabs_case; intros; apply Qabs_case; intros; destruct Hj; lra.
  - rewrite inject_Z_plus. change (inject_Z 1) with 1%Q.
    apply Qabs_case; intros; apply Qabs_case; intros; destruct Hj; lra.
Qed.


Lemma rne_bounds x : Qfloor x ≤ rne x ≤ Qfloor x + 1.
Proof.
  unfold rne. destruct (Qcompare _ _); [destruct (Z.even _)|..]; lia.
Qed.

(** [ilog2] is the exponent of the leading bit. *)
Lemma ilog2_spec x :
  (0 < x)%Q → (pow2 (ilog2 x) <= x)%Q ∧ (x < pow2 (ilog2 x + 1))%Q.
Proof.
  destruct x as [n d]. intros Hx.
  assert (Hn : 0 < n) by (unfold Qlt in Hx; cbn in Hx; lia).
  pose proof (Z.log2_spec n Hn) as [Hn1 Hn2].
  pose proof (Z.log2_spec (Zpos d) eq_refl) as [Hd1 Hd2].
  pose proof (Z.log2_nonneg n) as Ha. pose proof (Z.log2_nonneg (Zpos d)) as Hb.
  unfold ilog2. cbn [Qnum Qden].
  set (a := Z.log2 n) in *. set (b := Z.log2 (Zpos d)) in *.
  rewrite <- Z.add_1_r in Hn2, Hd2.
  rewrite Zle_Qle in Hn1, Hd1. rewrite Zlt_Qlt in Hn2, Hd2.
  rewrite <- !pow2_inject in Hn1, Hd1, Hn2, Hd2 by lia.
  rewrite pow2_succ in Hn2, Hd2.
  pose proof (pow2_pos a) as HA. pose proof (pow2_pos b) as HB.
  assert (Hk : (pow2 (a - b) * pow2 b == pow2 a)%Q).
  { rewrite <- pow2_add. by replace (a - b + b) with a by lia. }
  assert (HD : (0 < inject_Z (Zpos d))%Q) by (rewrite <- (Zlt_Qlt 0); lia).
  assert (Hq : ((n # d) * inject_Z (Zpos d) == inject_Z n)%Q).
  { rewrite (Qmake_Qdiv n d). field. lra. }
  set (K := pow2 (a - b)) in *.
  assert (HK : (0 < K)%Q) by apply pow2_pos.
  destruct (Qle_bool K (n # d)) eqn:Htest.
  - apply Qle_bool_iff in Htest. split; [done|].
    rewrite pow2_succ. fold K. nra.
  - assert (Hlt : (n # d < K)%Q).
    { apply Qnot_le_lt. intros H%Qle_bool_iff. congruence. }
    replace (a - b - 1 + 1) with (a - b) by lia. split; [|done].
    assert (Hhalf : (2 * pow2 (a - b - 1) == K)%Q).
    { rewrite <- pow2_succ. unfold K. by replace (a - b - 1 + 1) with (a - b) by lia. }
    nra.
Qed.

Lemma nearest_grid E a (j : Z) :
  (0 < E)%Q →
  (Qabs (inject_Z (rne (a / E)) * E - a) <= Qabs (inject_Z j * E - a))%Q.
Proof.
  intros HE. pose proof (rne_nearest (a / E) j) as H.
  assert (Hscale : ∀ c : Q, (c * E - a == (c - a / E) * E)%Q)
    by (intros c; field; lra).
  rewrite !Hscale, !Qabs_Qmult. rewrite (Qabs_pos E) by lra.
  apply Qmult_le_compat_r; [done|lra].
Qed.


Section Format.
Variable F : format.
Hypothesis prec_pos : 0 < prec F.

Lemma representable_opp y : representable F y → representable F (- y).
Proof.
  intros (m & e & Hy & Hm & He). exists (- m), e.
  split; [|split; [lia|done]].
  rewrite Hy, inject_Z_opp. ring.
Qed.

Lemma representable_0 : representable F 0.
Proof.
  exists 0, (emin F). split; [|split; [|done]].
  - cbn. ring.
  - cbn. apply Z.lt_le_incl, Z.pow_pos_nonneg; lia.
Qed.

Lemma magnitude_nonneg a : (0 < a)%Q → (0 <= magnitude F a)%Q.
Proof.
  intros Ha. unfold magnitude.
  pose proof (pow2_pos (exponent F a)) as HE.
  apply Qmult_le_0_compat; [|lra].
  rewrite <- (Zle_Qle 0).
  etrans; [|apply rne_bounds].
  change 0 with (Qfloor 0). apply Qfloor_resp_le.
  apply Qlt_le_weak, Qlt_shift_div_l; lra.
Qed.

(** The magnitude is a nearest number of the format, among the
    nonnegative ones. *)
Lemma magnitude_closest_nonneg a y :
  (0 < a)%Q → (0 <= y)%Q → representable F y →
  (Qabs (magnitude F a - a) <= Qabs (y - a))%Q.
Proof.
  intros Ha Hy0 (m & ey & Hy & Hm & Hey).
  pose proof (ilog2_spec a Ha) as [Hlo _].
  unfold magnitude. set (e := exponent F a).
  pose proof (pow2_pos e) as HE.
  destruct (Z_le_gt_dec e ey) as [Hcase|Hcase].
  - (* [y] is on the grid of [a] *)
    assert (Hgrid : (y == inject_Z (m * 2 ^ (ey - e)) * pow2 e)%Q).
    { rewrite Hy, inject_Z_mult, <- pow2_inject by lia.
      rewrite <- Qmult_assoc, <- pow2_add.
      by replace (ey - e + e) with ey by lia. }
    rewrite Hgrid. by apply nearest_grid.
  - (* [y] is below the binade of [a] *)
    assert (He : e = ilog2 a - prec F + 1) by (unfold e, exponent in *; lia).
    assert (Hk : (pow2 (ilog2 a) == inject_Z (2 ^ (prec F - 1)) * pow2 e)%Q).
    { rewrite <- pow2_inject, <- pow2_add by lia. f_equiv. lia. }
    assert (Hbelow : (y <= pow2 (ilog2 a))%Q).
    { assert (Hm' : (inject_Z m <= pow2 (prec F))%Q).
      { rewrite pow2_inject, <- Zle_Qle by lia. lia. }
      assert (Hey' : (pow2 ey <= pow2 (e - 1))%Q) by (apply pow2_le; lia).
      assert (Hsum : (pow2 (ilog2 a) == pow2 (prec F) * pow2 (e - 1))%Q).
      { rewrite <- pow2_add. f_equiv. lia. }
      pose proof (pow2_pos ey). pose proof (pow2_pos (prec F)).
      rewrite Hy, Hsum. 
      apply Qle_trans with (pow2 (prec F) * pow2 ey)%Q.
      - apply Qmult_le_compat_r; lra.
      - apply Qmult_le_l; lra. }
    pose proof (nearest_grid (pow2 e) a (2 ^ (prec F - 1)) HE) as Hnear.
    rewrite <- Hk in Hnear.
    eapply Qle_trans; [exact Hnear|].
    apply Qabs_case; intros; apply Qabs_case; intros; lra.
Qed.

Lemma magnitude_closest a y :
  (0 < a)%Q → representable F y →
  (Qabs (magnitude F a - a) <= Qabs (y - a))%Q.
Proof.
  intros Ha Hy. destruct (Qlt_le_dec y 0) as [Hneg|Hpos].
  - eapply Qle_trans.
    + apply (magnitude_closest_nonneg a (- y)); [done|lra|by apply representable_opp].
    + apply Qabs_case; intros; apply Qabs_case; intros; lra.
  - by apply magnitude_closest_nonneg.
Qed.

(** Rounding gives a nearest number of the format. *)
Lemma nearest_closest x y :
  representable F y → (Qabs (nearest F x - x) <= Qabs (y - x))%Q.
Proof.
  intros Hy. unfold nearest.
  destruct (Qeq_bool x 0) eqn:H0.
  - apply Qeq_bool_iff in H0. rewrite H0.
    apply Qabs_case; intros; apply Qabs_case; intros; lra.
  - assert (Hx : ¬ (x == 0)%Q) by (intros ?%Qeq_bool_iff; congruence).
    destruct (Qle_bool 0 x) eqn:Hs.
    + apply Qle_bool_iff in Hs. apply magnitude_closest; [|done]. 
      destruct (Qlt_le_dec 0 x); [done|]. destruct Hx. lra.
    + assert (Hlt : (x < 0)%Q).
      { apply Qnot_le_lt. intros ?%Qle_bool_iff. congruence. }
      pose proof (magnitude_closest (- x) (- y)) as H.
      specialize (H ltac:(lra) (representable_opp _ Hy)).
      revert H. 
      apply Qabs_case; intros ?; apply Qabs_case; intros ?;
        apply Qabs_case; intros ?; apply Qabs_case; intros ?; lra.
Qed.

Lemma magnitude_representable a : (0 < a)%Q → representable F (magnitude F a).
Proof.
  intros Ha. pose proof (ilog2_spec a Ha) as [_ Hhi].
  unfold magnitude. set (e := exponent F a).
  pose proof (pow2_pos e) as HE.
  exists (rne (a / pow2 e)), e. split; [done|]. split; [|unfold e, exponent; lia].
  assert (Hq : (a / pow2 e < pow2 (prec F))%Q).
  { apply Qlt_shift_div_r; [done|]. rewrite <- pow2_add.
    eapply Qlt_le_trans; [exact Hhi|]. apply pow2_le. unfold e, exponent. lia. }
  assert (Hq0 : (0 <= a / pow2 e)%Q).
  { apply Qlt_le_weak, Qlt_shift_div_l; lra. }
  pose proof (rne_bounds (a / pow2 e)) as [Hlo Hup].
  pose proof (Qfloor_resp_le _ _ Hq0) as Hf0. change (Qfloor 0) with 0 in Hf0.
  assert (Hf : Qfloor (a / pow2 e) < 2 ^ prec F).
  { rewrite Zlt_Qlt. eapply Qle_lt_trans; [apply Qfloor_le|].
    by rewrite <- pow2_inject by lia. }
  lia.
Qed.

Lemma nearest_representable x : representable F (nearest F x).
Proof.
  unfold nearest. destruct (Qeq_bool x 0) eqn:H0; [apply representable_0|].
  assert (Hx : ¬ (x == 0)%Q) by (intros ?%Qeq_bool_iff; congruence).
  destruct (Qle_bool 0 x) eqn:Hs.
  - apply Qle_bool_iff in Hs. apply magnitude_representable.
    destruct (Qlt_le_dec 0 x); [done|]. destruct Hx. lra.
  - assert (Hlt : (x < 0)%Q).
    { apply Qnot_le_lt. intros ?%Qle_bool_iff. congruence. }
    apply representable_opp, magnitude_representable. lra.
Qed.

(** Rounding does not leave the range between zero and a number of the
    format. *)
Lemma nearest_bounded x y :
  representable F y → (Qabs x <= y)%Q → (Qabs (nearest F x) <= y)%Q.
Proof.
  intros Hy Hxy.
  pose proof (nearest_closest x y Hy) as Hpos.
  pose proof (nearest_closest x (- y) (representable_opp _ Hy)) as Hneg.
  revert Hxy Hpos Hneg.
  apply Qabs_case; intros ?; apply Qabs_case; intros ?;
    apply Qabs_case; intros ?; apply Qabs_case; intros ?;
    apply Qabs_case; intros ?; lra.
Qed.






Lemma round_finite x y :
  representable F y → (Qabs x <= y)%Q → (y < pow2 (emax F + 1))%Q →
  round F x = Finite (Q2Qc (nearest F x)).
Proof.
  intros Hy Hxy Hmax. unfold round.
  pose proof (nearest_bounded x y Hy Hxy) as Hb.
  destruct (Qle_bool _ _) eqn:Htest; [|done].
  apply Qle_bool_iff in Htest. lra.
Qed.

Lemma round_closest x y z :
  round F x = Finite z → representable F y →
  (Qabs (this z - x) <= Qabs (y - x))%Q.
Proof.
  unfold round. destruct (Qle_bool _ _); [done|]. intros [= <-] Hy.
  cbn [this Q2Qc]. rewrite Qred_correct. by apply nearest_closest.
Qed.

Lemma round_representable x z : round F x = Finite z → representable F (this z).
Proof.
  unfold round. destruct (Qle_bool _ _); [done|]. intros [= <-].
  destruct (nearest_representable x) as (m & e & Hv & Hm & He).
  exists m, e. split; [|done]. cbn [this Q2Qc]. by rewrite Qred_correct.
Qed.

Lemma in_format_representable x : in_format F x = true → representable F (this x).
Proof.
  unfold in_format. destruct (round F (this x)) as [y| |] eqn:Hr; [|done..].
  intros Heq%Qeq_bool_iff.
  destruct (round_representable _ _ Hr) as (m & e & Hv & Hm & He).
  exists m, e. split; [|done]. by rewrite <- Heq.
Qed.



End Format.


Lemma same_float_eq f g : same_float f g = true → f = g.
Proof.
  destruct f as [x| |a], g as [y| |b]; try done; cbn.
  - intros H%Qeq_bool_iff. f_equal. by apply Qc_is_canon.
  - by intros ->%bool_decide_eq_true_1.
Qed.


End FloatFacts.

Module JsFacts.
Import Js FloatFacts.

#[local] Arguments String.append !_ _.

(** ** Strings *)

Lemma app_assoc (a b c : string) : (a +:+ b) +:+ c = a +:+ (b +:+ c).
Proof. induction a as [|x a IH]; [done|]. cbn. by rewrite IH. Qed.

Lemma length_app (a b : string) :
  String.length (a +:+ b) = (String.length a + String.length b)%nat.
Proof. induction a as [|x a IH]; [done|]. cbn. by rewrite IH. Qed.





(** ** Reading digits *)















(** ** [toFixed] *)













End JsFacts.

Module EntityFacts.
Import Js Entity.

Lemma no_zero_entry_create : no_zero_entry create.
Proof. apply map_Forall_empty. Qed.

Lemma no_zero_entry_clearInput e : no_zero_entry (clearInput e).
Proof. apply map_Forall_empty. Qed.

Lemma no_zero_entry_setAction a v e :
  no_zero_entry e → no_zero_entry (setAction a v e).
Proof.
  unfold no_zero_entry, setAction. intros Hinv.
  destruct (truthy_num _ && strict_eq_num _ _); [exact Hinv|].
  cbn. case_bool_decide as Hv.
  - by apply map_Forall_insert_2.
  - by apply map_Forall_delete.
Qed.

Lemma no_zero_entry_step e o : no_zero_entry e → no_zero_entry (step e o).
Proof.
  destruct o; cbn; auto using no_zero_entry_setAction, no_zero_entry_clearInput.
Qed.

Lemma no_zero_entry_run ops : ∀ e, no_zero_entry e → no_zero_entry (run ops e).
Proof.
  induction ops as [|o ops IH]; intros e He; [exact He|].
  apply (IH (step e o)), no_zero_entry_step, He.
Qed.

Lemma getForce_absent a e : actions e !! a = None → getForce a e = 0%Qc.
Proof. unfold getForce. by intros ->. Qed.

(** With a zero value the early return of [setAction] is never taken:
    its guard asks for a stored value that is truthy and equal to [0]. *)
Lemma setAction_zero_sends a e :
  sent (setAction a 0%Qc e)
  = sent e ++ [ {| msg_actions := delete a (actions e);
                   msg_mouse := mouseMovement e |} ].
Proof.
  unfold setAction.
  destruct (actions e !! a) as [x|] eqn:Hx; cbn.
  - destruct (decide (x = 0%Qc)) as [->|Hne].
    + by rewrite (bool_decide_eq_true_2 (0%Qc = 0%Qc)).
    + rewrite (bool_decide_eq_false_2 (x = 0%Qc)) by done.
      by rewrite andb_false_r.
  - done.
Qed.

(** Repeating a non-zero [setAction] changes nothing: the second call
    takes the early return. *)
Lemma setAction_repeat_nonzero a v e :
  v ≠ 0%Qc → setAction a v (setAction a v e) = setAction a v e.
Proof.
  intros Hv.
  assert (Hstored : ∀ e', actions e' !! a = Some v → setAction a v e' = e').
  { intros e' Hl. unfold setAction. rewrite Hl. cbn.
    rewrite (bool_decide_eq_false_2 (v = 0%Qc)) by done.
    by rewrite (bool_decide_eq_true_2 (v = v)). }
  apply Hstored.
  unfold setAction at 1.
  destruct (truthy_num (actions e !! a) && strict_eq_num (actions e !! a) v) eqn:Hg.
  - apply andb_true_iff in Hg as [_ Heq]. unfold strict_eq_num in Heq.
    destruct (actions e !! a) as [x|] eqn:Hl; [|done].
    apply bool_decide_eq_true_1 in Heq. by subst.
  - cbn. rewrite bool_decide_eq_true_2 by done. apply lookup_insert_eq.
Qed.

(** C3, at the input where the code departs from it: two successive
    [setAction(a, 0)] calls hand two input messages to [sendInput], also
    when the action is absent (pressure 0) before the first call; the
    second call is not suppressed. *)
Theorem setAction_zero_twice_sends_twice (a : Z) (e : t) :
  length (sent (setAction a 0%Qc (setAction a 0%Qc e))) = S (S (length (sent e))).
Proof.
  rewrite !setAction_zero_sends, !length_app. cbn. lia.
Qed.

(** C9: starting from an action container without zero entries (that of
    a new entity is empty), any sequence of [setAction] and [clearInput]
    calls leaves a container without zero entries, and [getForce] reads
    0 for every action that is absent. *)
Theorem actions_never_hold_zero (e0 : t) (ops : list op) :
  no_zero_entry e0 →
  (∀ a v, actions (run ops e0) !! a = Some v → v ≠ 0%Qc)
  ∧ (∀ a, actions (run ops e0) !! a = None → getForce a (run ops e0) = 0%Qc).
Proof.
  intros H0. split.
  - apply (no_zero_entry_run ops e0 H0).
  - intros a. apply getForce_absent.
Qed.

Lemma actions_never_hold_zero_witness :
  no_zero_entry create
  ∧ (∀ a v, actions (run [SetAction 5 1%Qc; SetAction 7 1%Qc; SetAction 5 0%Qc;
                          ClearInput; SetAction 3 1%Qc] create) !! a = Some v
            → v ≠ 0%Qc)
  ∧ (∀ a, actions (run [SetAction 5 1%Qc; SetAction 7 1%Qc; SetAction 5 0%Qc;
                        ClearInput; SetAction 3 1%Qc] create) !! a = None
          → getForce a (run [SetAction 5 1%Qc; SetAction 7 1%Qc; SetAction 5 0%Qc;
                             ClearInput; SetAction 3 1%Qc] create) = 0%Qc).
Proof.
  split; [apply map_Forall_empty|].
  apply (actions_never_hold_zero create); apply map_Forall_empty.
Defined.

(** ** Physics codec *)





(** What [Number::toString] prints for [2^70], for [10^21] and for the
    largest binary32 number, negated, reads back as the number. *)
Example Number_toString_reads_back :
  same_float (StringToNumber "1.1805916207174113e+21") (Finite (q (2 ^ 70) 1)) = true
  ∧ same_float (StringToNumber "1e+21") (Finite (q (10 ^ 21) 1)) = true
  ∧ same_float (StringToNumber "-3.4028234663852886e+38")
      (Finite (q (- (2 ^ 128 - 2 ^ 104)) 1)) = true.
Proof. by vm_compute. Qed.

(** The snapshot of a sample body: the strings of the scalars, and what
    the strings of the vector components leave in a [Float32Array]
    (-0.1235 and 0.6667 are no binary32 numbers). *)
Example serializePhysics_sample :
  serializePhysics no_exponent_form
    (with_body (numeric_body (q 5461 16384) (0%Qc, 0%Qc) (q (-2023) 16384, 1%Qc)
                  (q 7 8, q (-10923) 16384) (q 3217 1024)) create)
  = Ok (VArr [VArr [VStr "0.3333"];
              VF32 [Finite (q (-16575889) 134217728); Finite 1%Qc];
              VF32 [Finite (q 7 8); Finite (q (-5592685) 8388608)];
              VArr [VStr "3.1416"]]).
Proof.
  cbn. repeat (first [by apply Qc_is_canon | by apply FloatFacts.same_float_eq
                           | progress f_equal]).
Qed.

End EntityFacts.

Module ControlsFacts.
Import Js Controls.

(** ** Keys of the raw frame *)

Lemma axis_key_inj i j : axis_key i = axis_key j → i = j.
Proof. unfold axis_key. intros H. by simplify_eq. Qed.

Lemma button_key_inj i j : button_key i = button_key j → i = j.
Proof. unfold button_key. intros H. by simplify_eq. Qed.

Lemma axis_key_not_button i j : button_key j ≠ axis_key i.
Proof. unfold axis_key, button_key. cbv [String.append]. discriminate. Qed.

Lemma assign_all_other key f vals : ∀ i input k,
  (∀ j, key j ≠ k) → assign_all key f i vals input !! k = input !! k.
Proof.
  induction vals as [|val vals IH]; intros i input k Hk; [done|].
  cbn. rewrite IH by done. by rewrite lookup_insert_ne.
Qed.

Lemma assign_all_before key f vals : ∀ i input j,
  (∀ a b, key a = key b → a = b) → (j < i)%nat →
  assign_all key f i vals input !! key j = input !! key j.
Proof.
  induction vals as [|val vals IH]; intros i input j Hinj Hj; [done|].
  cbn. rewrite IH by (done || lia).
  rewrite lookup_insert_ne; [done|]. intros ?%Hinj. lia.
Qed.

Lemma assign_all_at key f vals : ∀ i input j,
  (∀ a b, key a = key b → a = b) → (j < length vals)%nat →
  assign_all key f i vals input !! key (i + j)%nat = f <$> vals !! j.
Proof.
  induction vals as [|val vals IH]; intros i input j Hinj Hj; cbn in *; [lia|].
  destruct j as [|j].
  - rewrite Nat.add_0_r, assign_all_before by (done || lia).
    by rewrite lookup_insert_eq.
  - replace (i + S j)%nat with (S i + j)%nat by lia. apply IH; [done|lia].
Qed.

(** The computed value of axis [i]: reversed, and zero for every axis
    unless some axis is out of the deadzone. *)
Lemma raw_frame_axis c controller i val :
  axes controller !! i = Some val →
  raw_frame c controller !! axis_key i
  = Some (if existsb (exceeds_deadzone c) (axes controller) then (- val)%Qc else 0%Qc).
Proof.
  intros Hi. unfold raw_frame.
  rewrite assign_all_other by (intros j; apply axis_key_not_button).
  rewrite (assign_all_at axis_key _ _ 0 ∅ i axis_key_inj)
    by (by eapply lookup_lt_Some).
  by rewrite Hi.
Qed.

(** The computed value of button [i]: clamped to zero in the deadzone. *)
Lemma raw_frame_button c controller i val :
  buttons controller !! i = Some val →
  raw_frame c controller !! button_key i
  = Some (if exceeds_deadzone c val then val else 0%Qc).
Proof.
  intros Hi. unfold raw_frame.
  rewrite (assign_all_at button_key _ _ 0 _ i button_key_inj)
    by (by eapply lookup_lt_Some).
  by rewrite Hi.
Qed.

(** ** The emitted input *)

Lemma previousHadValue_true c key :
  previousHadValue c key = true
  ↔ ∃ w, previousInput c !! key = Some w ∧ w ≠ 0%Qc.
Proof.
  unfold previousHadValue, truthy_num, strict_eq_num.
  destruct (previousInput c !! key) as [w|]; cbn.
  - destruct (decide (w = 0%Qc)) as [->|Hw].
    + rewrite (bool_decide_eq_true_2 (0%Qc = 0%Qc)) by done. cbn.
      split; [done|]. intros (w & [= <-] & Hw). done.
    + rewrite (bool_decide_eq_false_2 (w = 0%Qc)) by done. cbn.
      split; [eauto|done].
  - split; [done|]. by intros (w & ? & _).
Qed.

Lemma emitted_lookup controller c key v :
  (getRawControllerInput controller c).2 !! key = Some v
  ↔ hasController c = true
    ∧ raw_frame c controller !! key = Some v
    ∧ (v = 0%Qc → previousHadValue c key = true).
Proof.
  unfold getRawControllerInput. cbn. destruct (hasController c).
  - rewrite map_lookup_filter_Some. unfold stays. cbn.
    split.
    + intros [Hraw Hst]. repeat split; [done|]. intros Hv.
      destruct (previousHadValue c key); [done|]. by destruct Hst.
    + intros (_ & Hraw & Hst). split; [done|]. intros [Hv Hp].
      rewrite Hst in Hp by done. done.
  - rewrite lookup_empty. split; [done|]. by intros [? _].
Qed.

Lemma within_deadzone c vals :
  Forall (λ val, (Qcabs val ≤ movementDeadzone c)%Qc) vals →
  existsb (exceeds_deadzone c) vals = false.
Proof.
  induction 1 as [|val vals Hval _ IH]; [done|].
  cbn. rewrite IH, orb_false_r. unfold exceeds_deadzone.
  apply bool_decide_eq_false_2. by apply Qcle_not_lt.
Qed.

(** ** Two consecutive ticks *)

(** C4: over two consecutive polling ticks with a connected controller,
    a key whose computed value is 0 on the second tick is absent from the
    second tick's input when its computed value was 0 on the first tick
    as well, and is emitted (once, input being a map) with value 0 when
    its computed value on the first tick was not 0. *)
Theorem zero_emitted_only_on_transition
    (c : t) (pad1 pad2 : Gamepad) (key : string) (v1 : number) :
  hasController c = true →
  raw_frame c pad1 !! key = Some v1 →
  raw_frame (getRawControllerInput pad1 c).1 pad2 !! key = Some 0%Qc →
  (getRawControllerInput pad2 (getRawControllerInput pad1 c).1).2 !! key
  = if bool_decide (v1 = 0%Qc) then None else Some 0%Qc.
Proof.
  intros Hc Hraw1 Hraw2.
  set (c1 := (getRawControllerInput pad1 c).1) in *.
  assert (Hc1 : hasController c1 = true) by exact Hc.
  assert (Hprev : previousInput c1 = (getRawControllerInput pad1 c).2) by done.
  case_bool_decide as Hv1.
  - subst v1.
    assert (Hnot : previousHadValue c1 key = false).
    { apply not_true_is_false. intros (w & Hw & Hne)%previousHadValue_true.
      rewrite Hprev in Hw. apply emitted_lookup in Hw as (_ & Hw & _).
      congruence. }
    destruct ((getRawControllerInput pad2 c1).2 !! key) as [v|] eqn:Hout; [|done].
    apply emitted_lookup in Hout as (_ & Hv & Hst).
    assert (v = 0%Qc) as -> by congruence.
    rewrite Hst in Hnot by done. done.
  - apply emitted_lookup. repeat split; [done..|]. intros _.
    apply previousHadValue_true. exists v1. split; [|done].
    rewrite Hprev. apply emitted_lookup. repeat split; done.
Qed.

Lemma zero_emitted_only_on_transition_witness :
  let c := startPollingController (create (q 15 100)) in
  let pad1 := {| axes := []; buttons := [q 6 10; 0%Qc] |} in
  let pad2 := {| axes := []; buttons := [0%Qc; 0%Qc] |} in
  (getRawControllerInput pad2 (getRawControllerInput pad1 c).1).2 !! button_key 0
  = Some 0%Qc
  ∧ (getRawControllerInput pad2 (getRawControllerInput pad1 c).1).2 !! button_key 1
    = None.
Proof.
  intros c pad1 pad2. split.
  - apply (zero_emitted_only_on_transition c pad1 pad2 (button_key 0) (q 6 10));
      vm_compute; reflexivity.
  - apply (zero_emitted_only_on_transition c pad1 pad2 (button_key 1) 0%Qc);
      vm_compute; reflexivity.
Defined.

(** C5 as stated fails: with the deadzone at 0.15, a tick whose only axis
    reads 0.1 (within the deadzone) right after a tick where it read 0.6
    emits an entry for that axis, with value 0. *)
Lemma deadzone_tick_emits_axis_entry :
  let c := startPollingController (create (q 15 100)) in
  let c1 := (getRawControllerInput {| axes := [q 6 10]; buttons := [] |} c).1 in
  let pad := {| axes := [q 1 10]; buttons := [] |} in
  Forall (λ val, (Qcabs val ≤ movementDeadzone c1)%Qc) (axes pad)
  ∧ (getRawControllerInput pad c1).2 !! axis_key 0 = Some 0%Qc.
Proof.
  intros c c1 pad. split.
  - repeat constructor. vm_compute. discriminate.
  - vm_compute. reflexivity.
Qed.

(** C5, amended: in a tick where every axis magnitude is within the
    deadzone, the emitted input holds no axis entry with a non-zero
    value; an axis entry is emitted only with value 0, and only for an
    axis whose entry in the previous input was non-zero. *)
Theorem deadzone_axes_emit_only_zero_edges
    (c : t) (pad : Gamepad) (i : nat) (v : number) :
  Forall (λ val, (Qcabs val ≤ movementDeadzone c)%Qc) (axes pad) →
  (getRawControllerInput pad c).2 !! axis_key i = Some v →
  v = 0%Qc ∧ ∃ w, previousInput c !! axis_key i = Some w ∧ w ≠ 0%Qc.
Proof.
  intros Hdz (_ & Hraw & Hst)%emitted_lookup.
  assert (v = 0%Qc) as ->.
  { destruct (axes pad !! i) as [val|] eqn:Hi.
    - rewrite (raw_frame_axis _ _ _ _ Hi), within_deadzone in Hraw by done.
      congruence.
    - unfold raw_frame in Hraw.
      rewrite assign_all_other in Hraw by (intros j; apply axis_key_not_button).
      apply lookup_ge_None in Hi.
      exfalso. revert Hraw. generalize (axes pad) Hi.
      intros vals Hlen.
      assert (Hgen : ∀ vals k input f, (k + length vals ≤ i)%nat →
                assign_all axis_key f k vals input !! axis_key i
                = input !! axis_key i).
      { clear. induction vals as [|x vals IH]; intros k input f Hk; [done|].
        cbn in *. rewrite IH by lia. rewrite lookup_insert_ne; [done|].
        intros ?%axis_key_inj. lia. }
      rewrite Hgen by (cbn; lia). by rewrite lookup_empty. }
  split; [done|]. apply previousHadValue_true. by apply Hst.
Qed.

Lemma deadzone_axes_emit_only_zero_edges_witness :
  let c := startPollingController (create (q 15 100)) in
  let c1 := (getRawControllerInput {| axes := [q 6 10]; buttons := [] |} c).1 in
  0%Qc = 0%Qc ∧ ∃ w, previousInput c1 !! axis_key 0 = Some w ∧ w ≠ 0%Qc.
Proof.
  intros c c1.
  apply (deadzone_axes_emit_only_zero_edges c1
           {| axes := [q 1 10]; buttons := [] |} 0 0%Qc).
  - repeat constructor. vm_compute. discriminate.
  - vm_compute. reflexivity.
Defined.

(** ** Registration *)

(** C8, at the inputs where the code departs from it: an entity without
    an action container is reported on the console and registered all the
    same, and a missing entity is reported and then ends the call with a
    [TypeError]. *)
Theorem registerEntity_reports_but_does_not_skip (c : t) (id : string) :
  let entity := {| uuid := id; obj_actions := None |} in
  registeredEntities (registerEntity (Some entity) c).1 !! id = Some entity
  ∧ console (registerEntity (Some entity) c).1
    = console c ++ ["Must pass in an entity"]
  ∧ (registerEntity (Some entity) c).2 = Ok ()
  ∧ console (registerEntity None c).1 = console c ++ ["Must pass in an entity"]
  ∧ (registerEntity None c).2 = Throw TypeError.
Proof.
  cbn. by rewrite lookup_insert_eq.
Qed.

End ControlsFacts.

Module NetworkFacts.
Import Js Network.

(** ** What a step keeps *)

Lemma emitAndAwaitResponse_pending e d r n :
  pendingResponses n ⊆ pendingResponses (emitAndAwaitResponse e d r n).1.
Proof.
  unfold emitAndAwaitResponse. destruct (socket n); [|done].
  destruct (_ || _); cbn; set_solver.
Qed.

Lemma waitForMessage_pending e n :
  pendingResponses n ⊆ pendingResponses (waitForMessage e n).1.
Proof.
  unfold waitForMessage. destruct (socket n); [|done].
  case_bool_decide; cbn; set_solver.
Qed.

Lemma step_pending n o : pendingResponses n ⊆ pendingResponses (step n o).
Proof.
  destruct o; cbn.
  - unfold createSocketConnection, openSocket. by destruct (socket n).
  - done.
  - apply emitAndAwaitResponse_pending.
  - apply waitForMessage_pending.
  - unfold receive. by destruct (socket n).
  - unfold openSocket. by destruct (socket n).
Qed.

Lemma run_pending ops : ∀ n, pendingResponses n ⊆ pendingResponses (run ops n).
Proof.
  induction ops as [|o ops IH]; intros n; [done|].
  cbn. etrans; [apply (step_pending n o)|apply IH].
Qed.

Lemma step_socket n o : is_Some (socket n) → is_Some (socket (step n o)).
Proof.
  intros [sock Hs]. destruct o; cbn.
  - unfold createSocketConnection, openSocket. rewrite Hs. by rewrite Hs.
  - cbn. by rewrite Hs.
  - unfold emitAndAwaitResponse. rewrite Hs.
    destruct (_ || _); cbn; [by rewrite Hs|done].
  - unfold waitForMessage. rewrite Hs.
    case_bool_decide; cbn; [by rewrite Hs|done].
  - unfold receive. rewrite Hs. done.
  - unfold openSocket. rewrite Hs. by rewrite Hs.
Qed.

Lemma run_socket ops : ∀ n, is_Some (socket n) → is_Some (socket (run ops n)).
Proof.
  induction ops as [|o ops IH]; intros n Hn; [done|].
  cbn. by apply IH, step_socket.
Qed.

(** A call that is left pending has installed its endpoint in the
    registry, on a session with a socket. *)
Lemma emitAndAwaitResponse_issued e d r n p :
  (emitAndAwaitResponse e d r n).2 = Pending p →
  is_Some (socket (emitAndAwaitResponse e d r n).1)
  ∧ e ∈ pendingResponses (emitAndAwaitResponse e d r n).1
  ∧ response_endpoint e r ∈ pendingResponses (emitAndAwaitResponse e d r n).1.
Proof.
  unfold emitAndAwaitResponse. destruct (socket n); [|done].
  destruct (_ || _); [done|]. cbn. intros _.
  split; [done|]. set_solver.
Qed.

Lemma emitAndAwaitResponse_installed e d r n :
  is_Some (socket n) → e ∈ pendingResponses n →
  emitAndAwaitResponse e d r n = (n, Rejected "Listener already installed.").
Proof.
  intros [sock Hs] He. unfold emitAndAwaitResponse. rewrite Hs.
  by rewrite (bool_decide_eq_true_2 (e ∈ pendingResponses n)).
Qed.

Lemma waitForMessage_installed e n :
  is_Some (socket n) → e ∈ pendingResponses n →
  waitForMessage e n = (n, Rejected "Listener already installed.").
Proof.
  intros [sock Hs] He. unfold waitForMessage. rewrite Hs.
  by rewrite (bool_decide_eq_true_2 (e ∈ pendingResponses n)).
Qed.

(** ** Promise identifiers stay fresh *)

Lemma foldl_resolve_other data ps : ∀ settled p,
  p ∉ ps → foldl (resolve data) settled ps !! p = settled !! p.
Proof.
  induction ps as [|p' ps IH]; intros settled p Hp; [done|].
  cbn. rewrite IH by set_solver. unfold resolve.
  destruct (settled !! p'); [done|].
  rewrite lookup_insert_ne; [done|set_solver].
Qed.

Lemma foldl_resolve_is_Some data ps : ∀ settled p,
  is_Some (foldl (resolve data) settled ps !! p) →
  is_Some (settled !! p) ∨ p ∈ ps.
Proof.
  induction ps as [|p' ps IH]; intros settled p Hp; [by left|].
  cbn in Hp. apply IH in Hp as [Hp|Hp]; [|set_solver].
  unfold resolve in Hp. destruct (settled !! p') eqn:Hp'; [by left|].
  destruct (decide (p' = p)) as [->|Hne]; [set_solver|].
  rewrite lookup_insert_ne in Hp by done. by left.
Qed.

Lemma wf_create host port : wf (create host port).
Proof.
  split.
  - intros p [x Hx]. cbn in Hx. by rewrite lookup_empty in Hx.
  - intros sock ev ps p Hs. done.
Qed.

Lemma wf_install (n : t) (pending : gset string) (sock sock' : Socket) :
  wf n → socket n = Some sock →
  (∀ ev' ps, listeners sock' !! ev' = Some ps →
     ps = [nextPromise n] ∨ listeners sock !! ev' = Some ps) →
  wf {| path := path n; token := token n; cleared := cleared n;
        pendingResponses := pending; socket := Some sock';
        resolved := resolved n; nextPromise := S (nextPromise n) |}.
Proof.
  intros [Hres Hlis] Hs Hnew. split; cbn.
  - intros p Hp. apply Hres in Hp. lia.
  - intros ? ev' ps p [= <-] Hev Hp.
    destruct (Hnew _ _ Hev) as [->|Hold].
    + apply list_elem_of_singleton in Hp as ->. lia.
    + specialize (Hlis _ _ _ _ Hs Hold Hp). lia.
Qed.

Lemma once_after_remove_lookup ev p sock ev' ps :
  listeners (once ev p (removeAllListeners ev sock)) !! ev' = Some ps →
  (ev' = ev ∧ ps = [p]) ∨ (ev' ≠ ev ∧ listeners sock !! ev' = Some ps).
Proof.
  cbn. rewrite lookup_delete_eq. cbn.
  destruct (decide (ev = ev')) as [->|Hne].
  - rewrite lookup_insert_eq. intros [= <-]. by left.
  - rewrite lookup_insert_ne, lookup_delete_ne by done. by right.
Qed.

Lemma wf_emitAndAwaitResponse e d r n : wf n → wf (emitAndAwaitResponse e d r n).1.
Proof.
  intros Hwf. unfold emitAndAwaitResponse.
  destruct (socket n) as [sock|] eqn:Hs; [|done].
  destruct (_ || _); [done|]. cbn.
  eapply (wf_install n _ sock); [done..|].
  intros ev' ps [[-> ->]|[Hne Hold]]%once_after_remove_lookup; [by left|].
  right. cbn in Hold.
  destruct (decide (e = ev')) as [->|Hne'].
  - by rewrite lookup_delete_eq in Hold.
  - by rewrite lookup_delete_ne in Hold.
Qed.

Lemma wf_waitForMessage e n : wf n → wf (waitForMessage e n).1.
Proof.
  intros Hwf. unfold waitForMessage.
  destruct (socket n) as [sock|] eqn:Hs; [|done].
  case_bool_decide; [done|]. cbn.
  eapply (wf_install n _ sock); [done..|].
  intros ev' ps [[-> ->]|[Hne Hold]]%once_after_remove_lookup; [by left|by right].
Qed.

Lemma wf_openSocket required n : wf n → wf (openSocket required n).
Proof.
  intros Hwf. unfold openSocket. destruct (socket n) eqn:Hs; [done|].
  destruct Hwf as [Hres _]. split; [done|].
  intros ? ev ps p [= <-]. cbn. by rewrite lookup_empty.
Qed.

Lemma wf_step n o : wf n → wf (step n o).
Proof.
  intros Hwf. destruct o; cbn.
  - by apply wf_openSocket.
  - destruct Hwf as [Hres Hlis]. split; [done|]. exact Hlis.
  - by apply wf_emitAndAwaitResponse.
  - by apply wf_waitForMessage.
  - unfold receive. destruct (socket n) as [sock|] eqn:Hs; [|done].
    destruct Hwf as [Hres Hlis]. split; cbn.
    + intros p [Hp|Hp]%foldl_resolve_is_Some; [by apply Hres|].
      destruct (listeners sock !! event) as [ps|] eqn:Hev; [|set_solver].
      by eapply Hlis.
    + intros ? ev ps p [= <-]. cbn. intros Hev Hp.
      apply lookup_delete_Some in Hev as [_ Hev]. by eapply Hlis.
  - by apply wf_openSocket.
Qed.

Lemma wf_run ops : ∀ n, wf n → wf (run ops n).
Proof.
  induction ops as [|o ops IH]; intros n Hn; [done|].
  cbn. by apply IH, wf_step.
Qed.

(** ** A pending call keeps its listener until the response arrives *)

Lemma awaiting_issued e d r n p :
  wf n → (emitAndAwaitResponse e d r n).2 = Pending p →
  awaiting (response_endpoint e r) p (emitAndAwaitResponse e d r n).1.
Proof.
  intros [Hres Hlis]. unfold emitAndAwaitResponse.
  destruct (socket n) as [sock|] eqn:Hs; [|done].
  destruct (_ || _); [done|]. cbn. intros [= <-].
  eexists. split; [done|]. cbn. rewrite lookup_delete_eq, lookup_insert_eq.
  repeat split; [set_solver| |lia|].
  - destruct (resolved n !! nextPromise n) eqn:Hp; [|done].
    assert (nextPromise n < nextPromise n)%nat by (apply Hres; eauto). lia.
  - intros ev' ps Hev Hp.
    destruct (decide (response_endpoint e r = ev')) as [<-|Hne]; [done|].
    rewrite lookup_insert_ne in Hev by done.
    apply lookup_delete_Some in Hev as [_ Hev].
    apply lookup_delete_Some in Hev as [_ Hev].
    assert (nextPromise n < nextPromise n)%nat by (by eapply Hlis). lia.
Qed.

Lemma awaiting_install (n : t) (pending : gset string) (sock : Socket)
    (ev ev1 : string) (p : nat) (L : gmap string (list nat))
    (H : gmap string (list handler)) (sent : list (string * value)) :
  awaiting ev p n → socket n = Some sock →
  pendingResponses n ⊆ pending → ev1 ≠ ev →
  (∀ ev' ps, L !! ev' = Some ps → listeners sock !! ev' = Some ps) →
  L !! ev = listeners sock !! ev →
  awaiting ev p
    {| path := path n; token := token n; cleared := cleared n;
       pendingResponses := pending;
       socket := Some {| listeners := <[ev1 := [nextPromise n]]> L; handlers := H;
                         emitted := sent |};
       resolved := resolved n; nextPromise := S (nextPromise n) |}.
Proof.
  intros (sock' & Hs' & Hev & Hpend & Hres & Hlt & Honly) Hs Hsub Hne HL HLev.
  assert (sock' = sock) as -> by congruence.
  eexists. split; [done|]. cbn.
  rewrite lookup_insert_ne, HLev by done.
  repeat split; [done|set_solver|done|lia|].
  intros ev' ps Hev' Hp.
  destruct (decide (ev1 = ev')) as [<-|Hne'].
  - rewrite lookup_insert_eq in Hev'. injection Hev' as <-.
    apply list_elem_of_singleton in Hp. lia.
  - rewrite lookup_insert_ne in Hev' by done. eauto.
Qed.

Lemma awaiting_step ev p n o :
  awaiting ev p n → no_message_on ev [o] = true → awaiting ev p (step n o).
Proof.
  intros Haw Ho.
  pose proof Haw as (sock & Hs & Hev & Hpend & Hres & Hlt & Honly).
  destruct o as [| |e d r|e|ev' d|]; cbn.
  - unfold createSocketConnection, openSocket. by rewrite Hs.
  - exists sock. done.
  - unfold emitAndAwaitResponse. rewrite Hs.
    destruct (_ || _) eqn:Hin; [done|].
    apply orb_false_iff in Hin as [He Hr].
    apply bool_decide_eq_false_1 in He, Hr.
    unfold emit, once, removeAllListeners. cbn.
    rewrite lookup_delete_eq. cbn.
    apply (awaiting_install n _ sock ev); [done|done| | | |].
    + set_solver.
    + congruence.
    + intros ev0 ps [_ [_ H]%lookup_delete_Some]%lookup_delete_Some. done.
    + rewrite !lookup_delete_ne by congruence. done.
  - unfold waitForMessage. rewrite Hs.
    case_bool_decide as He; [done|].
    unfold once, removeAllListeners. cbn.
    rewrite lookup_delete_eq. cbn.
    apply (awaiting_install n _ sock ev); [done|done| | | |].
    + set_solver.
    + congruence.
    + intros ev0 ps [_ H]%lookup_delete_Some. done.
    + rewrite !lookup_delete_ne by congruence. done.
  - cbn in Ho. rewrite andb_true_r in Ho.
    apply negb_true_iff, bool_decide_eq_false_1 in Ho.
    unfold receive. rewrite Hs. eexists. split; [done|]. cbn.
    rewrite lookup_delete_ne by done.
    repeat split; [done..| |done|].
    + rewrite foldl_resolve_other; [done|].
      destruct (listeners sock !! ev') as [ps|] eqn:Hev'; [|set_solver].
      intros Hp. apply Ho. by eapply Honly.
    + intros ev0 ps [_ H]%lookup_delete_Some. by apply Honly.
  - unfold openSocket. by rewrite Hs.
Qed.

Lemma awaiting_run ev p ops : ∀ n,
  awaiting ev p n → no_message_on ev ops = true → awaiting ev p (run ops n).
Proof.
  induction ops as [|o ops IH]; intros n Hn Hops; [done|].
  cbn in Hops. apply andb_true_iff in Hops as [Ho Hops].
  cbn. apply IH; [|done]. apply awaiting_step; [done|].
  cbn. by rewrite Ho.
Qed.

Lemma awaiting_receive ev p n data :
  awaiting ev p n → resolved (receive ev data n) !! p = Some data.
Proof.
  intros (sock & Hs & Hev & _ & Hres & _). unfold receive.
  rewrite Hs. cbn. rewrite Hev. cbn. unfold resolve. rewrite Hres.
  apply lookup_insert_eq.
Qed.

(** ** Correlated calls *)

(** C1: on a session reached from a new one by any operations, once
    [emitAndAwaitResponse(e, ...)] has been issued (it is pending) and no
    message has arrived on its response endpoint, a second
    [emitAndAwaitResponse(e, ...)] is rejected on the spot with
    "Listener already installed." and leaves the session as it was; the
    first call's promise is unsettled then, and after the second call it
    resolves with the payload of the response when that arrives. *)
Theorem second_call_rejected_first_unaffected
    (host port : string) (ops0 ops : list op)
    (e : string) (d d' : value) (r r' : option string) (p : nat) (x : value) :
  let n := run ops0 (create host port) in
  (emitAndAwaitResponse e d r n).2 = Pending p →
  no_message_on (response_endpoint e r) ops = true →
  let n2 := run ops (emitAndAwaitResponse e d r n).1 in
  emitAndAwaitResponse e d' r' n2 = (n2, Rejected "Listener already installed.")
  ∧ resolved n2 !! p = None
  ∧ resolved (receive (response_endpoint e r) x
                (emitAndAwaitResponse e d' r' n2).1) !! p = Some x.
Proof.
  intros n Hp Hops n2.
  assert (Hwf : wf n) by apply wf_run, wf_create.
  pose proof (awaiting_issued e d r n p Hwf Hp) as Haw.
  apply (awaiting_run _ _ ops) in Haw; [|done]. fold n2 in Haw.
  destruct (emitAndAwaitResponse_issued e d r n p Hp) as (Hsock & He & _).
  assert (Hrej : emitAndAwaitResponse e d' r' n2
                 = (n2, Rejected "Listener already installed.")).
  { apply emitAndAwaitResponse_installed.
    - by apply run_socket.
    - by apply (run_pending ops). }
  split; [done|]. rewrite Hrej. cbn. split.
  - by destruct Haw as (? & _ & _ & _ & ? & _).
  - by apply awaiting_receive.
Qed.

Lemma second_call_rejected_first_unaffected_witness :
  let n := run [Connect] (create "localhost" "5000") in
  let n2 := run [WaitForMessage "update"; Receive "update" (VNum 1%Qc)]
              (emitAndAwaitResponse "ping" VNull None n).1 in
  emitAndAwaitResponse "ping" (VStr "again") (Some "pong") n2
  = (n2, Rejected "Listener already installed.")
  ∧ resolved n2 !! 0%nat = None
  ∧ resolved (receive (response_endpoint "ping" None) (VStr "ok")
                (emitAndAwaitResponse "ping" (VStr "again") (Some "pong") n2).1)
      !! 0%nat = Some (VStr "ok").
Proof.
  apply (second_call_rejected_first_unaffected "localhost" "5000" [Connect]
           [WaitForMessage "update"; Receive "update" (VNum 1%Qc)]
           "ping" VNull (VStr "again") None (Some "pong") 0 (VStr "ok"));
    vm_compute; reflexivity.
Defined.

(** C6: once [emitAndAwaitResponse(e, ...)] has been issued, its endpoint
    stays in the registry of pending responses whatever happens to the
    session afterwards, the arrival of the response included: every later
    [emitAndAwaitResponse] and [waitForMessage] on [e] is rejected with
    "Listener already installed.". *)
Theorem pending_entry_never_removed
    (n : t) (ops : list op) (e : string) (d d' : value) (r r' : option string)
    (p : nat) :
  (emitAndAwaitResponse e d r n).2 = Pending p →
  let n2 := run ops (emitAndAwaitResponse e d r n).1 in
  e ∈ pendingResponses n2
  ∧ emitAndAwaitResponse e d' r' n2 = (n2, Rejected "Listener already installed.")
  ∧ waitForMessage e n2 = (n2, Rejected "Listener already installed.").
Proof.
  intros Hp n2.
  destruct (emitAndAwaitResponse_issued e d r n p Hp) as (Hsock & He & _).
  assert (is_Some (socket n2)) by by apply run_socket.
  assert (e ∈ pendingResponses n2) by by apply (run_pending ops).
  split; [done|]. split.
  - by apply emitAndAwaitResponse_installed.
  - by apply waitForMessage_installed.
Qed.

Lemma pending_entry_never_removed_witness :
  let n := createSocketConnection (create "localhost" "5000") in
  let n2 := run [Receive "ping" (VStr "pong"); Disconnect; Connect]
              (emitAndAwaitResponse "ping" VNull None n).1 in
  resolved n2 !! 0%nat = Some (VStr "pong")
  ∧ "ping" ∈ pendingResponses n2
  ∧ emitAndAwaitResponse "ping" VNull None n2
    = (n2, Rejected "Listener already installed.")
  ∧ waitForMessage "ping" n2 = (n2, Rejected "Listener already installed.").
Proof.
  intros n n2. split; [vm_compute; reflexivity|].
  apply (pending_entry_never_removed n
           [Receive "ping" (VStr "pong"); Disconnect; Connect]
           "ping" VNull VNull None None 0).
  vm_compute; reflexivity.
Defined.

(** C10: without an installed socket both [emitAndAwaitResponse] and
    [waitForMessage] are rejected on the spot with "No socket installed."
    and the session, its registry of pending responses included, is left
    as it was. *)
Theorem no_socket_rejects_and_keeps_registry
    (n : t) (e : string) (d : value) (r : option string) :
  socket n = None →
  emitAndAwaitResponse e d r n = (n, Rejected "No socket installed.")
  ∧ waitForMessage e n = (n, Rejected "No socket installed.")
  ∧ pendingResponses (emitAndAwaitResponse e d r n).1 = pendingResponses n
  ∧ pendingResponses (waitForMessage e n).1 = pendingResponses n.
Proof.
  intros Hs. unfold emitAndAwaitResponse, waitForMessage. by rewrite Hs.
Qed.

Lemma no_socket_rejects_and_keeps_registry_witness :
  let n := create "localhost" "5000" in
  emitAndAwaitResponse "ping" VNull None n = (n, Rejected "No socket installed.")
  ∧ waitForMessage "ping" n = (n, Rejected "No socket installed.")
  ∧ pendingResponses (emitAndAwaitResponse "ping" VNull None n).1 = pendingResponses n
  ∧ pendingResponses (waitForMessage "ping" n).1 = pendingResponses n.
Proof.
  intros n.
  apply (no_socket_rejects_and_keeps_registry n "ping" VNull None).
  reflexivity.
Defined.

(** ** Plain HTTP calls *)

(** A GET whose response has status 304 and a body that parses is
    rejected, not resolved. *)
Lemma get_request_rejects_304 :
  JSON_parse_sample "{}" = Some (VObj [])
  ∧ (createGetRequest JSON_parse_sample "/stats" (create "localhost" "5000")).2
      LoadEvent {| status := 304; responseText := "{}" |}
    = RejectedWith (Error VUndef).
Proof. split; vm_compute; reflexivity. Qed.

(** C7, with the input where the code departs from it: when the response
    has loaded with status 304 and a body that parses, the GET call is
    rejected, while the POST call resolves with the parsed body: the test
    for 304 sits in [createPostRequest], not in [createGetRequest].
    Everything else is as the claim says: on status 200 every plain call
    resolves with the parsed body, on any status other than 200 and 304
    all three reject, and the rejection carries the error of
    [createError], whose message is the [message] field of the parsed
    body, and the raw body text when the body does not parse. *)
Theorem plain_calls_settle_by_status
    (JSON_parse : string → option value) (JSON_stringify : value → string)
    (p : string) (data : value) (n : t) (req : XMLHttpRequest) :
  let post := (createPostRequest JSON_parse JSON_stringify p data n).2 LoadEvent req in
  let get := (createGetRequest JSON_parse p n).2 LoadEvent req in
  let del := (createDeleteRequest JSON_parse JSON_stringify p data n).2 LoadEvent req in
  let failure := RejectedWith (createError JSON_parse req) in
  (∀ response, JSON_parse (responseText req) = Some response →
     (status req = 200 →
        post = Resolved response ∧ get = Resolved response ∧ del = Resolved response)
     ∧ (status req = 304 → post = Resolved response))
  ∧ (status req = 304 → get = failure ∧ del = failure)
  ∧ (status req ≠ 200 → status req ≠ 304 →
       post = failure ∧ get = failure ∧ del = failure)
  ∧ (∀ fields, JSON_parse (responseText req) = Some (VObj fields) →
       createError JSON_parse req = Error (lookup_field "message" fields))
  ∧ (JSON_parse (responseText req) = None →
       createError JSON_parse req = Error (VStr (responseText req))).
Proof.
  cbn. unfold resolve_parsed, createError.
  split; [|split; [|split; [|split]]].
  - intros response Hparse. rewrite Hparse.
    split; intros ->; cbn; done.
  - intros ->. cbn. done.
  - intros H200%Z.eqb_neq H304%Z.eqb_neq. by rewrite H200, H304.
  - intros fields Hparse. by rewrite Hparse.
  - intros Hparse. by rewrite Hparse.
Qed.

(** A POST whose response has status 304 resolves with the parsed body. *)
Example post_request_resolves_304 :
  (createPostRequest JSON_parse_sample (λ _, "{}") "/login" VNull
     (create "localhost" "5000")).2
    LoadEvent {| status := 304; responseText := "{}" |}
  = Resolved (VObj []).
Proof. vm_compute. reflexivity. Qed.

(** The error of a 404 response whose body carries a message, and of one
    whose body is plain text. *)
Example createError_message :
  createError JSON_parse_sample {| status := 404; responseText := not_found_text |}
  = Error (VStr "Not found")
  ∧ createError JSON_parse_sample {| status := 500; responseText := "Bad gateway" |}
    = Error (VStr "Bad gateway").
Proof. split; vm_compute; reflexivity. Qed.

End NetworkFacts.

Module JsMapFacts.
Section Ordered.
Context {K V : Type} `{EqDecision K}.
Implicit Types (m : list (K * V)) (k : K) (v : V).

Lemma get_set_eq k v m : JsMap.get k (JsMap.set k v m) = Some v.
Proof.
  induction m as [|[k' v'] m IH]; cbn.
  - by rewrite decide_True.
  - destruct (decide (k' = k)) as [->|Hne]; cbn.
    + by rewrite decide_True.
    + by rewrite decide_False.
Qed.

Lemma get_set_ne k k' v m : k ≠ k' → JsMap.get k' (JsMap.set k v m) = JsMap.get k' m.
Proof.
  intros Hne. induction m as [|[k0 v0] m IH]; cbn.
  - by rewrite decide_False.
  - destruct (decide (k0 = k)) as [->|Hne0]; cbn.
    + by rewrite !decide_False.
    + by rewrite IH.
Qed.

Lemma get_delete_eq k m : JsMap.get k (JsMap.delete k m) = None.
Proof.
  unfold JsMap.delete. induction m as [|[k' v'] m IH]; [done|].
  rewrite filter_cons. cbn. destruct (decide (k' ≠ k)) as [Hk|Hk]; [|done].
  cbn. by rewrite decide_False.
Qed.

Lemma get_delete_ne k k' m : k ≠ k' → JsMap.get k' (JsMap.delete k m) = JsMap.get k' m.
Proof.
  intros Hne. unfold JsMap.delete. induction m as [|[k0 v0] m IH]; [done|].
  rewrite filter_cons. cbn. destruct (decide (k0 ≠ k)) as [Hk|Hk]; cbn.
  - by rewrite IH.
  - apply dec_stable in Hk. subst. by rewrite decide_False.
Qed.

Lemma get_None k m : JsMap.get k m = None ↔ k ∉ m.*1.
Proof.
  induction m as [|[k' v'] m IH]; cbn.
  - split; [intros _; apply not_elem_of_nil|done].
  - rewrite not_elem_of_cons. destruct (decide (k' = k)) as [->|Hne].
    + split; [done|]. by intros [? _].
    + rewrite IH. split; [by intros ?; split|by intros [_ ?]].
Qed.

Lemma get_Some_elem k v m : JsMap.get k m = Some v → (k, v) ∈ m.
Proof.
  induction m as [|[k' v'] m IH]; cbn; [done|].
  destruct (decide (k' = k)) as [->|Hne].
  - intros [= ->]. left.
  - intros Hg. right. by apply IH.
Qed.

Lemma elem_get k v m : NoDup m.*1 → (k, v) ∈ m → JsMap.get k m = Some v.
Proof.
  induction m as [|[k' v'] m IH]; cbn; intros Hnd Hin.
  - by apply elem_of_nil in Hin.
  - apply NoDup_cons in Hnd as [Hk' Hnd].
    apply elem_of_cons in Hin as [[= <- <-]|Hin].
    + by rewrite decide_True.
    + rewrite decide_False; [by apply IH|].
      intros ->. apply Hk'. apply list_elem_of_fmap. by exists (k, v).
Qed.

Lemma set_keys k v m :
  (JsMap.set k v m).*1 = if decide (k ∈ m.*1) then m.*1 else m.*1 ++ [k].
Proof.
  induction m as [|[k' v'] m IH]; cbn.
  - rewrite decide_False; [done|apply not_elem_of_nil].
  - destruct (decide (k' = k)) as [->|Hne]; cbn.
    + rewrite decide_True; [done|left].
    + rewrite IH. destruct (decide (k ∈ m.*1)) as [Hin|Hnin].
      * rewrite decide_True; [done|by right].
      * rewrite decide_False; [done|]. rewrite not_elem_of_cons. naive_solver.
Qed.

Lemma set_NoDup k v m : NoDup m.*1 → NoDup (JsMap.set k v m).*1.
Proof.
  intros Hnd. rewrite set_keys. case_decide as Hin; [done|].
  apply NoDup_app. split; [done|]. split.
  - intros x Hx ->%list_elem_of_singleton. done.
  - apply NoDup_singleton.
Qed.

Lemma delete_NoDup k m : NoDup m.*1 → NoDup (JsMap.delete k m).*1.
Proof.
  unfold JsMap.delete. induction m as [|[k' v'] m IH]; [done|].
  rewrite fmap_cons, filter_cons. cbn. intros [Hk' Hnd]%NoDup_cons.
  destruct (decide (k' ≠ k)); [|by apply IH].
  rewrite fmap_cons. cbn. apply NoDup_cons. split; [|by apply IH].
  intros Hin. apply Hk'. apply list_elem_of_fmap in Hin as ([k0 v0] & -> & Hin).
  apply list_elem_of_filter in Hin as [_ Hin].
  apply list_elem_of_fmap. by exists (k0, v0).
Qed.

Lemma elem_of_delete k k' v' m :
  (k', v') ∈ JsMap.delete k m ↔ k' ≠ k ∧ (k', v') ∈ m.
Proof. unfold JsMap.delete. rewrite list_elem_of_filter. done. Qed.

Lemma delete_set_fresh k v m : JsMap.get k m = None → JsMap.delete k (JsMap.set k v m) = m.
Proof.
  unfold JsMap.delete. induction m as [|[k' v'] m IH]; cbn [JsMap.get JsMap.set].
  - intros _. rewrite filter_cons. cbn.
    destruct (decide (k ≠ k)); done.
  - destruct (decide (k' = k)) as [->|Hne]; [done|].
    intros Hg. rewrite filter_cons. cbn.
    destruct (decide (k' ≠ k)); [|done]. by rewrite IH.
Qed.

Lemma elem_of_set k v m u r :
  (u, r) ∈ JsMap.set k v m → (u, r) = (k, v) ∨ (u, r) ∈ m.
Proof.
  induction m as [|[k' v'] m IH]; cbn.
  - intros Hin. apply list_elem_of_singleton in Hin. by left.
  - destruct (decide (k' = k)) as [->|Hne]; intros Hin.
    + apply elem_of_cons in Hin as [?|?]; [by left|]. right. by right.
    + apply elem_of_cons in Hin as [->|Hin]; [right; left|].
      destruct (IH Hin) as [?|?]; [by left|]. right. by right.
Qed.

Lemma set_fresh k v m : k ∉ m.*1 → JsMap.set k v m = m ++ [(k, v)].
Proof.
  induction m as [|[k' v'] m IH]; cbn; [done|].
  intros Hk. apply not_elem_of_cons in Hk as [Hne Hk].
  rewrite decide_False by done. by rewrite IH.
Qed.

Lemma delete_absent k m : k ∉ m.*1 → JsMap.delete k m = m.
Proof.
  unfold JsMap.delete. induction m as [|[k' v'] m IH]; [done|].
  rewrite fmap_cons, filter_cons. cbn [fst].
  intros Hk. apply not_elem_of_cons in Hk as [Hne Hk].
  rewrite decide_True by done. by rewrite IH.
Qed.

End Ordered.
End JsMapFacts.

Module EntityBehaviour.
Import Js Entity EntityView.

Lemma getForce_stored a v e :
  actions e !! a = Some v → getForce a e = v.
Proof.
  unfold getForce. intros ->. cbn. case_bool_decide; congruence.
Qed.

Lemma getForce_setAction_eq e a v : getForce a (setAction a v e) = v.
Proof.
  unfold setAction.
  destruct (truthy_num (actions e !! a) && strict_eq_num (actions e !! a) v) eqn:Hg.
  - apply andb_true_iff in Hg as [_ Heq]. unfold strict_eq_num in Heq.
    destruct (actions e !! a) as [x|] eqn:Hx; [|done].
    apply bool_decide_eq_true_1 in Heq. subst. by apply getForce_stored.
  - unfold getForce. cbn. case_bool_decide as Hv.
    + rewrite lookup_insert_eq. cbn. by rewrite bool_decide_eq_false_2.
    + rewrite lookup_delete_eq. cbn.
      destruct (decide (v = 0%Qc)); [done|]. by destruct Hv.
Qed.

Lemma getForce_setAction_ne e a b v :
  b ≠ a → getForce b (setAction a v e) = getForce b e.
Proof.
  intros Hb. unfold setAction.
  destruct (truthy_num (actions e !! a) && strict_eq_num (actions e !! a) v); [done|].
  unfold getForce. cbn. case_bool_decide.
  - by rewrite lookup_insert_ne.
  - by rewrite lookup_delete_ne.
Qed.

(** X1: [setAction] followed by [getForce] reads back the value that was
    set, whatever it is and whatever was stored, and leaves the force of
    every other action as it was. *)
Theorem getForce_after_setAction (e : t) (a b : Z) (v : number) :
  getForce a (setAction a v e) = v
  ∧ (b ≠ a → getForce b (setAction a v e) = getForce b e).
Proof.
  split; [apply getForce_setAction_eq|apply getForce_setAction_ne].
Qed.

(** X2: a [setAction] that changes the force of its action hands exactly
    one message to [sendInput], and that message carries the container as
    the call leaves it. *)
Theorem setAction_change_is_sent (e : t) (a : Z) (v : number) :
  getForce a e ≠ v →
  sent (setAction a v e)
  = sent e ++ [ {| msg_actions := actions (setAction a v e);
                   msg_mouse := mouseMovement e |} ].
Proof.
  intros Hchange. unfold setAction.
  destruct (truthy_num (actions e !! a) && strict_eq_num (actions e !! a) v) eqn:Hg.
  - exfalso. apply Hchange.
    apply andb_true_iff in Hg as [_ Heq]. unfold strict_eq_num in Heq.
    destruct (actions e !! a) as [x|] eqn:Hx; [|done].
    apply bool_decide_eq_true_1 in Heq. subst. by apply getForce_stored.
  - reflexivity.
Qed.

Lemma setAction_change_is_sent_witness :
  sent (setAction 5 1%Qc create)
  = sent create ++ [ {| msg_actions := actions (setAction 5 1%Qc create);
                        msg_mouse := mouseMovement create |} ].
Proof.
  apply (setAction_change_is_sent create 5 1%Qc). vm_compute. discriminate.
Defined.

(** ** The game's view *)

Lemma in_sync_sendInput e : in_sync (sendInput e).
Proof. unfold in_sync, sendInput. cbn. by rewrite last_snoc. Qed.

Lemma in_sync_step e o : in_sync e → in_sync (step e o).
Proof.
  intros He. destruct o as [a v|]; cbn.
  - unfold setAction. destruct (_ && _); [done|apply in_sync_sendInput].
  - apply in_sync_sendInput.
Qed.

Lemma in_sync_run ops : ∀ e, in_sync e → in_sync (run ops e).
Proof.
  induction ops as [|o ops IH]; intros e He; [done|].
  cbn. by apply IH, in_sync_step.
Qed.

Lemma sent_nil_step e o : sent (step e o) = [] → sent e = [] ∧ step e o = e.
Proof.
  destruct o as [a v|]; cbn.
  - unfold setAction. destruct (_ && _); [done|].
    cbn. intros H. by apply app_nil in H as [_ ?].
  - cbn. intros H. by apply app_nil in H as [_ ?].
Qed.

(** X3: through any sequence of [setAction] and [clearInput] calls on a
    new entity, the game's view stays in sync: while nothing has been sent
    the action container is still empty, and otherwise the last message
    sent carries the container and the mouse movement as they are now. *)
Theorem last_message_is_current (ops : list op) :
  match last (sent (run ops create)) with
  | Some m => msg_actions m = actions (run ops create)
              ∧ msg_mouse m = mouseMovement (run ops create)
  | None => actions (run ops create) = ∅
  end.
Proof.
  pose proof (in_sync_run ops create I) as Hsync. unfold in_sync in Hsync.
  destruct (last (sent (run ops create))) as [m|] eqn:Hlast; [done|].
  apply last_None in Hlast.
  assert (Hgen : ∀ ops e, sent (run ops e) = [] → run ops e = e).
  { clear. induction ops as [|o ops IH]; intros e He; [done|].
    change (run (o :: ops) e) with (run ops (step e o)) in *.
    pose proof (IH _ He) as Hrun. rewrite Hrun in He |- *.
    by apply sent_nil_step in He as [_ ?]. }
  by rewrite (Hgen _ _ Hlast).
Qed.

(** ** Codec edges *)

(** X4: a source without a physics body serializes to [null], and
    decoding [null] (or any other empty snapshot) leaves the target as it
    was; decoding a snapshot array onto an entity without a physics body
    ends in a [TypeError]. *)
Theorem codec_without_body
    (Number_toString : number → string) (source target : t) (snapshot : list value) :
  (physicsBody source = None →
     serializePhysics Number_toString source = Ok VNull
     ∧ round_trip Number_toString source target = Ok target)
  ∧ consumeUpdate VUndef target = Ok target
  ∧ (physicsBody target = None →
       consumeUpdate (VArr snapshot) target = Throw TypeError).
Proof.
  unfold round_trip, serializePhysics, consumeUpdate.
  split; [|split].
  - by intros ->.
  - done.
  - by intros ->.
Qed.

Lemma serializePhysics_shape nts e body snapshot :
  physicsBody e = Some body → serializePhysics nts e = Ok snapshot →
  ∃ av pos vel ang, snapshot = VArr [VArr [av]; pos; vel; VArr [ang]].
Proof.
  unfold serializePhysics. intros ->.
  destruct (call_toFixed nts (angularVelocity body) precision) as [av|]; [|done].
  cbn. destruct (map_toFixed nts (interpolatedPosition body) precision) as [pos|]; [|done].
  cbn. destruct (map_toFixed nts (velocity body) precision) as [vel|]; [|done].
  cbn. destruct (call_toFixed nts (angle body) precision) as [ang|]; [|done].
  cbn. intros [= <-]. eauto.
Qed.

(** X5: an entity that has consumed the snapshot of a body cannot be
    serialized itself: its angular velocity is then the snapshot's
    one-element array, which has no [toFixed], so [serializePhysics] ends
    in a [TypeError]. *)
Theorem serializePhysics_after_consumeUpdate
    (Number_toString : number → string) (source target target' : t)
    (body : Body) (snapshot : value) :
  physicsBody source = Some body →
  serializePhysics Number_toString source = Ok snapshot →
  consumeUpdate snapshot target = Ok target' →
  serializePhysics Number_toString target' = Throw TypeError.
Proof.
  intros Hbody Hser Hcons.
  destruct (serializePhysics_shape _ _ _ _ Hbody Hser) as (av & pos & vel & ang & ->).
  unfold consumeUpdate in Hcons. cbn in Hcons.
  destruct (physicsBody target) as [tb|]; [|done].
  destruct (vec2_copy (position tb) pos) as [p|]; [|done]. cbn in Hcons.
  destruct (vec2_copy (velocity tb) vel) as [v|]; [|done]. cbn in Hcons.
  injection Hcons as <-. reflexivity.
Qed.

Lemma serializePhysics_after_consumeUpdate_witness :
  let nts := no_exponent_form in
  let stored x := stored_toFixed nts (Finite x) 4 in
  let body := numeric_body (q 5461 16384) (0%Qc, 0%Qc) (1%Qc, 1%Qc) (0%Qc, 0%Qc) 0%Qc in
  let source := with_body body create in
  let target := with_body (numeric_body 0%Qc (0%Qc, 0%Qc) (0%Qc, 0%Qc)
                             (0%Qc, 0%Qc) 0%Qc) create in
  serializePhysics nts
    (with_body {| angularVelocity := VArr [VStr "0.3333"];
                  angle := VArr [VStr "0.0000"];
                  position := VF32 [fround (stored 1%Qc); fround (stored 1%Qc)];
                  interpolatedPosition := VF32 [Finite 0%Qc; Finite 0%Qc];
                  velocity := VF32 [fround (stored 0%Qc); fround (stored 0%Qc)] |}
       target)
  = Throw TypeError.
Proof.
  intros nts stored body source target.
  apply (serializePhysics_after_consumeUpdate nts source target _ body
           (VArr [VArr [VStr "0.3333"]; VF32 [stored 1%Qc; stored 1%Qc];
                  VF32 [stored 0%Qc; stored 0%Qc]; VArr [VStr "0.0000"]]));
    vm_compute; reflexivity.
Defined.

End EntityBehaviour.

Module ControllerPolling.
Import Js Controls ControlsFacts.

Lemma assign_all_source key f vals : ∀ i input k v,
  assign_all key f i vals input !! k = Some v →
  input !! k = Some v ∨ ∃ j val, k = key (i + j)%nat ∧ vals !! j = Some val.
Proof.
  induction vals as [|val vals IH]; intros i input k v Hk; [by left|].
  cbn in Hk. apply IH in Hk as [Hk|(j & val' & -> & Hj)].
  - destruct (decide (key i = k)) as [<-|Hne].
    + right. exists 0%nat, val. by rewrite Nat.add_0_r.
    + rewrite lookup_insert_ne in Hk by done. by left.
  - right. exists (S j), val'. split; [f_equal; lia|done].
Qed.

Lemma exceeds_nonzero c val :
  (0 ≤ movementDeadzone c)%Qc → exceeds_deadzone c val = true → val ≠ 0%Qc.
Proof.
  intros Hdz Hex%bool_decide_eq_true_1 ->.
  apply (Qclt_not_le _ _ Hex). exact Hdz.
Qed.

Lemma Qcopp_nonzero (v : Qc) : v ≠ 0%Qc → (- v)%Qc ≠ 0%Qc.
Proof.
  intros Hv Hz. apply Hv. rewrite <- (Qcopp_involutive v), Hz. reflexivity.
Qed.

(** X6: the deadzone is global to the stick: as soon as one axis exceeds
    it, every axis with a non-zero reading is emitted, reversed, also an
    axis whose own reading lies within the deadzone. *)
Theorem one_axis_out_emits_all_axes
    (c : t) (pad : Gamepad) (i j : nat) (v w : number) :
  hasController c = true →
  axes pad !! j = Some w → (movementDeadzone c < Qcabs w)%Qc →
  axes pad !! i = Some v → v ≠ 0%Qc →
  (getRawControllerInput pad c).2 !! axis_key i = Some (- v)%Qc.
Proof.
  intros Hc Hj Hw Hi Hv. apply emitted_lookup. split; [done|]. split.
  - rewrite (raw_frame_axis _ _ _ _ Hi).
    assert (existsb (exceeds_deadzone c) (axes pad) = true) as ->; [|done].
    apply existsb_exists. exists w. split.
    + apply list_elem_of_In. by eapply list_elem_of_lookup_2.
    + by apply bool_decide_eq_true_2.
  - intros Hz. by apply Qcopp_nonzero in Hv.
Qed.

Lemma one_axis_out_emits_all_axes_witness :
  let c := startPollingController (create (q 15 100)) in
  let pad := {| axes := [q 1 100; q (-9) 10]; buttons := [] |} in
  (getRawControllerInput pad c).2 !! axis_key 0 = Some (- q 1 100)%Qc.
Proof.
  intros c pad.
  apply (one_axis_out_emits_all_axes c pad 0 1 (q 1 100) (q (-9) 10));
    vm_compute; (reflexivity || discriminate).
Defined.

(** X7: with a deadzone that is not negative, what a tick emits for a
    button depends on that button alone: its value when the value exceeds
    the deadzone, a single 0 when it does not but the previous input held
    a non-zero value under its key, and nothing otherwise. *)
Theorem button_emitted_by_its_own_value
    (c : t) (pad : Gamepad) (i : nat) (v : number) :
  hasController c = true →
  (0 ≤ movementDeadzone c)%Qc →
  buttons pad !! i = Some v →
  (getRawControllerInput pad c).2 !! button_key i
  = if exceeds_deadzone c v then Some v
    else if previousHadValue c (button_key i) then Some 0%Qc else None.
Proof.
  intros Hc Hdz Hi.
  pose proof (raw_frame_button c _ _ _ Hi) as Hraw.
  destruct (exceeds_deadzone c v) eqn:Hex.
  - apply emitted_lookup. repeat split; [done..|].
    intros Hz. by apply (exceeds_nonzero c v Hdz) in Hex.
  - destruct (previousHadValue c (button_key i)) eqn:Hprev.
    + apply emitted_lookup. repeat split; done.
    + destruct ((getRawControllerInput pad c).2 !! button_key i) as [x|] eqn:Hout;
        [|done].
      apply emitted_lookup in Hout as (_ & Hx & Hst).
      assert (x = 0%Qc) as -> by congruence.
      rewrite Hst in Hprev by done. done.
Qed.

Lemma button_emitted_by_its_own_value_witness :
  let c := startPollingController (create (q 15 100)) in
  let pad := {| axes := [q 9 10]; buttons := [q 1 10; q 7 10] |} in
  (getRawControllerInput pad c).2 !! button_key 1
  = (if exceeds_deadzone c (q 7 10) then Some (q 7 10)
     else if previousHadValue c (button_key 1) then Some 0%Qc else None).
Proof.
  intros c pad.
  apply (button_emitted_by_its_own_value c pad 1 (q 7 10)).
  - reflexivity.
  - vm_compute. discriminate.
  - reflexivity.
Defined.

(** X8: every entry a tick emits belongs to an axis or a button the
    controller has, and an entry with value 0 is emitted only for a key
    under which the previous input held a non-zero value. *)
Theorem emitted_entries_come_from_controller
    (c : t) (pad : Gamepad) (key : string) (v : number) :
  (getRawControllerInput pad c).2 !! key = Some v →
  ((∃ i val, key = axis_key i ∧ axes pad !! i = Some val)
   ∨ (∃ i val, key = button_key i ∧ buttons pad !! i = Some val))
  ∧ (v = 0%Qc → ∃ w, previousInput c !! key = Some w ∧ w ≠ 0%Qc).
Proof.
  intros (_ & Hraw & Hst)%emitted_lookup. split.
  - unfold raw_frame in Hraw.
    apply assign_all_source in Hraw as [Hraw|(j & val & -> & Hj)]; [|right; eauto].
    apply assign_all_source in Hraw as [Hraw|(j & val & -> & Hj)]; [|left; eauto].
    by rewrite lookup_empty in Hraw.
  - intros Hv. apply previousHadValue_true. by apply Hst.
Qed.

Lemma emitted_entries_come_from_controller_witness :
  let c := startPollingController (create (q 15 100)) in
  let pad := {| axes := [q 9 10]; buttons := [q 1 10; q 7 10] |} in
  ((∃ i val, button_key 1 = axis_key i ∧ axes pad !! i = Some val)
   ∨ (∃ i val, button_key 1 = button_key i ∧ buttons pad !! i = Some val))
  ∧ (q 7 10 = 0%Qc → ∃ w, previousInput c !! button_key 1 = Some w ∧ w ≠ 0%Qc).
Proof.
  intros c pad.
  apply (emitted_entries_come_from_controller c pad (button_key 1) (q 7 10)).
  vm_compute. reflexivity.
Defined.

End ControllerPolling.

Module SessionBehaviour.
Import Js Network NetworkFacts SessionView.

(** ** Settled promises *)

Lemma foldl_resolve_settled data ps : ∀ settled p x,
  settled !! p = Some x → foldl (resolve data) settled ps !! p = Some x.
Proof.
  induction ps as [|p' ps IH]; intros settled p x Hp; [done|].
  cbn. apply IH. unfold resolve.
  destruct (settled !! p') eqn:Hp'; [done|].
  rewrite lookup_insert_ne; [done|]. intros ->. congruence.
Qed.

Lemma step_settled n o p x :
  resolved n !! p = Some x → resolved (step n o) !! p = Some x.
Proof.
  intros Hp. destruct o; cbn.
  - unfold createSocketConnection, openSocket. by destruct (socket n).
  - done.
  - unfold emitAndAwaitResponse. destruct (socket n); [|done].
    by destruct (_ || _).
  - unfold waitForMessage. destruct (socket n); [|done].
    by case_bool_decide.
  - unfold receive. destruct (socket n); [|done]. cbn.
    by apply foldl_resolve_settled.
  - unfold openSocket. by destruct (socket n).
Qed.

(** X9: a promise settles once: the value a correlated call has resolved
    with is not changed by anything that happens on the session
    afterwards, further messages on its endpoint included. *)
Theorem resolved_value_is_final (n : t) (ops : list op) (p : nat) (x : value) :
  resolved n !! p = Some x → resolved (run ops n) !! p = Some x.
Proof.
  revert n. induction ops as [|o ops IH]; intros n Hp; [done|].
  cbn. by apply IH, step_settled.
Qed.

Lemma resolved_value_is_final_witness :
  let n := (emitAndAwaitResponse "ping" VNull None
              (createSocketConnection (create "localhost" "5000"))).1 in
  resolved (run [Receive "ping" (VStr "late"); WaitForMessage "other"]
              (receive "ping" (VStr "pong") n)) !! 0%nat
  = Some (VStr "pong").
Proof.
  intros n.
  apply (resolved_value_is_final (receive "ping" (VStr "pong") n)
           [Receive "ping" (VStr "late"); WaitForMessage "other"] 0 (VStr "pong")).
  vm_compute. reflexivity.
Defined.

(** ** Passive waits *)

Lemma awaiting_waited e n p :
  wf n → (waitForMessage e n).2 = Pending p →
  awaiting e p (waitForMessage e n).1.
Proof.
  intros [Hres Hlis]. unfold waitForMessage.
  destruct (socket n) as [sock|] eqn:Hs; [|done].
  case_bool_decide as He; [done|]. cbn. intros [= <-].
  eexists. split; [done|]. cbn. rewrite lookup_delete_eq, lookup_insert_eq.
  repeat split; [set_solver| |lia|].
  - destruct (resolved n !! nextPromise n) eqn:Hp; [|done].
    assert (nextPromise n < nextPromise n)%nat by (apply Hres; eauto). lia.
  - intros ev' ps Hev Hp.
    destruct (decide (e = ev')) as [<-|Hne]; [done|].
    rewrite lookup_insert_ne in Hev by done.
    apply lookup_delete_Some in Hev as [_ Hev].
    assert (nextPromise n < nextPromise n)%nat by (by eapply Hlis). lia.
Qed.

(** X10: on a session reached from a new one, a pending
    [waitForMessage(e)] stays unsettled while no message arrives on [e],
    resolves with the payload of the first message on [e], and keeps that
    value when a second message on [e] arrives. *)
Theorem waitForMessage_resolves_with_first_message
    (host port : string) (ops0 ops : list op) (e : string) (p : nat) (x y : value) :
  let n := run ops0 (create host port) in
  (waitForMessage e n).2 = Pending p →
  no_message_on e ops = true →
  let n2 := run ops (waitForMessage e n).1 in
  resolved n2 !! p = None
  ∧ resolved (receive e x n2) !! p = Some x
  ∧ resolved (receive e y (receive e x n2)) !! p = Some x.
Proof.
  intros n Hp Hops n2.
  assert (Hwf : wf n) by apply wf_run, wf_create.
  pose proof (awaiting_waited e n p Hwf Hp) as Haw.
  apply (awaiting_run _ _ ops) in Haw; [|done]. fold n2 in Haw.
  pose proof (awaiting_receive e p n2 x Haw) as Hx.
  split; [by destruct Haw as (? & _ & _ & _ & ? & _)|].
  split; [done|].
  by apply (step_settled _ (Receive e y)).
Qed.

Lemma waitForMessage_resolves_with_first_message_witness :
  let n := run [Connect] (create "localhost" "5000") in
  let n2 := run [EmitAndAwaitResponse "join" VNull (Some "joined");
                 Receive "joined" (VStr "ok")]
              (waitForMessage "update" n).1 in
  resolved n2 !! 0%nat = None
  ∧ resolved (receive "update" (VNum 1%Qc) n2) !! 0%nat = Some (VNum 1%Qc)
  ∧ resolved (receive "update" (VNum 2%Qc) (receive "update" (VNum 1%Qc) n2)) !! 0%nat
    = Some (VNum 1%Qc).
Proof.
  apply (waitForMessage_resolves_with_first_message "localhost" "5000" [Connect]
           [EmitAndAwaitResponse "join" VNull (Some "joined");
            Receive "joined" (VStr "ok")]
           "update" 0 (VNum 1%Qc) (VNum 2%Qc));
    vm_compute; reflexivity.
Defined.

(** ** Occupied endpoints *)

Lemma occupied_rejects_wait ev n :
  is_Some (socket n) → ev ∈ pendingResponses n →
  waitForMessage ev n = (n, Rejected "Listener already installed.").
Proof. apply waitForMessage_installed. Qed.

Lemma occupied_rejects_call ev e d r n :
  is_Some (socket n) → ev ∈ pendingResponses n →
  e = ev ∨ response_endpoint e r = ev →
  emitAndAwaitResponse e d r n = (n, Rejected "Listener already installed.").
Proof.
  intros [sock Hs] Hev Hor. unfold emitAndAwaitResponse. rewrite Hs.
  destruct Hor as [->| <-].
  - by rewrite (bool_decide_eq_true_2 (ev ∈ pendingResponses n)).
  - rewrite (bool_decide_eq_true_2 (response_endpoint e r ∈ pendingResponses n)) by done.
    by rewrite orb_true_r.
Qed.

(** X11: a pending [emitAndAwaitResponse(e, d, r)] occupies its response
    endpoint as well, for good: whatever happens afterwards,
    [waitForMessage] on the response endpoint is rejected, and so is every
    [emitAndAwaitResponse] that emits on it or names as its own response
    endpoint either of the two endpoints. *)
Theorem response_endpoint_stays_occupied
    (n : t) (ops : list op) (e e' : string) (d d' : value)
    (r r' : option string) (p : nat) :
  (emitAndAwaitResponse e d r n).2 = Pending p →
  e' = response_endpoint e r
  ∨ response_endpoint e' r' = response_endpoint e r
  ∨ response_endpoint e' r' = e →
  let n2 := run ops (emitAndAwaitResponse e d r n).1 in
  waitForMessage (response_endpoint e r) n2
  = (n2, Rejected "Listener already installed.")
  ∧ emitAndAwaitResponse e' d' r' n2 = (n2, Rejected "Listener already installed.").
Proof.
  intros Hp Hor n2.
  destruct (emitAndAwaitResponse_issued e d r n p Hp) as (Hsock & He & Hr).
  assert (is_Some (socket n2)) by by apply run_socket.
  assert (e ∈ pendingResponses n2) by by apply (run_pending ops).
  assert (response_endpoint e r ∈ pendingResponses n2) by by apply (run_pending ops).
  split; [by apply occupied_rejects_wait|].
  destruct Hor as [Heq|[Heq|Heq]].
  - apply (occupied_rejects_call (response_endpoint e r)); [done..|by left].
  - apply (occupied_rejects_call (response_endpoint e r)); [done..|by right].
  - apply (occupied_rejects_call e); [done..|by right].
Qed.

Lemma response_endpoint_stays_occupied_witness :
  let n := createSocketConnection (create "localhost" "5000") in
  let n2 := run [Receive "joined" (VStr "ok")]
              (emitAndAwaitResponse "join" VNull (Some "joined") n).1 in
  waitForMessage (response_endpoint "join" (Some "joined")) n2
  = (n2, Rejected "Listener already installed.")
  ∧ emitAndAwaitResponse "leave" VNull (Some "joined") n2
    = (n2, Rejected "Listener already installed.").
Proof.
  intros n n2.
  apply (response_endpoint_stays_occupied n [Receive "joined" (VStr "ok")]
           "join" "leave" VNull VNull (Some "joined") (Some "joined") 0).
  - vm_compute. reflexivity.
  - right. left. reflexivity.
Defined.

(** X12: a pending [waitForMessage(e)] occupies [e] for good: whatever
    happens afterwards, a further [waitForMessage(e)] is rejected, and so
    is every [emitAndAwaitResponse] that emits on [e] or expects its
    response on [e]. *)
Theorem waited_endpoint_stays_occupied
    (n : t) (ops : list op) (e e' : string) (d' : value) (r' : option string)
    (p : nat) :
  (waitForMessage e n).2 = Pending p →
  e' = e ∨ response_endpoint e' r' = e →
  let n2 := run ops (waitForMessage e n).1 in
  waitForMessage e n2 = (n2, Rejected "Listener already installed.")
  ∧ emitAndAwaitResponse e' d' r' n2 = (n2, Rejected "Listener already installed.").
Proof.
  intros Hp Hor n2.
  assert (is_Some (socket (waitForMessage e n).1)
          ∧ e ∈ pendingResponses (waitForMessage e n).1) as [Hsock He].
  { revert Hp. unfold waitForMessage. destruct (socket n); [|done].
    case_bool_decide; [done|]. cbn. intros _. split; [done|clear; set_solver]. }
  assert (is_Some (socket n2)) by by apply run_socket.
  assert (e ∈ pendingResponses n2) by by apply (run_pending ops).
  split; [by apply occupied_rejects_wait|].
  by apply (occupied_rejects_call e).
Qed.

Lemma waited_endpoint_stays_occupied_witness :
  let n := createSocketConnection (create "localhost" "5000") in
  let n2 := run [Receive "update" (VNum 1%Qc)] (waitForMessage "update" n).1 in
  waitForMessage "update" n2 = (n2, Rejected "Listener already installed.")
  ∧ emitAndAwaitResponse "refresh" VNull (Some "update") n2
    = (n2, Rejected "Listener already installed.").
Proof.
  intros n n2.
  apply (waited_endpoint_stays_occupied n [Receive "update" (VNum 1%Qc)]
           "update" "refresh" VNull (Some "update") 0).
  - vm_compute. reflexivity.
  - right. reflexivity.
Defined.

(** ** Installed listeners *)

Lemma step_listener_origin n o sock' ev ps :
  socket (step n o) = Some sock' → listeners sock' !! ev = Some ps →
  (∃ sock, socket n = Some sock ∧ listeners sock !! ev = Some ps
           ∧ no_message_on ev [o] = true)
  ∨ (∃ p, ps = [p]
       ∧ ((∃ e d r, o = EmitAndAwaitResponse e d r ∧ ev = response_endpoint e r
                    ∧ (emitAndAwaitResponse e d r n).2 = Pending p)
          ∨ (o = WaitForMessage ev ∧ (waitForMessage ev n).2 = Pending p))).
Proof.
  assert (Hopen : ∀ required,
    socket (openSocket required n) = Some sock' → listeners sock' !! ev = Some ps →
    ∃ sock, socket n = Some sock ∧ listeners sock !! ev = Some ps).
  { intros required. unfold openSocket. destruct (socket n) as [sock|] eqn:Hs.
    - rewrite Hs. intros [= <-] Hev. eauto.
    - cbn. intros [= <-]. cbn. by rewrite lookup_empty. }
  destruct o as [| |e d r|e|ev0 d|]; cbn.
  - intros Hs Hev. left. destruct (Hopen false Hs Hev) as (sock & ? & ?). eauto.
  - intros Hs Hev. left. eauto.
  - unfold emitAndAwaitResponse. destruct (socket n) as [sock|] eqn:Hs; [|cbn; by rewrite Hs].
    destruct (_ || _) eqn:Hin; cbn; [rewrite Hs; intros [= <-] Hev; left; eauto|].
    intros [= <-] [[-> ->]|[Hne Hold]]%once_after_remove_lookup.
    + right. eexists. split; [done|]. left. exists e, d, r. by rewrite Hin.
    + left. cbn in Hold. apply lookup_delete_Some in Hold as [_ Hold]. eauto.
  - unfold waitForMessage. destruct (socket n) as [sock|] eqn:Hs; [|cbn; by rewrite Hs].
    case_bool_decide as Hin; cbn; [rewrite Hs; intros [= <-] Hev; left; eauto|].
    intros [= <-] [[-> ->]|[Hne Hold]]%once_after_remove_lookup.
    + right. eexists. split; [done|]. right.
      by rewrite (bool_decide_eq_false_2 _ Hin).
    + left. eauto.
  - unfold receive. destruct (socket n) as [sock|] eqn:Hs; [|cbn; by rewrite Hs].
    cbn. intros [= <-]. cbn. intros [Hne Hold]%lookup_delete_Some.
    left. exists sock. repeat split; [done..|].
    by rewrite (bool_decide_eq_false_2 (ev0 = ev)).
  - intros Hs Hev. left. destruct (Hopen true Hs Hev) as (sock & ? & ?). eauto.
Qed.

(** The listeners of the session sit on [connect], [error] and
    [disconnect] only. *)
Lemma install_known event h hs ev l :
  (∀ ev l, hs !! ev = Some l → ev ∈ system_events) →
  event ∈ system_events →
  install event h hs !! ev = Some l → ev ∈ system_events.
Proof.
  intros Hhs Hevent. unfold install.
  destruct (decide (event = ev)) as [<-|Hne]; [done|].
  rewrite lookup_insert_ne by done. apply Hhs.
Qed.

Lemma run_handler_known hs h ev l :
  (∀ ev l, hs !! ev = Some l → ev ∈ system_events) →
  run_handler hs h !! ev = Some l → ev ∈ system_events.
Proof.
  intros Hhs. destruct h as [[]| |]; cbn; [| |apply Hhs..].
  - apply install_known; [|by right; right; left].
    intros ev' l'. apply install_known; [done|by right; left].
  - apply install_known; [done|by right; left].
Qed.

Lemma fire_known event hs ev l :
  (∀ ev l, hs !! ev = Some l → ev ∈ system_events) →
  fire event hs !! ev = Some l → ev ∈ system_events.
Proof.
  intros Hhs. unfold fire.
  set (start := if decide (_ = []) then _ else _).
  assert (Hstart : ∀ ev l, start !! ev = Some l → ev ∈ system_events).
  { intros ev' l'. unfold start. case_decide as Hkept.
    - intros [_ ?]%lookup_delete_Some. by eapply Hhs.
    - destruct (decide (event = ev')) as [<-|Hne].
      + intros _. destruct (hs !! event) as [l0|] eqn:Hev; [by eapply Hhs|].
        by destruct Hkept.
      + rewrite lookup_insert_ne by done. apply Hhs. }
  clearbody start. revert start Hstart ev l.
  induction (default [] (hs !! event)) as [|h fired IH]; intros start Hstart ev l.
  - apply Hstart.
  - cbn. apply IH. intros ev' l'. by apply run_handler_known.
Qed.

Lemma handlers_known_step n o : handlers_known n → handlers_known (step n o).
Proof.
  intros Hinv.
  assert (Hopen : ∀ required, handlers_known (openSocket required n)).
  { intros required sock ev hs. unfold openSocket.
    destruct (socket n) as [sock0|] eqn:Hs.
    - rewrite Hs. intros [= <-]. by apply (Hinv sock0).
    - cbn. intros [= <-]. cbn.
      intros [<- _]%lookup_singleton_Some. left. }
  destruct o as [| |e d r|e|ev0 d|]; cbn; [apply Hopen| | | | |apply Hopen].
  - exact Hinv.
  - intros sock' ev hs. unfold emitAndAwaitResponse.
    destruct (socket n) as [sock|] eqn:Hs; [|cbn; by rewrite Hs].
    destruct (_ || _); cbn; [rewrite Hs; intros [= <-]; by apply (Hinv sock)|].
    intros [= <-]. cbn.
    intros [_ [_ Hold]%lookup_delete_Some]%lookup_delete_Some.
    by apply (Hinv sock ev hs).
  - intros sock' ev hs. unfold waitForMessage.
    destruct (socket n) as [sock|] eqn:Hs; [|cbn; by rewrite Hs].
    case_bool_decide; cbn; [rewrite Hs; intros [= <-]; by apply (Hinv sock)|].
    intros [= <-]. cbn. intros [_ Hold]%lookup_delete_Some.
    by apply (Hinv sock ev hs).
  - intros sock' ev hs. unfold receive.
    destruct (socket n) as [sock|] eqn:Hs; [|cbn; by rewrite Hs].
    cbn. intros [= <-]. cbn. apply fire_known. intros ev' l'. by apply (Hinv sock).
Qed.

Lemma handlers_known_run ops : ∀ n, handlers_known n → handlers_known (run ops n).
Proof.
  induction ops as [|o ops IH]; intros n Hinv; [done|].
  cbn. by apply IH, handlers_known_step.
Qed.

Lemma listeners_await_step n o :
  wf n → listeners_await n → listeners_await (step n o).
Proof.
  intros Hwf Hinv sock' ev ps Hs' Hev.
  destruct (step_listener_origin n o sock' ev ps Hs' Hev)
    as [(sock & Hs & Hold & Hno)|(p & -> & Hnew)].
  - destruct (Hinv sock ev ps Hs Hold) as (p & -> & Haw).
    exists p. split; [done|]. by apply awaiting_step.
  - exists p. split; [done|].
    destruct Hnew as [(e & d & r & -> & -> & Hp)|[-> Hp]]; cbn.
    + by apply awaiting_issued.
    + by apply awaiting_waited.
Qed.

Lemma listeners_await_run ops : ∀ n,
  wf n → listeners_await n → listeners_await (run ops n).
Proof.
  induction ops as [|o ops IH]; intros n Hwf Hinv; [done|].
  cbn. apply IH; [by apply wf_step|by apply listeners_await_step].
Qed.

(** X13: on a session reached from a new one, whatever listeners the
    session has installed for itself beside them, an event never has more
    than one call waiting on it: the promise listener of an event is the
    only one, its event is in the registry of pending responses, its
    promise is unsettled, and the next message on the event resolves that
    promise with the message's payload.  The session's own listeners sit
    on [connect], [error] and [disconnect] only; they are in no registry
    and resolve no call. *)
Theorem installed_listener_is_live
    (host port : string) (ops : list op) (sock : Socket) (ev : string)
    (ps : list nat) (x : value) :
  let n := run ops (create host port) in
  socket n = Some sock → listeners sock !! ev = Some ps →
  (∃ p, ps = [p]
     ∧ ev ∈ pendingResponses n
     ∧ resolved n !! p = None
     ∧ resolved (receive ev x n) !! p = Some x)
  ∧ (∀ ev' hs, handlers sock !! ev' = Some hs → ev' ∈ system_events).
Proof.
  intros n Hs Hev.
  assert (Hinv : listeners_await n).
  { apply listeners_await_run; [apply wf_create|]. by intros ? ? ? [=]. }
  assert (Hknown : handlers_known n).
  { apply handlers_known_run. by intros ? ? ? [=]. }
  split; [|intros ev' hs; by apply (Hknown sock)].
  destruct (Hinv sock ev ps Hs Hev) as (p & -> & Haw).
  exists p. split; [done|].
  pose proof (awaiting_receive ev p n x Haw) as Hx.
  destruct Haw as (? & _ & _ & ? & ? & _). done.
Qed.

(** A required connection that has connected, and a call waiting for a
    message on [error]: the call has removed the session's report from
    the event and installed its promise listener. *)
Lemma installed_listener_is_live_witness :
  let n := run [ConnectRequired; Receive "connect" VUndef; WaitForMessage "error"]
             (create "localhost" "5000") in
  let sock := {| listeners := {[ "error" := [0%nat] ]};
                 handlers := {[ "connect" := [HandleConnect true];
                                "disconnect" := [ReportDisconnect] ]};
                 emitted := [] |} in
  (∃ p, [0%nat] = [p]
     ∧ "error" ∈ pendingResponses n
     ∧ resolved n !! p = None
     ∧ resolved (receive "error" (VStr "refused") n) !! p = Some (VStr "refused"))
  ∧ (∀ ev' hs, handlers sock !! ev' = Some hs → ev' ∈ system_events).
Proof.
  intros n sock.
  apply (installed_listener_is_live "localhost" "5000"
           [ConnectRequired; Receive "connect" VUndef; WaitForMessage "error"]
           sock "error" [0%nat] (VStr "refused")).
  - vm_compute. reflexivity.
  - vm_compute. reflexivity.
Defined.

(** X14: when the body of the response does not parse, a call whose
    status counts as success never settles its promise (the listener
    throws before resolving), while on every other status, and on the
    [error] event, the promise is rejected with the raw body text as the
    error's message. *)
Theorem unparseable_body_outcomes
    (JSON_parse : string → option value) (JSON_stringify : value → string)
    (p : string) (data : value) (n : t) (req : XMLHttpRequest) :
  JSON_parse (responseText req) = None →
  let post := (createPostRequest JSON_parse JSON_stringify p data n).2 in
  let get := (createGetRequest JSON_parse p n).2 in
  let del := (createDeleteRequest JSON_parse JSON_stringify p data n).2 in
  let raw := RejectedWith (Error (VStr (responseText req))) in
  (status req = 200 →
     post LoadEvent req = Unsettled ∧ get LoadEvent req = Unsettled
     ∧ del LoadEvent req = Unsettled)
  ∧ (status req = 304 → post LoadEvent req = Unsettled)
  ∧ (status req ≠ 200 → status req ≠ 304 →
       post LoadEvent req = raw ∧ get LoadEvent req = raw ∧ del LoadEvent req = raw)
  ∧ post ErrorEvent req = raw ∧ get ErrorEvent req = raw ∧ del ErrorEvent req = raw.
Proof.
  intros Hparse. cbn. unfold resolve_parsed, createError. rewrite Hparse.
  split; [|split; [|split]].
  - by intros ->.
  - by intros ->.
  - intros H200%Z.eqb_neq H304%Z.eqb_neq. by rewrite H200, H304.
  - done.
Qed.

Lemma unparseable_body_outcomes_witness :
  let req := {| status := 200; responseText := "<html>Bad gateway</html>" |} in
  let post := (createPostRequest JSON_parse_sample (λ _, "{}") "/login" VNull
                 (create "localhost" "5000")).2 in
  let get := (createGetRequest JSON_parse_sample "/login" (create "localhost" "5000")).2 in
  let del := (createDeleteRequest JSON_parse_sample (λ _, "{}") "/login" VNull
                (create "localhost" "5000")).2 in
  let raw := RejectedWith (Error (VStr (responseText req))) in
  (status req = 200 →
     post LoadEvent req = Unsettled ∧ get LoadEvent req = Unsettled
     ∧ del LoadEvent req = Unsettled)
  ∧ (status req = 304 → post LoadEvent req = Unsettled)
  ∧ (status req ≠ 200 → status req ≠ 304 →
       post LoadEvent req = raw ∧ get LoadEvent req = raw ∧ del LoadEvent req = raw)
  ∧ post ErrorEvent req = raw ∧ get ErrorEvent req = raw ∧ del ErrorEvent req = raw.
Proof.
  apply (unparseable_body_outcomes JSON_parse_sample (λ _, "{}") "/login" VNull
           (create "localhost" "5000")
           {| status := 200; responseText := "<html>Bad gateway</html>" |}).
  vm_compute. reflexivity.
Defined.

End SessionBehaviour.

Module BindingFacts.
Import Js ControlsDispatch JsMapFacts.

#[local] Opaque Bindings.

(** ** The index of bound actions *)

Lemma bind_key_actions bindingName acc k ba key a :
  bind_key bindingName acc k = Ok ba →
  a ∈ default [] (ba !! key)
  ↔ a ∈ default [] (acc !! key)
    ∨ (key = k ∧ ∃ b0, JsMap.get bindingName Bindings = Some b0 ∧ binding_id b0 = a).
Proof.
  unfold bind_key.
  destruct (JsMap.get bindingName Bindings) as [b0|] eqn:Hb0;
    [|by destruct (acc !! k)].
  assert (Hins : ba = <[k := default [] (acc !! k) ++ [binding_id b0]]> acc →
    a ∈ default [] (ba !! key)
    ↔ a ∈ default [] (acc !! key) ∨ (key = k ∧ ∃ b1, Some b0 = Some b1 ∧ binding_id b1 = a)).
  { intros ->. destruct (decide (k = key)) as [->|Hne].
    - rewrite lookup_insert_eq. cbn. rewrite elem_of_app, list_elem_of_singleton.
      split.
      + intros [?| ->]; [by left|right]. eauto.
      + intros [?|[_ (b & [= <-] & <-)]]; [by left|by right].
    - rewrite lookup_insert_ne by done. split; [by left|].
      intros [?|[-> _]]; done. }
  destruct (acc !! k) as [l|] eqn:Hl.
  - intros [= <-]. by apply Hins.
  - destruct (JsMap.inherited k); [done|]. intros [= <-]. by apply Hins.
Qed.

Lemma bind_keys_actions bindingName ks : ∀ acc ba key a,
  bind_keys bindingName ks acc = Ok ba →
  a ∈ default [] (ba !! key)
  ↔ a ∈ default [] (acc !! key)
    ∨ (key ∈ ks ∧ ∃ b0, JsMap.get bindingName Bindings = Some b0 ∧ binding_id b0 = a).
Proof.
  induction ks as [|k ks IH]; intros acc ba key a; cbn.
  - intros [= <-]. split; [by left|]. intros [?|[Hin _]]; [done|].
    by apply elem_of_nil in Hin.
  - destruct (bind_key bindingName acc k) as [acc1|] eqn:Hk; [|done].
    cbn. intros Hba.
    rewrite (IH _ _ _ _ Hba), (bind_key_actions _ _ _ _ _ _ Hk). clear IH Hba Hk.
    split.
    + intros [[?|[-> Hb]]|[Hin Hb]]; [by left|right|right].
      * split; [left|done].
      * split; [by right|done].
    + intros [?|[Hin Hb]]; [by left; left|].
      apply elem_of_cons in Hin as [->|Hin]; [left; by right|].
      by right.
Qed.

Lemma bind_all_actions bindings : ∀ acc ba key a,
  bind_all bindings acc = Ok ba →
  a ∈ default [] (ba !! key)
  ↔ a ∈ default [] (acc !! key)
    ∨ ∃ bindingName b device b0,
        (bindingName, b) ∈ bindings ∧ (device, key) ∈ keys b
        ∧ JsMap.get bindingName Bindings = Some b0 ∧ binding_id b0 = a.
Proof.
  induction bindings as [|[name b] bindings IH]; intros acc ba key a; cbn.
  - intros [= <-]. split; [by left|]. intros [?|(? & ? & ? & ? & Hin & _)]; [done|].
    by apply elem_of_nil in Hin.
  - destruct (bind_keys name (keys b).*2 acc) as [acc1|] eqn:Hkeys; [|done].
    cbn. intros Hba. rewrite (IH _ _ _ _ Hba), (bind_keys_actions _ _ _ _ _ _ Hkeys).
    clear IH Hba Hkeys. split.
    + intros [[?|[Hin (b0 & Hb0 & <-)]]|(n & b' & d & b0 & Hin & Hrest)].
      * by left.
      * right. apply list_elem_of_fmap in Hin as ([d k] & -> & Hin).
        exists name, b, d, b0. split; [left|done].
      * right. exists n, b', d, b0. split; [by right|done].
    + intros [?|(n & b' & d & b0 & Hin & Hk & Hb0 & <-)]; [by left; left|].
      apply elem_of_cons in Hin as [[= -> ->]|Hin].
      * left. right. split; [|eauto].
        apply list_elem_of_fmap. by exists (d, key).
      * right. exists n, b', d, b0. done.
Qed.

Lemma bind_keys_known bindingName ks acc :
  is_Some (JsMap.get bindingName Bindings) →
  Forall (λ key, JsMap.inherited key = false) ks →
  ∃ ba, bind_keys bindingName ks acc = Ok ba.
Proof.
  intros [b0 Hb0] Hplain. revert acc.
  induction Hplain as [|k ks Hk Hks IH]; intros acc; cbn; [eauto|].
  unfold bind_key. rewrite Hb0, Hk. destruct (acc !! k); cbn; apply IH.
Qed.

Lemma bind_all_known bindings : ∀ acc,
  Forall (λ entry, is_Some (JsMap.get entry.1 Bindings)) bindings →
  plain_keys bindings →
  ∃ ba, bind_all bindings acc = Ok ba.
Proof.
  induction bindings as [|[name b] bindings IH]; intros acc Hall Hplain; cbn; [eauto|].
  apply Forall_cons in Hall as [Hname Hall].
  apply Forall_cons in Hplain as [Hb Hplain]. cbn in Hb.
  destruct (bind_keys_known name (keys b).*2 acc Hname) as (acc1 & ->).
  { by apply Forall_fmap. }
  cbn. by apply IH.
Qed.

(** Every list of the index has an action. *)
Lemma bind_all_nonempty bindings : ∀ acc ba,
  bind_all bindings acc = Ok ba →
  (∀ k l, acc !! k = Some l → l ≠ []) →
  ∀ k l, ba !! k = Some l → l ≠ [].
Proof.
  induction bindings as [|[name b] bs IH]; intros acc ba; cbn.
  - by intros [= <-].
  - destruct (bind_keys name (keys b).*2 acc) as [acc1|] eqn:Hkeys; [|done].
    cbn. intros Hba Hacc. apply (IH _ _ Hba). clear IH Hba.
    revert acc acc1 Hkeys Hacc. generalize ((keys b).*2).
    induction l as [|k ks IHk]; intros acc acc1; cbn.
    + by intros [= <-].
    + destruct (bind_key name acc k) as [acc2|] eqn:Hk; [|done]. cbn.
      intros Hks Hacc. apply (IHk _ _ Hks). intros k' l'.
      assert (Hins : ∃ x, acc2 = <[k := default [] (acc !! k) ++ [x]]> acc).
      { revert Hk. unfold bind_key.
        destruct (acc !! k), (JsMap.get name Bindings) as [b0|]; try done.
        - intros [= <-]. eauto.
        - destruct (JsMap.inherited k); [done|]. intros [= <-]. eauto. }
      destruct Hins as [x ->].
      destruct (decide (k = k')) as [->|Hne].
      * rewrite lookup_insert_eq. intros [= <-]. by destruct (default [] _).
      * rewrite lookup_insert_ne by done. apply Hacc.
Qed.

(** X15: for a table whose binding names all occur in [Bindings] and
    whose keys are not named after members of [Object.prototype],
    [generateBoundActions] returns an index in which the actions listed
    under a key are exactly the identifiers, read from [Bindings], of the
    bindings that have this key on some device; a key that no binding has
    is not in the index. *)
Theorem bound_actions_are_the_bindings_of_the_key
    (bindings : list (string * Binding)) (key : string) (a : Z) :
  Forall (λ entry, is_Some (JsMap.get entry.1 Bindings)) bindings →
  plain_keys bindings →
  ∃ boundActions,
    generateBoundActions bindings = Ok boundActions
    ∧ (a ∈ default [] (boundActions !! key)
       ↔ ∃ bindingName b device b0,
           (bindingName, b) ∈ bindings ∧ (device, key) ∈ keys b
           ∧ JsMap.get bindingName Bindings = Some b0 ∧ binding_id b0 = a)
    ∧ ((∀ entry device, entry ∈ bindings → (device, key) ∉ keys entry.2) →
         boundActions !! key = None).
Proof.
  intros Hall Hplain. destruct (bind_all_known bindings ∅ Hall Hplain) as (ba & Hba).
  exists ba. split; [done|]. split.
  - rewrite (bind_all_actions _ _ _ key a Hba), lookup_empty. cbn.
    split; [|by right]. intros [Hin|?]; [|done]. by apply elem_of_nil in Hin.
  - intros Hno. destruct (ba !! key) as [l|] eqn:Hl; [|done]. exfalso.
    destruct l as [|a' l].
    { by eapply (bind_all_nonempty _ _ _ Hba). }
    assert (a' ∈ default [] (ba !! key)) as Hin by (rewrite Hl; left).
    apply (bind_all_actions _ _ _ key a' Hba) in Hin as [Hin|(n & b & d & _ & Hin & Hk & _)].
    + rewrite lookup_empty in Hin. by apply elem_of_nil in Hin.
    + by apply (Hno (n, b) d).
Qed.

Lemma bound_actions_are_the_bindings_of_the_key_witness :
  ∃ boundActions,
    generateBoundActions Bindings = Ok boundActions
    ∧ (5 ∈ default [] (boundActions !! "axes1")
       ↔ ∃ bindingName b device b0,
           (bindingName, b) ∈ Bindings ∧ (device, "axes1") ∈ keys b
           ∧ JsMap.get bindingName Bindings = Some b0 ∧ binding_id b0 = 5)
    ∧ ((∀ entry device, entry ∈ Bindings → (device, "axes1") ∉ keys entry.2) →
         boundActions !! "axes1" = None).
Proof.
  apply (bound_actions_are_the_bindings_of_the_key Bindings "axes1" 5).
  - vm_compute. repeat (constructor; [eexists; reflexivity|]). constructor.
  - refine (bool_decide_unpack _ _). by vm_compute.
Defined.

(** A key named after a member of [Object.prototype] cannot be indexed. *)
Example bound_actions_inherited_key :
  generateBoundActions
    [("FORWARD", {| binding_id := 5; keys := [("keyboard", "toString")] |})]
  = Throw TypeError.
Proof. vm_compute. reflexivity. Qed.

(** The index of the default table. *)
Example default_bound_actions :
  generateBoundActions Bindings
  = Ok {[ "83" := [0]; "87" := [5]; "65" := [6]; "68" := [7]; "16" := [8];
          "axes1" := [0; 5]; "axes0" := [6; 7]; "button5" := [8] ]}.
Proof. vm_compute. reflexivity. Qed.

(** ** Custom controls *)

Lemma Bindings_names_unique : NoDup Bindings.*1.
Proof. refine (bool_decide_unpack _ _). by vm_compute. Qed.

Lemma Bindings_plain_keys : plain_keys Bindings.
Proof.
  unfold plain_keys.
  refine (bool_decide_unpack _ _). by vm_compute.
Qed.

Lemma Bindings_devices_unique : devices_unique Bindings.
Proof.
  unfold devices_unique.
  refine (bool_decide_unpack _ _). by vm_compute.
Qed.

Lemma set_Forall {V} (P : string * V → Prop) k v (m : list (string * V)) :
  Forall P m → P (k, v) → Forall P (JsMap.set k v m).
Proof.
  intros Hm Hkv. induction Hm as [|[k' v'] m Hhd Htl IH]; cbn.
  - by repeat constructor.
  - destruct (decide (k' = k)); by constructor.
Qed.

Lemma get_Forall {V} (P : string * V → Prop) k v (m : list (string * V)) :
  Forall P m → JsMap.get k m = Some v → P (k, v).
Proof.
  intros Hm Hg. apply get_Some_elem in Hg.
  by apply (proj1 (Forall_forall P m) Hm).
Qed.

Lemma override_keys_spec bindingName custom : ∀ bindings,
  Forall (λ dk, dk.1 ≠ "__proto__" ∧ JsMap.inherited dk.2 = false) custom →
  devices_unique bindings → plain_keys bindings →
  is_Some (JsMap.get bindingName bindings) →
  ∃ bindings',
    override_keys bindingName custom bindings = Ok bindings'
    ∧ bindings'.*1 = bindings.*1
    ∧ devices_unique bindings' ∧ plain_keys bindings'
    ∧ (∀ n, binding_id <$> JsMap.get n bindings' = binding_id <$> JsMap.get n bindings)
    ∧ ∀ n d, key_of n d bindings'
             = foldl (λ current dk,
                        if decide (bindingName = n ∧ dk.1 = d)
                        then Some dk.2 else current)
                 (key_of n d bindings) custom.
Proof.
  induction custom as [|[device customKey] custom IH];
    intros bindings Hcustom Hdev Hplain [b Hb].
  - exists bindings. done.
  - apply Forall_cons in Hcustom as [[Hproto Hkey] Hcustom]. cbn in Hproto, Hkey.
    cbn [override_keys]. rewrite Hb. rewrite decide_False by done.
    set (b1 := {| binding_id := binding_id b;
                  keys := JsMap.set device customKey (keys b) |}).
    destruct (IH (JsMap.set bindingName b1 bindings))
      as (bs' & -> & Hnames & Hdev' & Hplain' & Hids & Hkeys).
    { done. }
    { apply set_Forall; [done|]. cbn. apply set_NoDup.
      apply (get_Forall _ _ _ _ Hdev Hb). }
    { apply set_Forall; [done|]. cbn. apply set_Forall; [|done].
      apply (get_Forall _ _ _ _ Hplain Hb). }
    { rewrite get_set_eq. eauto. }
    exists bs'. split; [done|]. split; [|split; [done|split; [done|split]]].
    + rewrite Hnames, set_keys. rewrite decide_True; [done|].
      destruct (decide (bindingName ∈ bindings.*1)) as [|Hnin]; [done|].
      apply get_None in Hnin. congruence.
    + intros n. rewrite Hids. destruct (decide (bindingName = n)) as [<-|Hne].
      * by rewrite get_set_eq, Hb.
      * by rewrite get_set_ne.
    + intros n d. rewrite Hkeys. cbn [foldl]. f_equal.
      unfold key_of. destruct (decide (bindingName = n)) as [<-|Hne].
      * rewrite get_set_eq, Hb. cbn.
        destruct (decide (device = d)) as [<-|Hd].
        -- rewrite get_set_eq. by rewrite decide_True.
        -- rewrite get_set_ne by done. rewrite decide_False; [done|]. by intros [_ ?].
      * rewrite get_set_ne by done. rewrite decide_False; [done|]. by intros [? _].
Qed.

Lemma override_all_spec customControls : ∀ bindings,
  plain_controls customControls →
  devices_unique bindings → plain_keys bindings →
  Forall (λ entry, is_Some (JsMap.get entry.1 bindings)) customControls →
  ∃ bindings',
    override_all customControls bindings = Ok bindings'
    ∧ bindings'.*1 = bindings.*1
    ∧ devices_unique bindings' ∧ plain_keys bindings'
    ∧ (∀ n, binding_id <$> JsMap.get n bindings' = binding_id <$> JsMap.get n bindings)
    ∧ ∀ n d, key_of n d bindings'
             = foldl (λ current entry,
                        foldl (λ current dk,
                                 if decide (entry.1 = n ∧ dk.1 = d)
                                 then Some dk.2 else current)
                          current entry.2)
                 (key_of n d bindings) customControls.
Proof.
  induction customControls as [|[name custom] customControls IH];
    intros bindings Hcustom Hdev Hplain Hknown.
  - exists bindings. done.
  - apply Forall_cons in Hknown as [Hname Hknown]. cbn in Hname.
    apply Forall_cons in Hcustom as [Hc Hcustom]. cbn in Hc.
    destruct (override_keys_spec name custom bindings Hc Hdev Hplain Hname)
      as (bs1 & Hbs1 & Hnames1 & Hdev1 & Hplain1 & Hids1 & Hkeys1).
    destruct (IH bs1 Hcustom Hdev1 Hplain1)
      as (bs' & Hbs' & Hnames & Hdev' & Hplain' & Hids & Hkeys).
    { eapply Forall_impl; [exact Hknown|]. intros [n c] [b Hb]. cbn in *.
      specialize (Hids1 n). rewrite Hb in Hids1.
      destruct (JsMap.get n bs1); [eauto|done]. }
    exists bs'. cbn [override_all]. rewrite Hbs1. cbn. split; [done|].
    split; [congruence|]. split; [done|]. split; [done|]. split.
    + intros n. by rewrite Hids, Hids1.
    + intros n d. rewrite Hkeys. cbn [foldl]. by rewrite Hkeys1.
Qed.

Lemma key_of_elem bindings n d key :
  NoDup bindings.*1 → devices_unique bindings →
  key_of n d bindings = Some key
  ↔ ∃ b, (n, b) ∈ bindings ∧ (d, key) ∈ keys b.
Proof.
  intros Hnd Hdev. unfold key_of. split.
  - destruct (JsMap.get n bindings) as [b|] eqn:Hb; [|done]. cbn.
    intros Hk. exists b. split; by apply get_Some_elem.
  - intros (b & Hb & Hk). rewrite (elem_get _ _ _ Hnd Hb). cbn.
    apply elem_get; [|done].
    by apply (proj1 (Forall_forall _ _) Hdev (n, b)).
Qed.

(** X16: when every custom binding is named after a binding of
    [Bindings] (and no custom device is [__proto__], no custom key the
    name of a member of [Object.prototype]), [registerBindings] succeeds
    and rebuilds the index from the keys in force: the actions listed
    under a key are the identifiers of exactly the bindings whose key on
    some device, the default one or the last custom key given for that
    binding and device, is this key.  The entities and the registry are
    left as they were. *)
Theorem registerBindings_indexes_keys_in_force
    (customControls : list (string * list (string * string))) (c : t)
    (key : string) (a : Z) :
  Forall (λ entry, is_Some (JsMap.get entry.1 Bindings)) customControls →
  plain_controls customControls →
  ∃ c', registerBindings customControls c = Ok c'
    ∧ heap c' = heap c
    ∧ registeredEntities c' = registeredEntities c
    ∧ (a ∈ getActionList key c'
       ↔ ∃ bindingName b0 device,
           JsMap.get bindingName Bindings = Some b0 ∧ binding_id b0 = a
           ∧ effective_key bindingName device customControls = Some key).
Proof.
  intros Hknown Hcustom.
  destruct (override_all_spec customControls Bindings Hcustom
              Bindings_devices_unique Bindings_plain_keys Hknown)
    as (bs & Hbs & Hnames & Hdev & Hplain & Hids & Hkeys).
  assert (Hnd : NoDup bs.*1) by (rewrite Hnames; apply Bindings_names_unique).
  assert (Hall : Forall (λ entry, is_Some (JsMap.get entry.1 Bindings)) bs).
  { apply Forall_forall. intros [n b] Hin. cbn.
    destruct (JsMap.get n Bindings) eqn:Hn; [eauto|].
    apply get_None in Hn. rewrite <- Hnames in Hn. exfalso. apply Hn.
    apply list_elem_of_fmap. by exists (n, b). }
  destruct (bind_all_known bs ∅ Hall Hplain) as (ba & Hba).
  unfold registerBindings. rewrite Hbs. cbn. unfold generateBoundActions.
  rewrite Hba. cbn. eexists. split; [done|]. split; [done|]. split; [done|].
  unfold getActionList. cbn.
  rewrite (bind_all_actions _ _ _ key a Hba), lookup_empty. cbn. split.
  - intros [Hin|(n & b & d & b0 & Hin & Hk & Hb0 & <-)].
    { by apply elem_of_nil in Hin. }
    exists n, b0, d. split; [done|]. split; [done|].
    unfold effective_key. rewrite <- Hkeys. apply key_of_elem; eauto.
  - intros (n & b0 & d & Hb0 & <- & Heff). right.
    unfold effective_key in Heff. rewrite <- Hkeys in Heff.
    apply key_of_elem in Heff as (b & Hin & Hk); [|done..].
    exists n, b, d, b0. done.
Qed.

Lemma registerBindings_indexes_keys_in_force_witness :
  ∃ c', registerBindings [("FORWARD", [("keyboard", "38")])] sample = Ok c'
    ∧ heap c' = heap sample
    ∧ registeredEntities c' = registeredEntities sample
    ∧ (5 ∈ getActionList "38" c'
       ↔ ∃ bindingName b0 device,
           JsMap.get bindingName Bindings = Some b0 ∧ binding_id b0 = 5
           ∧ effective_key bindingName device [("FORWARD", [("keyboard", "38")])]
             = Some "38").
Proof.
  apply (registerBindings_indexes_keys_in_force
           [("FORWARD", [("keyboard", "38")])] sample "38" 5).
  - vm_compute. repeat (constructor; [eexists; reflexivity|]). constructor.
  - repeat constructor; done.
Defined.

(** Rebinding FORWARD from key 87 to key 38 on the keyboard. *)
Example rebind_forward :
  getActionList "38" <$> registerBindings [("FORWARD", [("keyboard", "38")])] sample
  = Ok [5]
  ∧ getActionList "87" <$> registerBindings [("FORWARD", [("keyboard", "38")])] sample
    = Ok []
  ∧ registerBindings [("JUMP", [("keyboard", "32")])] sample = Throw TypeError.
Proof. repeat split; vm_compute; reflexivity. Qed.

End BindingFacts.

Module DispatchFacts.
Import Js ControlsDispatch JsMapFacts EntityBehaviour.

Lemma iter_drive_uuid n a v d e :
  uuid (Nat.iter n (drive a v d) e) = uuid e.
Proof. induction n as [|n IH]; [done|]. by cbn. Qed.

Lemma iter_drive_device n a v d e :
  (0 < n)%nat → inputDevice (Nat.iter n (drive a v d) e) = d.
Proof. destruct n; [lia|done]. Qed.

Lemma iter_drive_force_eq n a v d e :
  (0 < n)%nat → Entity.getForce a (input (Nat.iter n (drive a v d) e)) = v.
Proof. destruct n; [lia|]. intros _. cbn. apply getForce_setAction_eq. Qed.

Lemma iter_drive_force_ne n a b v d e :
  b ≠ a →
  Entity.getForce b (input (Nat.iter n (drive a v d) e)) = Entity.getForce b (input e).
Proof.
  intros Hb. induction n as [|n IH]; [done|].
  cbn. by rewrite getForce_setAction_ne.
Qed.

Lemma iter_drive_force_keep n a b v d e :
  Entity.getForce b (input e) = v →
  Entity.getForce b (input (Nat.iter n (drive a v d) e)) = v.
Proof.
  intros Hv. destruct (decide (b = a)) as [->|Hb].
  - destruct n; [done|]. apply iter_drive_force_eq. lia.
  - by rewrite iter_drive_force_ne.
Qed.

(** One pass of [registeredEntities.forEach] drives an entity once for
    every registry entry that refers to it. *)
Lemma drive_all_lookup v d a r registered : ∀ h,
  drive_all v d registered h a !! r
  = Nat.iter (references r registered) (drive a v d) <$> h !! r.
Proof.
  unfold drive_all, references.
  induction registered as [|[u r'] registered IH]; intros h; cbn [foldl].
  - cbn. by destruct (h !! r).
  - rewrite IH, filter_cons. cbn [snd]. destruct (decide (r' = r)) as [->|Hne].
    + rewrite lookup_alter_eq. cbn [length].
      destruct (h !! r) as [e|]; [|done]. cbn [fmap option_fmap option_map].
      by rewrite Nat.iter_succ_r.
    + by rewrite lookup_alter_ne.
Qed.

Lemma foldl_drive_all_lookup v d r registered actionList : ∀ h,
  foldl (drive_all v d registered) h actionList !! r
  = driven (references r registered) v d actionList <$> h !! r.
Proof.
  unfold driven.
  induction actionList as [|a actionList IH]; intros h; cbn [foldl].
  - by destruct (h !! r).
  - rewrite IH, drive_all_lookup. by destruct (h !! r).
Qed.

Lemma dispatch_lookup key v d c r :
  heap (dispatch key v d c) !! r
  = driven (references r (registeredEntities c)) v d (getActionList key c)
      <$> heap c !! r.
Proof. apply foldl_drive_all_lookup. Qed.

(** A call of [setActions] leaves the state, runs the loop, or ends in a
    [TypeError] before the loop. *)
Lemma setActions_cases key v d c :
  setActions key v d c = Ok c
  ∨ setActions key v d c = Ok (dispatch key v d c)
  ∨ setActions key v d c = Throw TypeError.
Proof.
  unfold setActions. destruct (negb (controlsEnabled c)); [by left|].
  destruct (_ && _); [by right; right|by right; left].
Qed.

Lemma setActions_bound key v d c a :
  controlsEnabled c = true → a ∈ getActionList key c →
  setActions key v d c = Ok (dispatch key v d c).
Proof.
  intros Hon Ha. unfold setActions. rewrite Hon. cbn.
  unfold getActionList in Ha. destruct (boundActions c !! key) eqn:Hk.
  - rewrite bool_decide_eq_false_2 by done. by rewrite andb_false_r.
  - by apply elem_of_nil in Ha.
Qed.

Lemma listener_setActions key v d c :
  listener (setActions key v d c) c = c
  ∨ listener (setActions key v d c) c = dispatch key v d c.
Proof.
  destruct (setActions_cases key v d c) as [-> | [-> | ->]]; cbn; auto.
Qed.

Lemma driven_uuid n v d actionList : ∀ e,
  uuid (driven n v d actionList e) = uuid e.
Proof.
  unfold driven. induction actionList as [|a actionList IH]; intros e; [done|].
  cbn [foldl]. by rewrite IH, iter_drive_uuid.
Qed.

Lemma driven_force_other n v d actionList b : ∀ e,
  b ∉ actionList →
  Entity.getForce b (input (driven n v d actionList e)) = Entity.getForce b (input e).
Proof.
  unfold driven. induction actionList as [|a actionList IH]; intros e Hb; [done|].
  apply not_elem_of_cons in Hb as [Hne Hb].
  cbn [foldl]. rewrite IH by done. by apply iter_drive_force_ne.
Qed.

Lemma driven_force_keep n v d actionList b : ∀ e,
  Entity.getForce b (input e) = v →
  Entity.getForce b (input (driven n v d actionList e)) = v.
Proof.
  unfold driven. induction actionList as [|a actionList IH]; intros e Hv; [done|].
  cbn [foldl]. apply IH. by apply iter_drive_force_keep.
Qed.

Lemma driven_force n v d actionList a : ∀ e,
  (0 < n)%nat → a ∈ actionList →
  Entity.getForce a (input (driven n v d actionList e)) = v.
Proof.
  induction actionList as [|a' actionList IH]; intros e Hn Ha.
  { by apply elem_of_nil in Ha. }
  destruct (decide (a = a')) as [<-|Hne].
  - change (driven n v d (a :: actionList) e)
      with (driven n v d actionList (Nat.iter n (drive a v d) e)).
    apply driven_force_keep. by apply iter_drive_force_eq.
  - apply elem_of_cons in Ha as [?|Ha]; [done|].
    change (driven n v d (a' :: actionList) e)
      with (driven n v d actionList (Nat.iter n (drive a' v d) e)).
    by apply IH.
Qed.

Lemma driven_device n v d actionList : ∀ e,
  (0 < n)%nat → actionList ≠ [] →
  inputDevice (driven n v d actionList e) = d.
Proof.
  induction actionList as [|a actionList IH] using rev_ind; intros e Hn Hne; [done|].
  unfold driven. rewrite foldl_app. cbn [foldl]. by apply iter_drive_device.
Qed.

Lemma driven_unreferenced v d actionList e : driven 0 v d actionList e = e.
Proof. unfold driven. induction actionList as [|a actionList IH]; [done|]. by cbn. Qed.

Lemma references_pos u r registered :
  (u, r) ∈ registered → (0 < references r registered)%nat.
Proof.
  intros Hin. unfold references.
  assert (Hf : (u, r) ∈ filter (λ entry : string * nat, entry.2 = r) registered).
  { by apply list_elem_of_filter. }
  destruct (filter _ registered); [by apply elem_of_nil in Hf|cbn; lia].
Qed.

Lemma references_zero r registered :
  r ∉ registered.*2 → references r registered = 0%nat.
Proof.
  intros Hnin. unfold references.
  destruct (filter _ registered) as [|[u r'] l] eqn:Hf; [done|].
  assert (Hin : (u, r') ∈ filter (λ entry : string * nat, entry.2 = r) registered).
  { rewrite Hf. left. }
  apply list_elem_of_filter in Hin as [Heq Hin]. cbn in Heq. subst r'.
  exfalso. apply Hnin. apply list_elem_of_fmap. by exists (u, r).
Qed.

(** X17: with the controls enabled, a key event reaches every registered
    entity: each action bound to the key then has the event's value as its
    force, the entity's input device is the event's, and the force of
    every action not bound to the key is as before. *)
Theorem setActions_drives_registered
    (c : t) (key : string) (v : number) (d : string) (a : Z)
    (u : string) (r : nat) (e : Player) :
  controlsEnabled c = true →
  a ∈ getActionList key c →
  (u, r) ∈ registeredEntities c →
  heap c !! r = Some e →
  ∃ c' e', setActions key v d c = Ok c'
    ∧ heap c' !! r = Some e'
    ∧ uuid e' = uuid e
    ∧ inputDevice e' = d
    ∧ Entity.getForce a (input e') = v
    ∧ ∀ b, b ∉ getActionList key c →
        Entity.getForce b (input e') = Entity.getForce b (input e).
Proof.
  intros Hon Ha Hreg He.
  pose proof (references_pos _ _ _ Hreg) as Hn.
  rewrite (setActions_bound key v d c a Hon Ha).
  eexists _, _. split; [done|].
  rewrite dispatch_lookup, He. cbn. split; [done|].
  split; [apply driven_uuid|]. split.
  { apply driven_device; [done|]. intros Hnil. rewrite Hnil in Ha.
    by apply elem_of_nil in Ha. }
  split; [by apply driven_force|].
  intros b Hb. by apply driven_force_other.
Qed.

Lemma setActions_drives_registered_witness :
  ∃ c' e', setActions "axes1" (Q2Qc (1#2)) "controller" sample = Ok c'
    ∧ heap c' !! 0%nat = Some e'
    ∧ uuid e' = uuid (new_player "p0")
    ∧ inputDevice e' = "controller"
    ∧ Entity.getForce 5 (input e') = Q2Qc (1#2)
    ∧ ∀ b, b ∉ getActionList "axes1" sample →
        Entity.getForce b (input e') = Entity.getForce b (input (new_player "p0")).
Proof.
  apply (setActions_drives_registered sample "axes1" (Q2Qc (1#2)) "controller" 5 "p0" 0).
  - reflexivity.
  - vm_compute. right. left.
  - left.
  - reflexivity.
Defined.

(** ** What input does not touch *)

Lemma dispatch_unregistered key v d c r :
  r ∉ (registeredEntities c).*2 →
  heap (dispatch key v d c) !! r = heap c !! r.
Proof.
  intros Hr. rewrite dispatch_lookup, references_zero by done.
  destruct (heap c !! r); [|done]. cbn. by rewrite driven_unreferenced.
Qed.

Lemma handle_registry c ev :
  registeredEntities (handle c ev) = registeredEntities c
  ∧ engine (handle c ev) = engine c.
Proof.
  assert (Hset : ∀ key v d,
    registeredEntities (listener (setActions key v d c) c) = registeredEntities c
    ∧ engine (listener (setActions key v d c) c) = engine c).
  { intros key v d. by destruct (listener_setActions key v d c) as [-> | ->]. }
  destruct ev; cbn [handle]; try apply Hset; [done|].
  unfold disable. destruct (engine c) as [[p|]|] eqn:He; by rewrite ?He.
Qed.

Lemma handle_unregistered c ev r :
  r ∉ (registeredEntities c).*2 → engine c ≠ Some (Some r) →
  heap (handle c ev) !! r = heap c !! r.
Proof.
  intros Hr Hmain.
  assert (Hset : ∀ key v d,
    heap (listener (setActions key v d c) c) !! r = heap c !! r).
  { intros key v d. destruct (listener_setActions key v d c) as [-> | ->]; [done|].
    by apply dispatch_unregistered. }
  destruct ev; cbn [handle]; try apply Hset; [done|].
  unfold disable. destruct (engine c) as [[p|]|]; [|done..].
  cbn. rewrite lookup_alter_ne; [done|]. congruence.
Qed.

Lemma events_unregistered evs : ∀ c r,
  r ∉ (registeredEntities c).*2 → engine c ≠ Some (Some r) →
  heap (foldl handle c evs) !! r = heap c !! r.
Proof.
  induction evs as [|ev evs IH]; intros c r Hr Hmain; [done|].
  cbn [foldl]. destruct (handle_registry c ev) as [Hreg Heng].
  rewrite IH by (by rewrite ?Hreg, ?Heng).
  by apply handle_unregistered.
Qed.

(** X18: an entity that is not in the registry and is not the main
    player is never touched by the dispatcher: after any sequence of key,
    mouse and controller events and of enable and disable calls it is as
    it was. *)
Theorem unregistered_entity_is_never_driven (c : t) (r : nat) (evs : list event) :
  r ∉ (registeredEntities c).*2 →
  engine c ≠ Some (Some r) →
  heap (foldl handle c evs) !! r = heap c !! r.
Proof. apply events_unregistered. Qed.

Lemma unregistered_entity_is_never_driven_witness :
  heap (foldl handle sample
          [KeyDown 87; ControllerInput "axes1" (Q2Qc (1#2)); Disable; Enable; KeyUp 87])
    !! 1%nat
  = heap sample !! 1%nat.
Proof.
  apply (unregistered_entity_is_never_driven sample 1).
  - vm_compute. intros Hin. apply list_elem_of_singleton in Hin. discriminate.
  - discriminate.
Defined.

(** ** Disabled controls *)

Lemma disabled_input c ev :
  controlsEnabled c = false → is_input ev = true → handle c ev = c.
Proof.
  intros Hoff Hin. destruct ev; try done; cbn [handle]; unfold setActions;
    by rewrite Hoff.
Qed.

Lemma disabled_inputs evs : ∀ c,
  controlsEnabled c = false → Forall (λ ev, is_input ev = true) evs →
  foldl handle c evs = c.
Proof.
  induction evs as [|ev evs IH]; intros c Hoff Hall; [done|].
  apply Forall_cons in Hall as [Hev Hall].
  cbn [foldl]. rewrite disabled_input by done. by apply IH.
Qed.

Lemma clearInput_force a e : Entity.getForce a (Entity.clearInput e) = 0%Qc.
Proof. unfold Entity.getForce, Entity.clearInput. cbn. by rewrite lookup_empty. Qed.

(** X19: when there is an engine, [disable] releases every action of
    the main player, and no key, mouse or controller event that arrives
    afterwards changes anything until [enable] is called.  Without an
    engine, [disable] does nothing: the controls stay as they were. *)
Theorem disable_releases_and_blocks_input (c : t) (evs : list event) :
  Forall (λ ev, is_input ev = true) evs →
  (engine c = None → disable c = c)
  ∧ (is_Some (engine c) →
       foldl handle (disable c) evs = disable c
       ∧ ∀ p e, engine c = Some (Some p) → heap c !! p = Some e →
           ∃ e', heap (foldl handle (disable c) evs) !! p = Some e'
             ∧ ∀ a, Entity.getForce a (input e') = 0%Qc).
Proof.
  intros Hall. split.
  { unfold disable. by intros ->. }
  intros [mainPlayer Heng].
  assert (Hoff : controlsEnabled (disable c) = false).
  { unfold disable. rewrite Heng. by destruct mainPlayer. }
  rewrite disabled_inputs by done. split; [done|].
  intros p e Hp He. rewrite Heng in Hp. injection Hp as ->.
  unfold disable. rewrite Heng. cbn. rewrite lookup_alter_eq, He. cbn.
  eexists. split; [done|]. intros a. apply clearInput_force.
Qed.

Lemma disable_releases_and_blocks_input_witness :
  let c := foldl handle sample [KeyDown 87] in
  let evs := [KeyDown 83; ControllerInput "axes1" 1%Qc; KeyUp 87] in
  (engine c = None → disable c = c)
  ∧ (is_Some (engine c) →
       foldl handle (disable c) evs = disable c
       ∧ ∀ p e, engine c = Some (Some p) → heap c !! p = Some e →
           ∃ e', heap (foldl handle (disable c) evs) !! p = Some e'
             ∧ ∀ a, Entity.getForce a (input e') = 0%Qc).
Proof.
  intros c evs. apply (disable_releases_and_blocks_input c evs).
  repeat constructor.
Defined.

(** ** The registry *)

Lemma handle_keeps_uuid c ev r e :
  heap c !! r = Some e →
  ∃ e', heap (handle c ev) !! r = Some e' ∧ uuid e' = uuid e.
Proof.
  intros He.
  assert (Hset : ∀ key v d,
    ∃ e', heap (listener (setActions key v d c) c) !! r = Some e' ∧ uuid e' = uuid e).
  { intros key v d. destruct (listener_setActions key v d c) as [-> | ->]; [by eauto|].
    rewrite dispatch_lookup, He. cbn. eexists. split; [done|].
    apply driven_uuid. }
  destruct ev; cbn [handle]; try apply Hset; [by eauto|].
  unfold disable. destruct (engine c) as [[p|]|]; cbn; [|by eauto..].
  destruct (decide (p = r)) as [->|Hne].
  - rewrite lookup_alter_eq, He. cbn. eauto.
  - rewrite lookup_alter_ne by done. eauto.
Qed.

Lemma registry_ok_perform c o : registry_ok c → registry_ok (perform c o).
Proof.
  intros [Hnd Hreg]. destruct o as [r|r|ev]; cbn [perform].
  - unfold registerEntity. destruct (heap c !! r) as [e|] eqn:He; cbn.
    + split; [by apply set_NoDup|]. intros u r' Hin.
      apply elem_of_set in Hin as [[= -> ->]|Hin]; [eauto|by apply Hreg].
    + by split.
  - unfold unregisterEntity. destruct (heap c !! r) as [e|] eqn:He; cbn.
    + split; [by apply delete_NoDup|]. intros u r' Hin.
      apply elem_of_delete in Hin as [Hne Hin].
      destruct (Hreg u r' Hin) as (e' & He' & Hu).
      destruct (decide (r' = r)) as [->|Hr].
      * cbn. rewrite lookup_insert_eq. eexists. split; [done|]. cbn. congruence.
      * cbn. rewrite lookup_insert_ne by done. eauto.
    + by split.
  - destruct (handle_registry c ev) as [Hr _]. split; [by rewrite Hr|].
    rewrite Hr. intros u r Hin. destruct (Hreg u r Hin) as (e & He & Hu).
    destruct (handle_keeps_uuid c ev r e He) as (e' & He' & Hu').
    exists e'. split; [done|congruence].
Qed.

Lemma registry_ok_run os : ∀ c, registry_ok c → registry_ok (foldl perform c os).
Proof.
  induction os as [|o os IH]; intros c Hc; [done|].
  cbn [foldl]. by apply IH, registry_ok_perform.
Qed.

(** X20: starting from an empty registry, whatever entities are
    registered and unregistered and whatever events arrive in between, the
    registry has one entry per uuid, and every entry leads to an entity
    that carries that uuid. *)
Theorem registry_stays_consistent (c : t) (os : list call) :
  registeredEntities c = [] →
  NoDup (registeredEntities (foldl perform c os)).*1
  ∧ ∀ u r, (u, r) ∈ registeredEntities (foldl perform c os) →
      ∃ e, heap (foldl perform c os) !! r = Some e ∧ uuid e = u.
Proof.
  intros Hempty. apply registry_ok_run. split; rewrite Hempty.
  - constructor.
  - intros u r Hin. by apply elem_of_nil in Hin.
Qed.

Lemma registry_stays_consistent_witness :
  let c := with_registered [] sample in
  let os := [Register 0; Input (KeyDown 87); Register 1; Unregister 0] in
  NoDup (registeredEntities (foldl perform c os)).*1
  ∧ ∀ u r, (u, r) ∈ registeredEntities (foldl perform c os) →
      ∃ e, heap (foldl perform c os) !! r = Some e ∧ uuid e = u.
Proof.
  intros c os. apply (registry_stays_consistent c os). reflexivity.
Defined.

(** X21: unregistering an entity of a consistent registry removes its
    entry, releases its input, and cuts it off: unless it is the main
    player, no later event changes it. *)
Theorem unregisterEntity_cuts_off_input
    (c : t) (r : nat) (e : Player) (evs : list event) :
  registry_ok c →
  heap c !! r = Some e →
  engine c ≠ Some (Some r) →
  (unregisterEntity r c).2 = Ok ()
  ∧ JsMap.get (uuid e) (registeredEntities (unregisterEntity r c).1) = None
  ∧ heap (foldl handle (unregisterEntity r c).1 evs) !! r = Some (clear e)
  ∧ ∀ a, Entity.getForce a (input (clear e)) = 0%Qc.
Proof.
  intros [Hnd Hreg] He Hmain. unfold unregisterEntity. rewrite He. cbn [fst snd].
  split; [done|]. split; [apply get_delete_eq|]. split.
  - rewrite events_unregistered.
    + cbn. by rewrite lookup_insert_eq.
    + cbn. intros Hin. apply list_elem_of_fmap in Hin as ([u r'] & Hr & Hin).
      cbn in Hr. subst r'. apply elem_of_delete in Hin as [Hne Hin].
      destruct (Hreg u r Hin) as (e' & He' & Hu). cbn in Hne. congruence.
    + done.
  - intros a. apply clearInput_force.
Qed.

Lemma unregisterEntity_cuts_off_input_witness :
  let c := with_registered [("p0", 0%nat); ("p1", 1%nat)] sample in
  let evs := [KeyDown 87; KeyUp 87] in
  (unregisterEntity 1 c).2 = Ok ()
  ∧ JsMap.get (uuid (new_player "p1")) (registeredEntities (unregisterEntity 1 c).1) = None
  ∧ heap (foldl handle (unregisterEntity 1 c).1 evs) !! 1%nat
    = Some (clear (new_player "p1"))
  ∧ ∀ a, Entity.getForce a (input (clear (new_player "p1"))) = 0%Qc.
Proof.
  intros c evs. apply (unregisterEntity_cuts_off_input c 1 (new_player "p1") evs).
  - split.
    + refine (bool_decide_unpack _ _). by vm_compute.
    + intros u r Hin. apply elem_of_cons in Hin as [[= -> ->]|Hin].
      { by exists (new_player "p0"). }
      apply list_elem_of_singleton in Hin as [= -> ->].
      by exists (new_player "p1").
  - reflexivity.
  - discriminate.
Defined.

(** X22: registering an entity under a fresh uuid and unregistering it
    again gives the registry back as it was, with the entity's input
    released; and registering an entity makes the next key event reach
    it. *)
Theorem register_unregister_round_trip
    (c : t) (r : nat) (e : Player) (key : string) (v : number) (d : string) (a : Z) :
  heap c !! r = Some e →
  (JsMap.get (uuid e) (registeredEntities c) = None →
     registeredEntities (unregisterEntity r (registerEntity r c).1).1
     = registeredEntities c)
  ∧ (controlsEnabled c = true → a ∈ getActionList key c →
       ∃ c' e', setActions key v d (registerEntity r c).1 = Ok c'
         ∧ heap c' !! r = Some e'
         ∧ Entity.getForce a (input e') = v).
Proof.
  intros He. unfold registerEntity. rewrite He. cbn [fst]. split.
  - intros Hfresh. unfold unregisterEntity. cbn. rewrite He. cbn.
    by apply delete_set_fresh.
  - intros Hon Ha.
    rewrite (setActions_bound key v d _ a) by done.
    eexists _, _. split; [done|].
    rewrite dispatch_lookup. cbn. rewrite He. cbn.
    split; [done|]. apply driven_force; [|done].
    apply (references_pos (uuid e)).
    clear. induction (registeredEntities c) as [|[k' v'] m IH]; cbn.
    + left.
    + destruct (decide (k' = uuid e)); [left|by right].
Qed.

Lemma register_unregister_round_trip_witness :
  (JsMap.get (uuid (new_player "p1")) (registeredEntities sample) = None →
     registeredEntities (unregisterEntity 1 (registerEntity 1 sample).1).1
     = registeredEntities sample)
  ∧ (controlsEnabled sample = true → 5 ∈ getActionList "87" sample →
       ∃ c' e', setActions "87" 1%Qc "keyboard" (registerEntity 1 sample).1 = Ok c'
         ∧ heap c' !! 1%nat = Some e'
         ∧ Entity.getForce 5 (input e') = 1%Qc).
Proof.
  apply (register_unregister_round_trip sample 1 (new_player "p1")
           "87" 1%Qc "keyboard" 5).
  reflexivity.
Defined.

End DispatchFacts.

Module PointerLockFacts.
Import PointerLock.

Lemma step_forced b c o :
  is_force o = false → pointerLockState c = Some b →
  pointerLockState (step c o) = Some b
  ∧ ∃ made, calls (step c o) = calls c ++ made
            ∧ Forall (λ d, d = allowed b) made.
Proof.
  intros Ho Hb.
  assert (Hreq : pointerLockState (requestPointerLock c) = Some b
    ∧ ∃ made, calls (requestPointerLock c) = calls c ++ made
              ∧ Forall (λ d, d = allowed b) made).
  { unfold requestPointerLock. rewrite Hb. destruct b.
    - rewrite decide_False by done. destruct (renderer c); cbn.
      + split; [done|]. exists [RequestPointerLock]. by repeat constructor.
      + split; [done|]. exists []. by rewrite app_nil_r.
    - rewrite decide_True by done. split; [done|]. exists []. by rewrite app_nil_r. }
  destruct o as [s| | |onCanvas|present]; cbn [step]; [done|done| | |].
  - unfold exitPointerLock. rewrite Hb. destruct b.
    + rewrite decide_True by done. split; [done|]. exists []. by rewrite app_nil_r.
    + rewrite decide_False by done. cbn. split; [done|].
      exists [ExitPointerLock]. by repeat constructor.
  - unfold onMouseClick. destruct (renderer c && onCanvas); [done|].
    split; [done|]. exists []. by rewrite app_nil_r.
  - cbn. split; [done|]. exists []. by rewrite app_nil_r.
Qed.

Lemma run_forced b ops : ∀ c,
  Forall (λ o, is_force o = false) ops → pointerLockState c = Some b →
  ∃ made, calls (foldl step c ops) = calls c ++ made
          ∧ Forall (λ d, d = allowed b) made.
Proof.
  induction ops as [|o ops IH]; intros c Hops Hb.
  { exists []. by rewrite app_nil_r. }
  apply Forall_cons in Hops as [Ho Hops].
  destruct (step_forced b c o Ho Hb) as (Hb' & made1 & Hc1 & Hm1).
  destruct (IH (step c o) Hops Hb') as (made2 & Hc2 & Hm2).
  exists (made1 ++ made2). cbn [foldl]. rewrite Hc2, Hc1, <- app_assoc.
  split; [done|]. by apply Forall_app.
Qed.

(** X23: a forced pointer lock state holds until the next
    [forcePointerLockState]: forcing [false] exits the lock at once and no
    click or request locks the pointer afterwards; forcing [true] requests
    the lock (when there is a renderer) and no exit call releases it
    afterwards. *)
Theorem forced_state_blocks_the_opposite_call
    (c : t) (b : bool) (ops : list op) :
  Forall (λ o, is_force o = false) ops →
  ∃ made,
    calls (foldl step (forcePointerLockState (Some b) c) ops) = calls c ++ made
    ∧ Forall (λ d, d = allowed b) made
    ∧ (b = false ∨ renderer c = true → head made = Some (allowed b)).
Proof.
  intros Hops.
  assert (Hforce : pointerLockState (forcePointerLockState (Some b) c) = Some b
    ∧ calls (forcePointerLockState (Some b) c)
      = calls c ++ (if negb b || renderer c then [allowed b] else [])).
  { unfold forcePointerLockState, requestPointerLock, exitPointerLock.
    destruct b; cbn.
    - destruct (renderer c); cbn; by rewrite ?app_nil_r.
    - done. }
  destruct Hforce as [Hb Hc].
  destruct (run_forced b ops _ Hops Hb) as (made & Hmade & Hall).
  eexists. rewrite Hmade, Hc, <- app_assoc. split; [done|]. split.
  - apply Forall_app. split; [|done]. destruct (negb b || renderer c); by repeat constructor.
  - intros [-> | ->]; cbn; [done|]. by rewrite orb_true_r.
Qed.

Lemma forced_state_blocks_the_opposite_call_witness :
  let c := {| pointerLockState := None; renderer := true; calls := [] |} in
  let ops := [Click true; Request; Exit; Renderer false; Click true] in
  ∃ made,
    calls (foldl step (forcePointerLockState (Some false) c) ops) = calls c ++ made
    ∧ Forall (λ d, d = allowed false) made
    ∧ (false = false ∨ renderer c = true → head made = Some (allowed false)).
Proof.
  intros c ops. apply (forced_state_blocks_the_opposite_call c false ops).
  repeat constructor.
Defined.

End PointerLockFacts.

Module EventsFacts.
Import Js Events JsMapFacts.

Lemma run_snoc ops o : run (ops ++ [o]) = step (run ops) o.
Proof. unfold run. by rewrite foldl_app. Qed.

Lemma live_snoc label ops o :
  live label (ops ++ [o]) = live_step label (live label ops) o.
Proof. unfold live. by rewrite foldl_app. Qed.

Lemma issued_snoc ops o : issued (ops ++ [o]) = issued ops ++ issued [o].
Proof. unfold issued. by rewrite omap_app. Qed.

Lemma labelled_snoc ops o : labelled (ops ++ [o]) = labelled ops ++ labelled [o].
Proof. unfold labelled. by rewrite omap_app. Qed.

Lemma live_not_issued ops ev label u :
  related ops ev → u ∉ issued ops → u ∉ (live label ops).*1.
Proof.
  intros Hrel Hu Hin. apply list_elem_of_fmap in Hin as ([u' cb] & -> & Hin).
  apply (related_uuids _ _ Hrel) in Hin.
  by apply (related_issued _ _ Hrel) in Hin as [? _].
Qed.

Lemma live_other_label ops ev label l u :
  related ops ev → JsMap.get u (registeredUUIDs ev) = Some l → label ≠ l →
  u ∉ (live label ops).*1.
Proof.
  intros Hrel Hu Hne Hin. apply list_elem_of_fmap in Hin as ([u' cb] & -> & Hin).
  apply (related_uuids _ _ Hrel) in Hin. cbn in Hu. congruence.
Qed.

Lemma related_run ops : NoDup (issued ops) → related ops (run ops).
Proof.
  induction ops as [|o ops IH] using rev_ind; intros Hnd.
  { split; cbn; try done.
    - intros label. split; [by intros [? ?]|]. intros Hin. by apply elem_of_nil in Hin.
    - intros label u cb Hin. by apply elem_of_nil in Hin. }
  rewrite issued_snoc in Hnd. apply NoDup_app in Hnd as (Hnd & Hfresh & _).
  specialize (IH Hnd). rewrite run_snoc.
  set (ev := run ops) in *.
  destruct o as [l [cb|] u|u]; cbn [step].
  - (* addListener with a callback *)
    unfold addListener. destruct (decide (l = "")) as [->|Hl]; cbn [fst].
    { destruct IH as [H1 H2 H3 H4]. split.
      - intros label. rewrite live_snoc. cbn. rewrite decide_False; [done|]. by intros [? _].
      - intros label. rewrite labelled_snoc. cbn. by rewrite app_nil_r.
      - intros u' label Hu. rewrite issued_snoc. cbn. rewrite app_nil_r. eauto.
      - intros label u' cb'. rewrite live_snoc. cbn.
        rewrite decide_False; [apply H4|]. by intros [? _]. }
    assert (Hu : u ∉ issued ops).
    { intros Hin. apply (Hfresh u Hin). cbn. rewrite decide_False by done. left. }
    split; cbn.
    + intros label. rewrite live_snoc. cbn.
      destruct (decide (l = label)) as [<-|Hne].
      * rewrite get_set_eq. cbn. rewrite decide_True by done.
        rewrite (related_listeners _ _ IH).
        apply set_fresh. by eapply live_not_issued.
      * rewrite get_set_ne by done. rewrite decide_False by (by intros [_ ?]).
        apply (related_listeners _ _ IH).
    + intros label. rewrite labelled_snoc. cbn. rewrite decide_False by done. cbn.
      rewrite elem_of_app, list_elem_of_singleton.
      destruct (decide (l = label)) as [<-|Hne].
      * rewrite get_set_eq. split; [by right|eauto].
      * rewrite get_set_ne by done. rewrite (related_labels _ _ IH).
        split; [by left|]. by intros [?| ->].
    + intros u' label. rewrite issued_snoc. cbn. rewrite decide_False by done. cbn.
      rewrite elem_of_app, list_elem_of_singleton.
      destruct (decide (u = u')) as [<-|Hne].
      * rewrite get_set_eq. intros [= <-]. split; [by right|done].
      * rewrite get_set_ne by done. intros Hg.
        apply (related_issued _ _ IH) in Hg as [? ?]. split; [by left|done].
    + intros label u' cb'. rewrite live_snoc. cbn.
      destruct (decide (l ≠ "" ∧ l = label)) as [[_ <-]|Hne].
      * rewrite elem_of_app, list_elem_of_singleton. intros [Hin|[= -> ->]].
        -- rewrite get_set_ne; [by apply (related_uuids _ _ IH) in Hin|].
           intros <-. apply (related_uuids _ _ IH) in Hin.
           by apply (related_issued _ _ IH) in Hin as [? _].
        -- by rewrite get_set_eq.
      * intros Hin. rewrite get_set_ne; [by apply (related_uuids _ _ IH) in Hin|].
        intros <-. apply (related_uuids _ _ IH) in Hin.
        by apply (related_issued _ _ IH) in Hin as [? _].
  - (* addListener without a callback *)
    cbn. destruct IH as [H1 H2 H3 H4]. split.
    + intros label. by rewrite live_snoc.
    + intros label. rewrite labelled_snoc. cbn. by rewrite app_nil_r.
    + intros u' label Hu. rewrite issued_snoc. cbn. rewrite app_nil_r. eauto.
    + intros label u' cb'. rewrite live_snoc. cbn. apply H4.
  - (* removeListener *)
    assert (Hkeep : ∀ label,
      (∀ l, JsMap.get u (registeredUUIDs ev) = Some l → label ≠ l) →
      filter (λ entry : string * Callback, entry.1 ≠ u) (live label ops)
      = live label ops).
    { intros label Hl. apply delete_absent.
      intros Hin. apply list_elem_of_fmap in Hin as ([u' cb] & -> & Hin).
      apply (related_uuids _ _ IH) in Hin. cbn in Hl. by apply (Hl label). }
    assert (Hsame : (∀ label,
        filter (λ entry : string * Callback, entry.1 ≠ u) (live label ops)
        = live label ops) → related (ops ++ [Remove u]) ev).
    { intros Hf. destruct IH as [H1 H2 H3 H4]. split.
      - intros label. rewrite live_snoc. cbn. by rewrite Hf.
      - intros label. rewrite labelled_snoc. cbn. by rewrite app_nil_r.
      - intros u' label Hu. rewrite issued_snoc. cbn. rewrite app_nil_r. eauto.
      - intros label u' cb'. rewrite live_snoc. cbn. rewrite Hf. apply H4. }
    unfold removeListener.
    destruct (JsMap.get u (registeredUUIDs ev)) as [l|] eqn:Hu; cbn [fst].
    2:{ apply Hsame. intros label. by apply Hkeep. }
    destruct (decide (l = "")) as [->|Hl]; cbn [fst].
    { by apply (related_issued _ _ IH) in Hu as [_ ?]. }
    destruct (JsMap.get l (registeredListeners ev)) as [listeners|] eqn:Hls; cbn [fst].
    2:{ apply Hsame. intros label. destruct (decide (label = l)) as [->|Hne].
        - pose proof (related_listeners _ _ IH l) as Hlive. rewrite Hls in Hlive.
          cbn in Hlive. by rewrite <- Hlive.
        - apply Hkeep. congruence. }
    pose proof (related_listeners _ _ IH l) as Hlive. rewrite Hls in Hlive.
    cbn in Hlive. subst listeners.
    split; cbn.
    + intros label. rewrite live_snoc. cbn.
      destruct (decide (l = label)) as [<-|Hne].
      * by rewrite get_set_eq.
      * rewrite get_set_ne by done. rewrite Hkeep by congruence.
        apply (related_listeners _ _ IH).
    + intros label. rewrite labelled_snoc. cbn. rewrite app_nil_r.
      rewrite <- (related_labels _ _ IH).
      destruct (decide (l = label)) as [<-|Hne].
      * rewrite get_set_eq, Hls. split; eauto.
      * by rewrite get_set_ne.
    + intros u' label Hg. rewrite issued_snoc. cbn. rewrite app_nil_r.
      by apply (related_issued _ _ IH).
    + intros label u' cb'. rewrite live_snoc. cbn. intros Hin.
      apply list_elem_of_filter in Hin as [_ Hin].
      by apply (related_uuids _ _ IH) in Hin.
Qed.

(** X24: after any history of [addListener] and [removeListener] calls in
    which [createUUID] never returned a UUID twice, [fireEvent] calls, with
    the event's data and in the order they were added, exactly the
    callbacks that were added for the label, have not been removed since
    and accept the context; it returns [false] only when the label never
    had a listener, and nothing ([undefined]) otherwise, also when every
    listener of the label has been removed again. *)
Theorem fireEvent_calls_the_live_listeners
    (ops : list op) (label : string) (data : value) (ctx : option nat) :
  NoDup (issued ops) →
  (fireEvent label data ctx (run ops)).2
  = (λ entry, (callback_id entry.2, data))
      <$> filter (λ entry, in_context ctx entry.2 = true) (live label ops)
  ∧ (fireEvent label data ctx (run ops)).1
    = (if bool_decide (label ∈ labelled ops) then VUndef else VBool false).
Proof.
  intros Hnd. pose proof (related_run ops Hnd) as Hrel.
  pose proof (related_listeners _ _ Hrel label) as Hlive.
  pose proof (related_labels _ _ Hrel label) as Hlab.
  unfold fireEvent.
  destruct (JsMap.get label (registeredListeners (run ops))) as [callbacks|]; cbn in *.
  - subst callbacks. split; [done|].
    rewrite bool_decide_eq_true_2; [done|]. apply Hlab. eauto.
  - rewrite <- Hlive. split; [done|].
    rewrite bool_decide_eq_false_2; [done|]. intros Hin. apply Hlab in Hin.
    by destruct Hin.
Qed.

Lemma fireEvent_calls_the_live_listeners_witness :
  let first := {| callback_id := 1; context := None |} in
  let second := {| callback_id := 2; context := Some 7%nat |} in
  let ops := [Add "reset" (Some first) "u1"; Add "reset" (Some second) "u2";
              Add "settings" (Some first) "u3"; Remove "u1"] in
  (fireEvent "reset" VNull (Some 7%nat) (run ops)).2
  = (λ entry, (callback_id entry.2, VNull))
      <$> filter (λ entry, in_context (Some 7%nat) entry.2 = true) (live "reset" ops)
  ∧ (fireEvent "reset" VNull (Some 7%nat) (run ops)).1
    = (if bool_decide ("reset" ∈ labelled ops) then VUndef else VBool false).
Proof.
  intros first second ops.
  apply (fireEvent_calls_the_live_listeners ops "reset" VNull (Some 7%nat)).
  refine (bool_decide_unpack _ _). by vm_compute.
Defined.

(** X25: under the same condition, [removeListener] returns [true]
    exactly for the UUID of a listener that is live, and takes that
    listener, and no other, out of the listeners of every label; for any
    other argument it returns [false] and changes nothing that
    [fireEvent] can see. *)
Theorem removeListener_removes_exactly_that_listener
    (ops : list op) (uuid label : string) :
  NoDup (issued ops) →
  ((removeListener uuid (run ops)).2 = true
   ↔ ∃ l, uuid ∈ (live l ops).*1)
  ∧ default [] (JsMap.get label
                  (registeredListeners (removeListener uuid (run ops)).1))
    = filter (λ entry, entry.1 ≠ uuid) (live label ops).
Proof.
  intros Hnd. split.
  - pose proof (related_run ops Hnd) as Hrel. unfold removeListener.
    destruct (JsMap.get uuid (registeredUUIDs (run ops))) as [l|] eqn:Hu; cbn [snd].
    2:{ split; [done|]. intros (l & Hin).
        apply list_elem_of_fmap in Hin as ([u cb] & -> & Hin).
        apply (related_uuids _ _ Hrel) in Hin. cbn in Hu. congruence. }
    destruct (decide (l = "")) as [->|Hl]; cbn [snd].
    { by apply (related_issued _ _ Hrel) in Hu as [_ ?]. }
    pose proof (related_listeners _ _ Hrel l) as Hlive.
    assert (Hiff : (∃ l', uuid ∈ (live l' ops).*1) ↔ uuid ∈ (live l ops).*1).
    { split; [|eauto]. intros (l' & Hin). destruct (decide (l' = l)) as [->|Hne]; [done|].
      by apply (live_other_label _ _ l' l uuid Hrel Hu) in Hin. }
    rewrite Hiff. clear Hiff.
    destruct (JsMap.get l (registeredListeners (run ops))) as [listeners|];
      cbn in Hlive; cbn [snd]; rewrite <- Hlive.
    + unfold JsMap.has. rewrite bool_decide_eq_true.
      rewrite <- (not_eq_None_Some (JsMap.get uuid listeners)), get_None.
      split; [apply dec_stable|]. by intros ? ?.
    + split; [done|]. intros Hin. by apply elem_of_nil in Hin.
  - assert (Hnd' : NoDup (issued (ops ++ [Remove uuid]))).
    { rewrite issued_snoc. cbn. by rewrite app_nil_r. }
    pose proof (related_listeners _ _ (related_run _ Hnd') label) as Hlive.
    by rewrite run_snoc, live_snoc in Hlive.
Qed.

Lemma removeListener_removes_exactly_that_listener_witness :
  let first := {| callback_id := 1; context := None |} in
  let ops := [Add "reset" (Some first) "u1"; Add "reset" (Some first) "u2"] in
  ((removeListener "u1" (run ops)).2 = true
   ↔ ∃ l, "u1" ∈ (live l ops).*1)
  ∧ default [] (JsMap.get "reset"
                  (registeredListeners (removeListener "u1" (run ops)).1))
    = filter (λ entry, entry.1 ≠ "u1") (live "reset" ops).
Proof.
  intros first ops.
  apply (removeListener_removes_exactly_that_listener ops "u1" "reset").
  refine (bool_decide_unpack _ _). by vm_compute.
Defined.

End EventsFacts.

Module SettingsFacts.
Import Js Settings JsMapFacts.

Lemma defaults_names_unique : NoDup DEFAULT_SETTINGS.*1.
Proof. refine (bool_decide_unpack _ _). by vm_compute. Qed.

Lemma defaults_defined key dv :
  JsMap.get key DEFAULT_SETTINGS = Some dv →
  is_undefined dv = false ∧ JsMap.inherited key = false.
Proof.
  intros Hg. apply get_Some_elem in Hg.
  assert (Hall : Forall (λ entry, is_undefined entry.2 = false
                                  ∧ JsMap.inherited entry.1 = false) DEFAULT_SETTINGS).
  { repeat constructor. }
  by apply (proj1 (Forall_forall _ _) Hall (key, dv)).
Qed.

#[local] Opaque DEFAULT_SETTINGS.

Lemma filter_ext_in {A} (P Q : A → Prop) `{∀ x, Decision (P x)} `{∀ x, Decision (Q x)}
    (l : list A) :
  (∀ x, x ∈ l → P x ↔ Q x) → filter P l = filter Q l.
Proof.
  induction l as [|x l IH]; intros Hext; [done|].
  rewrite !filter_cons.
  assert (Hx : P x ↔ Q x) by (apply Hext; left).
  rewrite IH by (intros y Hy; apply Hext; by right).
  destruct (decide (P x)), (decide (Q x)); tauto || done.
Qed.

Lemma filter_all {A} (P : A → Prop) `{∀ x, Decision (P x)} (l : list A) :
  (∀ x, x ∈ l → P x) → filter P l = l.
Proof.
  induction l as [|x l IH]; intros Hall; [done|].
  rewrite filter_cons, decide_True by (apply Hall; left).
  rewrite IH; [done|]. intros y Hy. apply Hall. by right.
Qed.

Lemma get_filter {V} (P : string → Prop) `{∀ k, Decision (P k)} key
    (m : list (string * V)) :
  JsMap.get key (filter (λ entry, P entry.1) m)
  = if decide (P key) then JsMap.get key m else None.
Proof.
  induction m as [|[k v] m IH]; [by destruct (decide (P key))|].
  rewrite filter_cons. cbn [fst JsMap.get].
  destruct (decide (P k)) as [Hk|Hk]; cbn [JsMap.get]; rewrite ?IH;
    destruct (decide (k = key)) as [->|Hne]; try done.
  - by destruct (decide (P key)).
  - by destruct (decide (P key)).
Qed.

(** The first loop keeps the properties that have a default (or an
    inherited name), in their order. *)
Lemma drop_unknown_spec ks : ∀ o ch,
  foldl drop_unknown (o, ch) ks
  = (filter (λ entry, ¬ (entry.1 ∈ ks ∧ undefined_in entry.1 DEFAULT_SETTINGS = true)) o,
     ch || bool_decide (Exists (λ key, undefined_in key DEFAULT_SETTINGS = true) ks)).
Proof.
  induction ks as [|k ks IH]; intros o ch; cbn [foldl].
  - f_equal.
    + symmetry. apply filter_all. intros x _ [Hin _].
      by apply elem_of_nil in Hin.
    + rewrite bool_decide_eq_false_2; [by rewrite orb_false_r|].
      by intros ?%Exists_nil.
  - unfold drop_unknown at 2. cbn [fst].
    destruct (undefined_in k DEFAULT_SETTINGS) eqn:Hk.
    + rewrite IH. f_equal.
      * unfold JsMap.delete. rewrite list_filter_filter.
        apply filter_ext_in. intros [k' v'] _. cbn. rewrite elem_of_cons.
        split.
        -- intros [Hno Hne] [[->|Hin] Hu]; [done|]. by apply Hno.
        -- intros Hno. split.
           ++ intros [Hin Hu]. apply Hno. split; [by right|done].
           ++ intros ->. apply Hno. split; [by left|done].
      * cbn. rewrite bool_decide_eq_true_2 by (by left). by rewrite orb_true_r.
    + rewrite IH. f_equal.
      * apply filter_ext_in. intros [k' v'] _. cbn. rewrite elem_of_cons.
        split.
        -- intros Hno [[->|Hin] Hu]; [congruence|]. by apply Hno.
        -- intros Hno [Hin Hu]. apply Hno. split; [by right|done].
      * f_equal. apply bool_decide_ext. rewrite Exists_cons. split; [by right|].
        intros [?|?]; [congruence|done].
Qed.

Lemma known_spec o :
  foldl drop_unknown (o, false) o.*1
  = (filter (λ entry : string * value, undefined_in entry.1 DEFAULT_SETTINGS = false) o,
     bool_decide (Exists (λ key, undefined_in key DEFAULT_SETTINGS = true) o.*1)).
Proof.
  rewrite drop_unknown_spec. cbn. f_equal.
  apply filter_ext_in. intros [k v] Hin. cbn. split.
  - intros Hno. destruct (undefined_in k DEFAULT_SETTINGS); [|done].
    exfalso. apply Hno. split; [|done]. apply list_elem_of_fmap. by exists (k, v).
  - intros Hu [_ ?]. congruence.
Qed.

Lemma get_known key obj :
  JsMap.get key (filter (λ entry : string * value,
                           undefined_in entry.1 DEFAULT_SETTINGS = false) obj)
  = if undefined_in key DEFAULT_SETTINGS then None else JsMap.get key obj.
Proof.
  pose proof (get_filter (λ k, undefined_in k DEFAULT_SETTINGS = false) key obj) as Hg.
  cbn beta in Hg. rewrite Hg. by destruct (undefined_in key DEFAULT_SETTINGS).
Qed.

Lemma undefined_in_get key o o' :
  JsMap.get key o' = JsMap.get key o → undefined_in key o' = undefined_in key o.
Proof. unfold undefined_in. by intros ->. Qed.

(** The second loop, on defaults with distinct names. *)
Lemma fill_default_get ds : ∀ o ch key,
  NoDup ds.*1 →
  JsMap.get key (foldl fill_default (o, ch) ds).1
  = match JsMap.get key ds with
    | Some dv => if undefined_in key o then Some dv else JsMap.get key o
    | None => JsMap.get key o
    end.
Proof.
  induction ds as [|[k dv] ds IH]; intros o ch key Hnd; [done|].
  rewrite fmap_cons in Hnd. apply NoDup_cons in Hnd as [Hk Hnd]. cbn [fst] in Hk.
  cbn [foldl JsMap.get]. unfold fill_default at 2. cbn [fst snd].
  destruct (decide (k = key)) as [->|Hne].
  - apply get_None in Hk.
    destruct (undefined_in key o) eqn:Hu; rewrite IH, Hk by done; [|done].
    by rewrite get_set_eq.
  - destruct (undefined_in k o) eqn:Hu; rewrite IH by done; [|done].
    rewrite get_set_ne by done.
    by rewrite (undefined_in_get key o (JsMap.set k dv o)) by (by rewrite get_set_ne).
Qed.

Lemma fill_default_changed ds : ∀ o ch,
  (foldl fill_default (o, ch) ds).2
  = ch || bool_decide (Exists (λ entry, undefined_in entry.1 o = true) ds)
  ∧ ((foldl fill_default (o, ch) ds).2 = false → (foldl fill_default (o, ch) ds).1 = o).
Proof.
  induction ds as [|[k dv] ds IH]; intros o ch; cbn [foldl].
  - split; [|done]. cbn [snd].
    rewrite bool_decide_eq_false_2; [by rewrite orb_false_r|].
    by intros ?%Exists_nil.
  - change (fill_default (o, ch) (k, dv))
      with (if undefined_in k o then (JsMap.set k dv o, true) else (o, ch)).
    destruct (undefined_in k o) eqn:Hu.
    + destruct (IH (JsMap.set k dv o) true) as [-> _]. cbn [orb].
      rewrite bool_decide_eq_true_2 by (by left). by rewrite orb_true_r.
    + destruct (IH o ch) as [-> Hsame]. split; [|done]. f_equal.
      apply bool_decide_ext. rewrite Exists_cons. cbn. split; [by right|].
      intros [?|?]; [congruence|done].
Qed.

(** ** The verified settings object *)

Lemma known_get key dv obj :
  JsMap.get key DEFAULT_SETTINGS = Some dv →
  JsMap.get key (filter (λ entry : string * value, undefined_in entry.1 DEFAULT_SETTINGS = false) obj)
  = JsMap.get key obj.
Proof.
  intros Hd. rewrite get_known. unfold undefined_in at 1. rewrite Hd.
  apply defaults_defined in Hd as [Hdv _]. by rewrite Hdv.
Qed.

Lemma verified_default obj key dv :
  JsMap.get key DEFAULT_SETTINGS = Some dv →
  ∃ v, JsMap.get key (verified obj).1 = Some v
    ∧ is_undefined v = false
    ∧ (if undefined_in key obj then v = dv else JsMap.get key obj = Some v).
Proof.
  intros Hd. unfold verified. rewrite known_spec.
  rewrite fill_default_get, Hd by apply defaults_names_unique.
  rewrite (undefined_in_get key obj) by (by eapply known_get).
  destruct (defaults_defined _ _ Hd) as [Hdv Hplain].
  destruct (undefined_in key obj) eqn:Hu.
  - eauto.
  - rewrite (known_get _ _ _ Hd). unfold undefined_in in Hu.
    destruct (JsMap.get key obj) as [v|]; [eauto|].
    rewrite Hplain in Hu. done.
Qed.

Lemma verified_keys obj key :
  key ∈ (verified obj).1.*1
  ↔ key ∈ DEFAULT_SETTINGS.*1 ∨ (key ∈ obj.*1 ∧ JsMap.inherited key = true).
Proof.
  destruct (JsMap.get key DEFAULT_SETTINGS) as [dv|] eqn:Hd.
  - destruct (verified_default obj key dv Hd) as (v & Hv & _).
    split.
    + intros _. left. apply get_Some_elem in Hd.
      apply list_elem_of_fmap. by exists (key, dv).
    + intros _. destruct (decide (key ∈ (verified obj).1.*1)) as [|Hnin]; [done|].
      apply get_None in Hnin. congruence.
  - pose proof Hd as Hnd. apply get_None in Hnd.
    assert (Hget : JsMap.get key (verified obj).1
                   = if JsMap.inherited key then JsMap.get key obj else None).
    { unfold verified. rewrite known_spec.
      rewrite fill_default_get, Hd by apply defaults_names_unique.
      rewrite get_known. unfold undefined_in. rewrite Hd.
      by destruct (JsMap.inherited key). }
    split.
    + intros Hin. right.
      destruct (JsMap.get key (verified obj).1) as [v|] eqn:Hv.
      2:{ by apply get_None in Hv. }
      destruct (JsMap.inherited key); [|done]. split; [|done].
      destruct (decide (key ∈ obj.*1)) as [|Hnin]; [done|].
      apply get_None in Hnin. congruence.
    + intros [?|[Hin Hinh]]; [done|]. rewrite Hinh in Hget.
      destruct (decide (key ∈ (verified obj).1.*1)) as [|Hnin]; [done|].
      apply get_None in Hnin. rewrite Hnin in Hget. symmetry in Hget.
      by apply get_None in Hget.
Qed.

Lemma verified_flag obj : (verified obj).2 = false ↔ (verified obj).1 = obj.
Proof.
  split.
  - unfold verified. rewrite known_spec.
    destruct (fill_default_changed DEFAULT_SETTINGS
      (filter (λ entry : string * value, undefined_in entry.1 DEFAULT_SETTINGS = false) obj)
      (bool_decide (Exists (λ key, undefined_in key DEFAULT_SETTINGS = true) obj.*1)))
      as [Hflag Hsame].
    intros Hfalse. rewrite (Hsame Hfalse).
    rewrite Hflag in Hfalse. apply orb_false_iff in Hfalse as [Hno _].
    apply bool_decide_eq_false_1 in Hno.
    apply filter_all. intros [k v] Hin. cbn.
    destruct (undefined_in k DEFAULT_SETTINGS) eqn:Hk; [|done].
    exfalso. apply Hno. apply Exists_exists. exists k. split; [|done].
    apply list_elem_of_fmap. by exists (k, v).
  - intros Hsame. destruct (verified obj).2 eqn:Hflag; [|done]. exfalso.
    revert Hflag. unfold verified. rewrite known_spec.
    destruct (fill_default_changed DEFAULT_SETTINGS
      (filter (λ entry : string * value, undefined_in entry.1 DEFAULT_SETTINGS = false) obj)
      (bool_decide (Exists (λ key, undefined_in key DEFAULT_SETTINGS = true) obj.*1)))
      as [-> _].
    intros Hflag. apply orb_true_iff in Hflag as [Hdrop|Hfill].
    + apply bool_decide_eq_true_1, Exists_exists in Hdrop as (key & Hin & Hu).
      assert (Hkept : key ∈ (verified obj).1.*1) by (by rewrite Hsame).
      unfold undefined_in in Hu.
      apply verified_keys in Hkept as [Hd|[_ Hinh]].
      * destruct (JsMap.get key DEFAULT_SETTINGS) as [dv|] eqn:Hd'.
        -- apply defaults_defined in Hd' as [? _]. congruence.
        -- by apply get_None in Hd'.
      * destruct (JsMap.get key DEFAULT_SETTINGS) as [dv|] eqn:Hd'.
        -- apply defaults_defined in Hd' as [? _]. congruence.
        -- by rewrite Hinh in Hu.
    + apply bool_decide_eq_true_1, Exists_exists in Hfill as ([key dv] & Hin & Hu).
      cbn in Hu.
      apply (elem_get _ _ _ defaults_names_unique) in Hin.
      rewrite (undefined_in_get key obj) in Hu by (by eapply known_get).
      destruct (verified_default obj key dv Hin) as (v & Hv & Hdef & _).
      rewrite Hsame in Hv. unfold undefined_in in Hu. rewrite Hv in Hu. congruence.
Qed.

Lemma verified_again obj : verified (verified obj).1 = ((verified obj).1, false).
Proof.
  assert (Hflag : (verified (verified obj).1).2 = false).
  { unfold verified at 1. rewrite known_spec.
    destruct (fill_default_changed DEFAULT_SETTINGS
      (filter (λ entry : string * value, undefined_in entry.1 DEFAULT_SETTINGS = false) (verified obj).1)
      (bool_decide (Exists (λ key, undefined_in key DEFAULT_SETTINGS = true)
                      (verified obj).1.*1)))
      as [-> _].
    apply orb_false_iff. split; apply bool_decide_eq_false_2.
    - intros (key & Hin & Hu)%Exists_exists. unfold undefined_in in Hu.
      apply verified_keys in Hin as [Hd|[_ Hinh]].
      + destruct (JsMap.get key DEFAULT_SETTINGS) as [dv|] eqn:Hd'.
        * apply defaults_defined in Hd' as [? _]. congruence.
        * by apply get_None in Hd'.
      + destruct (JsMap.get key DEFAULT_SETTINGS) as [dv|] eqn:Hd'.
        * apply defaults_defined in Hd' as [? _]. congruence.
        * by rewrite Hinh in Hu.
    - intros ([key dv] & Hin & Hu)%Exists_exists. cbn in Hu.
      apply (elem_get _ _ _ defaults_names_unique) in Hin.
      rewrite (undefined_in_get key (verified obj).1) in Hu by (by eapply known_get).
      destruct (verified_default obj key dv Hin) as (v & Hv & Hdef & _).
      unfold undefined_in in Hu. rewrite Hv in Hu. congruence. }
  pose proof (proj1 (verified_flag _) Hflag) as Hsame.
  destruct (verified (verified obj).1) as [o ch]. cbn in *. by subst.
Qed.

Lemma verifySettings_object stringify s :
  settingsObject (verifySettings stringify s) = (verified (settingsObject s)).1.
Proof.
  unfold verifySettings. destruct (verified (settingsObject s)) as [o ch].
  by destruct ch.
Qed.

(** X26: [verifySettings] leaves a settings object in which every
    default setting is present and defined, with the value it had if it
    had one and its default otherwise, and which has no other property,
    but for stored properties named after a member of [Object.prototype],
    which the check [DEFAULT_SETTINGS[key] === undefined] lets pass. *)
Theorem verifySettings_completes_the_defaults
    (JSON_stringify : value → string) (s : t) :
  (∀ key dv, JsMap.get key DEFAULT_SETTINGS = Some dv →
     ∃ v, JsMap.get key (settingsObject (verifySettings JSON_stringify s)) = Some v
       ∧ is_undefined v = false
       ∧ (if undefined_in key (settingsObject s) then v = dv
          else JsMap.get key (settingsObject s) = Some v))
  ∧ (∀ key, key ∈ (settingsObject (verifySettings JSON_stringify s)).*1
       ↔ key ∈ DEFAULT_SETTINGS.*1
         ∨ (key ∈ (settingsObject s).*1 ∧ JsMap.inherited key = true)).
Proof.
  rewrite verifySettings_object. split.
  - intros key dv. apply verified_default.
  - intros key. apply verified_keys.
Qed.

(** X27: [verifySettings] writes the settings to the local storage and
    fires the settings event exactly when it changed the object, once; if
    nothing was to change it leaves everything as it was, and verifying a
    second time never changes anything. *)
Theorem verifySettings_applies_exactly_changes
    (JSON_stringify : value → string) (s : t) :
  let s' := verifySettings JSON_stringify s in
  (settingsObject s' = settingsObject s → s' = s)
  ∧ (settingsObject s' ≠ settingsObject s →
       localStorage s' = Some (JSON_stringify (VObj (settingsObject s')))
       ∧ fired s' = S (fired s))
  ∧ verifySettings JSON_stringify s' = s'.
Proof.
  cbn zeta. split; [|split].
  - rewrite verifySettings_object. intros Hsame.
    apply verified_flag in Hsame. unfold verifySettings.
    destruct (verified (settingsObject s)) as [o ch] eqn:Hv. cbn in Hsame. subst ch.
    pose proof (proj1 (verified_flag (settingsObject s))) as Hobj.
    rewrite Hv in Hobj. cbn in Hobj. rewrite Hobj by done. by destruct s.
  - rewrite verifySettings_object. intros Hdiff.
    assert (Hflag : (verified (settingsObject s)).2 = true).
    { destruct (verified (settingsObject s)).2 eqn:Hf; [done|].
      by apply verified_flag in Hf. }
    unfold verifySettings.
    destruct (verified (settingsObject s)) as [o ch]. cbn in Hflag. by subst ch.
  - unfold verifySettings at 1. rewrite verifySettings_object, verified_again.
    unfold verifySettings.
    destruct (verified (settingsObject s)) as [o ch]. by destruct ch.
Qed.

(** Stored settings of an older version: [sound] is gone, [volume] is
    kept, the other defaults are filled in, and a stored [constructor]
    stays. *)
Example verifySettings_sample :
  (verified [("sound", VBool true); ("volume", VNum (Q2Qc (10 # 1)));
             ("constructor", VNull)])
  = ([("volume", VNum (Q2Qc (10 # 1))); ("constructor", VNull);
      ("fps", VBool false); ("mouse_sensitivity", VNum (Q2Qc (50 # 1)));
      ("shaders", VBool true); ("controls", VObj []);
      ("movement_deadzone", VNum (Q2Qc (15 # 100)))], true).
Proof. vm_compute. reflexivity. Qed.

End SettingsFacts.

Module UtilFacts.
Import Js Util FloatFacts.

(** ** [shuffleArray] *)

Lemma insert_found {A} (l : list A) j x y :
  l !! j = Some y → y :: <[j := x]> l ≡ₚ x :: l.
Proof.
  revert j. induction l as [|b l IH]; intros [|j] Hj; try done; cbn in *.
  - injection Hj as ->. apply Permutation_swap.
  - rewrite Permutation_swap, (IH j Hj). apply Permutation_swap.
Qed.

Lemma insert_swap_permutation {A} (l : list A) i j x y :
  l !! i = Some x → l !! j = Some y → <[j := x]> (<[i := y]> l) ≡ₚ l.
Proof.
  revert i j. induction l as [|a l IH]; intros [|i] [|j] Hi Hj; try done; cbn in *.
  - by simplify_eq.
  - injection Hi as ->. by apply insert_found.
  - injection Hj as ->. by apply insert_found.
  - by rewrite IH.
Qed.

Lemma array_index_key i : Z.of_nat i < 2 ^ 32 - 1 → array_index (index_key i) = Some i.
Proof.
  intros Hi. unfold array_index, index_key. cbn [this Q2Qc].
  rewrite (Qred_identity (inject_Z (Z.of_nat i))) by apply Z.gcd_1_r.
  rewrite Qfloor_Z.
  rewrite (proj2 (Qeq_bool_iff _ _)) by reflexivity.
  rewrite (proj2 (Z.leb_le _ _)) by lia.
  rewrite (proj2 (Z.ltb_lt _ _)) by lia.
  cbn. by rewrite Nat2Z.id.
Qed.

(** Swapping two elements of an array without holes. *)
Lemma swap_of_list {A} (l : list A) i j x y :
  Z.of_nat (length l) < 2 ^ 32 →
  l !! i = Some x → l !! j = Some y →
  swap (index_key i) (index_key j) (of_list l)
  = of_list (<[j := x]> (<[i := y]> l)).
Proof.
  intros Hlen Hi Hj.
  pose proof (lookup_lt_Some _ _ _ Hi) as Hi'.
  pose proof (lookup_lt_Some _ _ _ Hj) as Hj'.
  unfold swap, read, assign.
  rewrite !array_index_key by lia. cbn [items properties of_list].
  rewrite !list_lookup_fmap, Hi, Hj. cbn.
  rewrite (bool_decide_eq_true_2 (i < length (Some <$> l))%nat)
    by (by rewrite length_fmap).
  rewrite bool_decide_eq_true_2 by (by rewrite length_insert, length_fmap).
  unfold of_list. by rewrite !list_fmap_insert.
Qed.

(** A double below 1 is at most [1 - 2^-53]. *)
Lemma double_below_1 r :
  representable binary64 r → (r < 1)%Q → (r <= 1 - pow2 (-53))%Q.
Proof.
  intros (m & e & Hr & Hm & He) Hlt. cbn in Hm, He.
  pose proof (pow2_pos e) as HE.
  assert (H53 : (pow2 53 * pow2 (-53) == 1)%Q) by (by vm_compute).
  pose proof (pow2_pos (-53)) as Hpos.
  destruct (Z_le_gt_dec (-53) e) as [Hcase|Hcase].
  - (* [r * 2^53] is an integer below [2^53] *)
    assert (Hint : (r * pow2 53 == inject_Z (m * 2 ^ (e + 53)))%Q).
    { rewrite Hr, inject_Z_mult, <- pow2_inject, <- Qmult_assoc, <- pow2_add by lia.
      reflexivity. }
    assert (Hbound : m * 2 ^ (e + 53) < 2 ^ 53).
    { rewrite Zlt_Qlt, <- Hint, <- pow2_inject by lia.
      pose proof (pow2_pos 53). nra. }
    assert (Hle : m * 2 ^ (e + 53) + 1 ≤ 2 ^ 53) by lia.
    rewrite Zle_Qle, inject_Z_plus, <- pow2_inject in Hle by lia.
    change (inject_Z 1) with 1%Q in Hle.
    rewrite <- Hint in Hle. pose proof (pow2_pos 53). nra.
  - (* [r] is at most a half *)
    assert (Hm' : (inject_Z m <= pow2 53)%Q).
    { rewrite pow2_inject, <- Zle_Qle by lia. lia. }
    assert (He' : (pow2 e <= pow2 (-54))%Q) by (apply pow2_le; lia).
    assert (Hhalf : (pow2 53 * pow2 (-54) == 1 # 2)%Q) by (by vm_compute).
    assert (Hsmall : (pow2 (-53) <= 1 # 2)%Q) by (by vm_compute).
    pose proof (pow2_pos 53). pose proof (pow2_pos (-54)).
    assert (Hrle : (r <= pow2 53 * pow2 (-54))%Q).
    { rewrite Hr. apply Qle_trans with (pow2 53 * pow2 e)%Q.
      - apply Qmult_le_compat_r; lra.
      - apply Qmult_le_l; lra. }
    lra.
Qed.

(** The product of a draw and an integer [n] is, as a double, still
    below [n]. *)
Lemma product_below r (n : Z) :
  representable binary64 r → (0 <= r)%Q → (r < 1)%Q → 1 ≤ n ≤ 2 ^ 53 →
  ∃ p, to_double (r * inject_Z n) = Finite p
    ∧ (0 <= this p)%Q ∧ (this p < inject_Z n)%Q.
Proof.
  intros Hr H0 H1 Hn.
  pose proof (double_below_1 r Hr H1) as Hr'.
  set (K := Z.log2_up n).
  assert (HK0 : 0 ≤ K) by apply Z.log2_up_nonneg.
  assert (HK53 : K ≤ 53) by (apply Z.log2_up_le_pow2; lia).
  assert (HnK : n ≤ 2 ^ K) by (apply Z.log2_up_le_pow2; [lia|done]).
  assert (HKn : (pow2 (K - 1) < inject_Z n)%Q).
  { destruct (decide (n = 1)) as [->|Hne]; [by vm_compute|].
    pose proof (Z.log2_up_spec n ltac:(lia)) as [Hlt _].
    assert (0 < K) by (apply Z.log2_up_pos; lia).
    rewrite pow2_inject, <- Zlt_Qlt by lia.
    by replace (K - 1) with (Z.pred K) by lia. }
  assert (Hn0 : (1 <= inject_Z n)%Q) by (rewrite <- (Zle_Qle 1); lia).
  set (T := pow2 (K - 54)).
  assert (HT : (0 < T)%Q) by apply pow2_pos.
  assert (HT2 : (pow2 (K - 53) == 2 * T)%Q).
  { unfold T. rewrite <- pow2_succ. f_equiv. lia. }
  assert (HT53 : (pow2 (K - 1) * pow2 (-53) == T)%Q).
  { unfold T. rewrite <- pow2_add. f_equiv. lia. }
  set (x := (r * inject_Z n)%Q).
  assert (Hx0 : (0 <= x)%Q) by (apply Qmult_le_0_compat; lra).
  assert (Hxn : (x < inject_Z n - T)%Q).
  { assert (x <= (1 - pow2 (-53)) * inject_Z n)%Q
      by (apply Qmult_le_compat_r; lra).
    pose proof (pow2_pos (-53)).
    assert (pow2 (K - 1) * pow2 (-53) < inject_Z n * pow2 (-53))%Q
      by (apply Qmult_lt_compat_r; lra).
    lra. }
  set (y := (inject_Z n - pow2 (K - 53))%Q).
  assert (Hy : representable binary64 y).
  { exists (n * 2 ^ (53 - K) - 1), (K - 53). cbn. split; [|split].
    - unfold y. replace (n * 2 ^ (53 - K) - 1) with (n * 2 ^ (53 - K) + -1) by lia.
      rewrite inject_Z_plus, inject_Z_mult, <- pow2_inject by lia.
      change (inject_Z (-1)) with (-1 # 1)%Q.
      assert (Hone : (pow2 (53 - K) * pow2 (K - 53) == 1)%Q).
      { rewrite <- pow2_add. by replace (53 - K + (K - 53)) with 0 by lia. }
      pose proof (pow2_pos (53 - K)). pose proof (pow2_pos (K - 53)).
      set (a := pow2 (53 - K)) in *. set (b := pow2 (K - 53)) in *.
      transitivity (inject_Z n * (a * b) - b)%Q; [rewrite Hone; ring|ring].
    - assert (0 < 2 ^ (53 - K)) by (apply Z.pow_pos_nonneg; lia).
      assert (n * 2 ^ (53 - K) ≤ 2 ^ K * 2 ^ (53 - K)) by nia.
      rewrite <- Z.pow_add_r in * by lia.
      replace (K + (53 - K)) with 53 in * by lia. nia.
    - lia. }
  assert (H53 : representable binary64 (pow2 53)).
  { exists 1, 53. split; [|by cbn]. change (inject_Z 1) with 1%Q. ring. }
  assert (Hn53 : (inject_Z n <= pow2 53)%Q).
  { rewrite pow2_inject, <- Zle_Qle by lia. lia. }
  assert (Hfin : to_double x = Finite (Q2Qc (nearest binary64 x))).
  { apply (round_finite binary64 eq_refl x (pow2 53)); [done| |by vm_compute].
    rewrite Qabs_pos by done. lra. }
  exists (Q2Qc (nearest binary64 x)). split; [done|].
  pose proof (round_closest binary64 eq_refl x y _ Hfin Hy) as Hnear.
  pose proof (round_closest binary64 eq_refl x 0 _ Hfin
                (representable_0 binary64 eq_refl)) as Hzero.
  cbn [this Q2Qc] in *. rewrite Qred_correct in *.
  unfold y in Hnear. rewrite HT2 in Hnear. clearbody x T.
  revert Hnear Hzero.
  apply Qabs_case; intros ?; apply Qabs_case; intros ?;
    apply Qabs_case; intros ?; intros; split; lra.
Qed.

(** Every index drawn for position [i] lies at or below [i]. *)
Lemma random_index_range r i :
  unit_draw r = true → Z.of_nat i < 2 ^ 32 →
  ∃ j, random_index r i = index_key j ∧ (j ≤ i)%nat.
Proof.
  unfold unit_draw. intros [[Hd H0%bool_decide_eq_true_1]%andb_true_iff
                             H1%bool_decide_eq_true_1]%andb_true_iff Hi.
  apply (in_format_representable binary64 eq_refl) in Hd.
  destruct (product_below (this r) (Z.of_nat i + 1) Hd H0 H1 ltac:(lia))
    as (p & Hp & Hp0 & Hpn).
  unfold random_index. rewrite Hp. cbn [floor].
  assert (Hf0 : 0 ≤ Qfloor (this p)).
  { change 0 with (Qfloor 0). by apply Qfloor_resp_le. }
  assert (Hfn : Qfloor (this p) < Z.of_nat i + 1).
  { rewrite Zlt_Qlt. eapply Qle_lt_trans; [apply Qfloor_le|done]. }
  exists (Z.to_nat (Qfloor (this p))). split; [|lia].
  unfold index_key. by rewrite Z2Nat.id.
Qed.

Lemma shuffle_from_permutation {A} random i : ∀ n (l : list A),
  (∀ k, unit_draw (random k) = true) →
  (i < length l)%nat → Z.of_nat (length l) < 2 ^ 32 →
  ∃ l', shuffle_from random i n (of_list l) = of_list l' ∧ l' ≡ₚ l.
Proof.
  induction i as [|i IH]; intros n l Hrandom Hi Hlen; [by exists l|].
  cbn [shuffle_from].
  destruct (random_index_range (random n) (S i) (Hrandom n) ltac:(lia))
    as (j & -> & Hj).
  destruct (lookup_lt_is_Some_2 l (S i) Hi) as [x Hx].
  destruct (lookup_lt_is_Some_2 l j ltac:(lia)) as [y Hy].
  rewrite (swap_of_list l (S i) j x y Hlen Hx Hy).
  pose proof (insert_swap_permutation l (S i) j x y Hx Hy) as Hperm.
  destruct (IH (S n) (<[j := x]> (<[S i := y]> l)) Hrandom) as (l' & -> & Hl').
  - rewrite !length_insert. lia.
  - by rewrite !length_insert.
  - exists l'. split; [done|]. by rewrite Hl'.
Qed.

(** X28: when [Math.random()] returns doubles from 0 up to but not
    including 1, [shuffleArray] leaves a permutation of the array it was
    given: every index it draws, the product being rounded to a double,
    lies at or below the position it is filling, so each step swaps two
    elements of the array; the array neither grows nor gets a hole, and
    no element is lost, duplicated or added. *)
Theorem shuffleArray_permutes {A} (random : nat → number) (array : list A) :
  (∀ n, unit_draw (random n) = true) →
  Z.of_nat (length array) < 2 ^ 32 →
  (∃ shuffled,
     shuffleArray random (of_list array) = of_list shuffled
     ∧ shuffled ≡ₚ array
     ∧ length shuffled = length array)
  ∧ ∀ n i, Z.of_nat i < 2 ^ 32 →
      ∃ j, random_index (random n) i = index_key j ∧ (j ≤ i)%nat.
Proof.
  intros Hrandom Hlen. split.
  - unfold shuffleArray. cbn [items of_list]. rewrite length_fmap.
    destruct array as [|a array].
    + exists []. by cbn.
    + destruct (shuffle_from_permutation random (length (a :: array) - 1) 0
                  (a :: array) Hrandom) as (l' & Hl' & Hperm); [cbn; lia|done|].
      exists l'. split; [done|]. split; [done|]. by rewrite Hperm.
  - intros n i Hi. by apply random_index_range.
Qed.

Lemma shuffleArray_permutes_witness :
  (∃ shuffled,
     shuffleArray half (of_list [1; 2; 3; 4; 5]) = of_list shuffled
     ∧ shuffled ≡ₚ [1; 2; 3; 4; 5]
     ∧ length shuffled = length [1; 2; 3; 4; 5])
  ∧ ∀ n i, Z.of_nat i < 2 ^ 32 →
      ∃ j, random_index (half n) i = index_key j ∧ (j ≤ i)%nat.
Proof.
  apply (shuffleArray_permutes half [1; 2; 3; 4; 5]).
  - intros n. vm_compute. reflexivity.
  - vm_compute. reflexivity.
Defined.

(** With a half drawn every time. *)
Example shuffleArray_sample :
  shuffleArray half (of_list [1; 2; 3; 4; 5]) = of_list [1; 4; 2; 5; 3].
Proof. vm_compute. reflexivity. Qed.

(** The product is rounded: for the double nearest to a third and
    [i = 2] it is the double 1, where the exact product is below 1. *)
Example random_index_rounds :
  random_index (q 6004799503160661 (2 ^ 54)) 2 = index_key 1
  ∧ Qfloor (this (q 6004799503160661 (2 ^ 54)) * 3) = 0.
Proof.
  split; [|reflexivity].
  apply same_float_eq. vm_compute. reflexivity.
Qed.

(** A draw outside of what [Math.random()] returns: the index lies past
    the end, and the array grows around a hole. *)
Example swap_grows :
  items (shuffleArray (λ _, q 3 2) (of_list [1; 2; 3]))
  = [Some 1; None; None; Some 2; Some 3].
Proof. vm_compute. reflexivity. Qed.

(** ** [extractMeshes] *)

Lemma Object3D_children_ind (P : Object3D → Prop) :
  (∀ type name children, Forall P children → P (Node type name children)) →
  ∀ object, P object.
Proof.
  intros Hnode. fix IH 1. intros [t n cs]. apply Hnode.
  induction cs as [|c cs IHcs]; constructor; [apply IH|exact IHcs].
Qed.

Lemma extractMeshes_filter materialFilter filterOut b0 object :
  extractMeshes object materialFilter filterOut
  = filter (λ mesh, selects materialFilter filterOut mesh = true)
      (extractMeshes object "" b0).
Proof.
  induction object as [t n cs IH] using Object3D_children_ind.
  cbn [extractMeshes]. rewrite filter_app. f_equal.
  - destruct (decide (t = "Mesh")); [|done].
    change (selects "" b0 (Node t n cs)) with true. cbn iota.
    rewrite filter_cons, filter_nil.
    by destruct (selects materialFilter filterOut (Node t n cs)).
  - induction IH as [|c cs Hc Hcs IHcs]; [done|].
    by rewrite filter_app, <- Hc, <- IHcs.
Qed.

Lemma extractMeshes_meshes materialFilter filterOut object :
  Forall (λ mesh, type mesh = "Mesh") (extractMeshes object materialFilter filterOut).
Proof.
  induction object as [t n cs IH] using Object3D_children_ind.
  cbn [extractMeshes]. apply Forall_app. split.
  - destruct (decide (t = "Mesh")); [|done].
    destruct (selects _ _ _); by repeat constructor.
  - induction IH as [|c cs Hc Hcs IHcs]; [done|]. by apply Forall_app.
Qed.

Lemma filter_split {A} (P Q : A → Prop) `{∀ x, Decision (P x)} `{∀ x, Decision (Q x)}
    (l : list A) :
  (∀ x, P x ↔ ¬ Q x) → l ≡ₚ filter P l ++ filter Q l.
Proof.
  intros HPQ. induction l as [|x l IH]; [done|].
  rewrite !filter_cons. destruct (decide (P x)) as [HP|HP], (decide (Q x)) as [HQ|HQ].
  - by apply HPQ in HP.
  - cbn. by rewrite <- IH.
  - by rewrite <- Permutation_middle, <- IH.
  - exfalso. apply HP. by apply HPQ.
Qed.

(** X29: with a material filter, the two modes of [extractMeshes] split
    the meshes of the hierarchy between them: excluding returns, in the
    order of the unfiltered search, the meshes whose material name does
    not contain the filter, including returns those whose name contains
    it, every mesh of the hierarchy is in exactly one of the two results,
    and nothing but meshes is returned. *)
Theorem extractMeshes_splits_by_material (object : Object3D) (materialFilter : string) :
  materialFilter ≠ "" →
  extractMeshes object materialFilter true
  = filter (λ mesh, indexOf (material_name mesh) materialFilter < 0)
      (extractMeshes object "" true)
  ∧ extractMeshes object materialFilter false
    = filter (λ mesh, indexOf (material_name mesh) materialFilter > -1)
        (extractMeshes object "" true)
  ∧ extractMeshes object "" true
    ≡ₚ extractMeshes object materialFilter true
       ++ extractMeshes object materialFilter false
  ∧ Forall (λ mesh, type mesh = "Mesh") (extractMeshes object "" true).
Proof.
  intros Hfilter.
  assert (Hout : extractMeshes object materialFilter true
    = filter (λ mesh, indexOf (material_name mesh) materialFilter < 0)
        (extractMeshes object "" true)).
  { rewrite (extractMeshes_filter materialFilter true true).
    apply list_filter_iff. intros mesh. unfold selects.
    rewrite decide_False by done. cbn. rewrite orb_false_r.
    apply bool_decide_eq_true. }
  assert (Hin : extractMeshes object materialFilter false
    = filter (λ mesh, indexOf (material_name mesh) materialFilter > -1)
        (extractMeshes object "" true)).
  { rewrite (extractMeshes_filter materialFilter false true).
    apply list_filter_iff. intros mesh. unfold selects.
    rewrite decide_False by done. cbn. apply bool_decide_eq_true. }
  split; [done|]. split; [done|]. split; [|apply extractMeshes_meshes].
  rewrite Hout, Hin. apply filter_split. intros mesh. lia.
Qed.

Lemma extractMeshes_splits_by_material_witness :
  let scene :=
    Node "Scene" ""
      [ Node "Mesh" "hull" [ Node "Mesh" "glass_cockpit" [] ];
        Node "Group" "" [ Node "Mesh" "glass" [] ] ] in
  extractMeshes scene "glass" true
  = filter (λ mesh, indexOf (material_name mesh) "glass" < 0)
      (extractMeshes scene "" true)
  ∧ extractMeshes scene "glass" false
    = filter (λ mesh, indexOf (material_name mesh) "glass" > -1)
        (extractMeshes scene "" true)
  ∧ extractMeshes scene "" true
    ≡ₚ extractMeshes scene "glass" true ++ extractMeshes scene "glass" false
  ∧ Forall (λ mesh, type mesh = "Mesh") (extractMeshes scene "" true).
Proof.
  intros scene. apply (extractMeshes_splits_by_material scene "glass"). discriminate.
Defined.

(** The hull is kept when glass is filtered out. *)
Example extractMeshes_sample :
  material_name
    <$> extractMeshes
          (Node "Scene" ""
             [ Node "Mesh" "hull" [ Node "Mesh" "glass_cockpit" [] ];
               Node "Group" "" [ Node "Mesh" "glass" [] ] ]) "glass" true
  = ["hull"].
Proof. vm_compute. reflexivity. Qed.

(** ** [createUUID] *)

Lemma to_int32_random r :
  (0 ≤ r)%Qc → (r < 1)%Qc → 0 ≤ to_int32 (r * Q2Qc (16 # 1))%Qc < 16.
Proof.
  intros H0 H1. unfold to_int32.
  set (k := Q2Qc (16 # 1)).
  assert (Hk : (0 < k)%Qc) by done.
  assert (Hge : (0 ≤ r * k)%Qc).
  { rewrite <- (Qcmult_0_l k). apply Qcmult_le_compat_r; [done|].
    by apply Qclt_le_weak. }
  assert (Hlt : (r * k < k)%Qc).
  { rewrite <- (Qcmult_1_l k) at 2. by apply Qcmult_lt_compat_r. }
  rewrite bool_decide_eq_true_2 by done.
  assert (Hfl : 0 ≤ Qfloor (r * k)%Qc < 16).
  { split.
    - change 0 with (Qfloor 0). by apply Qfloor_resp_le.
    - rewrite Zlt_Qlt. eapply Qle_lt_trans; [apply Qfloor_le|]. exact Hlt. }
  rewrite Z.mod_small by lia. lia.
Qed.

Lemma small_cases v :
  0 ≤ v < 16 →
  v ∈ [0; 1; 2; 3; 4; 5; 6; 7; 8; 9; 10; 11; 12; 13; 14; 15].
Proof.
  intros Hv. repeat rewrite elem_of_cons. lia.
Qed.

Lemma replacement_char c r :
  (0 ≤ r)%Qc → (r < 1)%Qc →
  ∃ d, replacement c r = String d ""
    ∧ is_hex d
    ∧ (c ≠ "x"%char → d ∈ ["8"; "9"; "a"; "b"]%char).
Proof.
  intros H0 H1. unfold replacement.
  pose proof (small_cases _ (to_int32_random r H0 H1)) as Hr.
  generalize dependent (to_int32 (r * Q2Qc (16 # 1))%Qc). intros v Hv.
  destruct (decide (c = "x"%char)) as [->|Hc].
  - eexists. split; [|split; [|done]].
    + repeat (apply elem_of_cons in Hv as [->|Hv]; [reflexivity|]).
      by apply elem_of_nil in Hv.
    + repeat (apply elem_of_cons in Hv as [->|Hv]; [vm_compute; set_solver|]).
      by apply elem_of_nil in Hv.
  - repeat (apply elem_of_cons in Hv as [->|Hv];
            [eexists; split; [reflexivity|]; split; [|intros _];
             vm_compute; set_solver|]).
    by apply elem_of_nil in Hv.
Qed.

Lemma replace_xy_chars random template : ∀ n,
  (∀ n, (0 ≤ random n)%Qc ∧ (random n < 1)%Qc) →
  Forall2 replaces (String.list_ascii_of_string template)
    (String.list_ascii_of_string (replace_xy random template n)).
Proof.
  intros n Hrandom. revert n.
  induction template as [|t template IH]; intros n; cbn [replace_xy]; [constructor|].
  destruct (decide (t = "x"%char ∨ t = "y"%char)) as [Hxy|Hxy].
  - destruct (replacement_char t (random n) (proj1 (Hrandom n)) (proj2 (Hrandom n)))
      as (d & -> & Hhex & Hvar).
    change (String d "" +:+ ?s) with (String d s).
    cbn [String.list_ascii_of_string]. constructor; [|apply IH].
    split; [done|]. split.
    + intros ->. by apply Hvar.
    + intros ? ?. by destruct Hxy.
  - cbn [String.list_ascii_of_string]. constructor; [|apply IH].
    split; [|split]; try done; intros ->; destruct Hxy; auto.
Qed.

Lemma get_lookup i : ∀ s, String.get i s = String.list_ascii_of_string s !! i.
Proof.
  induction i as [|i IH]; intros [|c s]; try done. cbn. apply IH.
Qed.

Lemma length_chars s : String.length s = length (String.list_ascii_of_string s).
Proof. induction s as [|c s IH]; [done|]. cbn. by rewrite IH. Qed.

(** The template: hyphens at 8, 13, 18 and 23, and [x], [y] or [4]
    elsewhere. *)
Lemma template_positions i t :
  String.list_ascii_of_string "xxxxxxxx-xxxx-4xxx-yxxx-xxxxxxxxxxxx" !! i = Some t →
  i ∉ [8; 13; 18; 23]%nat →
  t = "x"%char ∨ t = "y"%char ∨ t = "4"%char.
Proof.
  cbn [String.list_ascii_of_string]. intros Ht Hpos.
  do 36 (destruct i as [|i];
         [injection Ht as <-;
          first [ by left | by right; left | by right; right
                | exfalso; apply Hpos; repeat constructor ]|]).
  done.
Qed.

Lemma replace_xy_version_4 (random : nat → number) :
  (∀ n, (0 ≤ random n)%Qc ∧ (random n < 1)%Qc) →
  String.length (replace_xy random "xxxxxxxx-xxxx-4xxx-yxxx-xxxxxxxxxxxx" 0) = 36%nat
  ∧ Forall (λ i, String.get i (replace_xy random "xxxxxxxx-xxxx-4xxx-yxxx-xxxxxxxxxxxx" 0) = Some "-"%char) [8; 13; 18; 23]%nat
  ∧ String.get 14 (replace_xy random "xxxxxxxx-xxxx-4xxx-yxxx-xxxxxxxxxxxx" 0) = Some "4"%char
  ∧ (∃ c, String.get 19 (replace_xy random "xxxxxxxx-xxxx-4xxx-yxxx-xxxxxxxxxxxx" 0) = Some c ∧ c ∈ ["8"; "9"; "a"; "b"]%char)
  ∧ ∀ i c, String.get i (replace_xy random "xxxxxxxx-xxxx-4xxx-yxxx-xxxxxxxxxxxx" 0) = Some c →
      i ∉ [8; 13; 18; 23]%nat → is_hex c.
Proof.
  intros Hrandom.
  pose proof (replace_xy_chars random "xxxxxxxx-xxxx-4xxx-yxxx-xxxxxxxxxxxx" 0 Hrandom)
    as Hchars.
  assert (Hat : ∀ i t,
    String.list_ascii_of_string "xxxxxxxx-xxxx-4xxx-yxxx-xxxxxxxxxxxx" !! i = Some t →
    ∃ c, String.get i (replace_xy random "xxxxxxxx-xxxx-4xxx-yxxx-xxxxxxxxxxxx" 0) = Some c ∧ replaces t c).
  { intros i t Ht. rewrite get_lookup. by eapply Forall2_lookup_l. }
  assert (Hfixed : ∀ i t,
    String.list_ascii_of_string "xxxxxxxx-xxxx-4xxx-yxxx-xxxxxxxxxxxx" !! i = Some t →
    t ≠ "x"%char → t ≠ "y"%char → String.get i (replace_xy random "xxxxxxxx-xxxx-4xxx-yxxx-xxxxxxxxxxxx" 0) = Some t).
  { intros i t Ht Hx Hy. destruct (Hat i t Ht) as (c & Hc & _ & _ & Hsame).
    by rewrite Hc, Hsame. }
  split; [|split; [|split; [|split]]].
  - rewrite length_chars, <- (Forall2_length _ _ _ Hchars). reflexivity.
  - repeat constructor; by apply Hfixed.
  - by apply Hfixed.
  - destruct (Hat 19%nat "y"%char eq_refl) as (c & Hc & _ & Hvar & _). eauto.
  - intros i c Hc Hpos. rewrite get_lookup in Hc.
    destruct (Forall2_lookup_r _ _ _ _ _ Hchars Hc) as (t & Ht & Hx & Hy & Hsame).
    destruct (template_positions i t Ht Hpos) as [-> | [-> | ->]].
    + by apply Hx.
    + specialize (Hy eq_refl). unfold is_hex.
      repeat (apply elem_of_cons in Hy as [-> | Hy]; [by repeat constructor|]).
      by apply elem_of_nil in Hy.
    + rewrite Hsame by done. unfold is_hex. by repeat constructor.
Qed.

(** X30: whatever [Math.random()] returns, [createUUID] produces a
    string laid out as a version 4 UUID: 36 characters, hyphens at
    positions 8, 13, 18 and 23, the version digit 4 at position 14, one
    of 8, 9, a, b at position 19, and lower-case hexadecimal digits
    everywhere else. *)
Theorem createUUID_is_version_4 (random : nat → number) :
  (∀ n, (0 ≤ random n)%Qc ∧ (random n < 1)%Qc) →
  String.length (createUUID random) = 36%nat
  ∧ Forall (λ i, String.get i (createUUID random) = Some "-"%char) [8; 13; 18; 23]%nat
  ∧ String.get 14 (createUUID random) = Some "4"%char
  ∧ (∃ c, String.get 19 (createUUID random) = Some c ∧ c ∈ ["8"; "9"; "a"; "b"]%char)
  ∧ ∀ i c, String.get i (createUUID random) = Some c →
      i ∉ [8; 13; 18; 23]%nat → is_hex c.
Proof. unfold createUUID. exact (replace_xy_version_4 random). Qed.

Lemma createUUID_is_version_4_witness :
  String.length (createUUID half) = 36%nat
  ∧ Forall (λ i, String.get i (createUUID half) = Some "-"%char) [8; 13; 18; 23]%nat
  ∧ String.get 14 (createUUID half) = Some "4"%char
  ∧ (∃ c, String.get 19 (createUUID half) = Some c ∧ c ∈ ["8"; "9"; "a"; "b"]%char)
  ∧ ∀ i c, String.get i (createUUID half) = Some c →
      i ∉ [8; 13; 18; 23]%nat → is_hex c.
Proof.
  apply (createUUID_is_version_4 half). intros n. split; by vm_compute.
Defined.

(** With a half drawn every time: [r] is 8, and [8 & 0x3 | 0x8] is 8. *)
Example createUUID_sample :
  createUUID half = "88888888-8888-4888-8888-888888888888".
Proof. vm_compute. reflexivity. Qed.

End UtilFacts.
